(** * Live sync: reconciling an OpenAPI document diff with the entity store

    A shallow embedding of
    [packages/api-client/src/views/Request/libs/live-sync.ts]:
    the rename combiner, the resource finder, the Zod schema traversal, the
    diff parser and the five payload builders, followed by the properties of
    the specification that were proved or refuted on them. *)

From stdpp Require Import base option strings list gmap pretty.
From Stdlib Require Import ZArith Ascii.

Set Warnings "-register-all".

Local Open Scope string_scope.
Local Open Scope list_scope.

(** ** JavaScript values *)

(** The JSON-like values the diff carries.  Numbers are modelled by integers;
    an object is its list of own enumerable properties in insertion order,
    which is the order [Object.entries], [Object.keys] and a [for in] loop
    observe when no key is the decimal string of an index (such keys are
    enumerated first, in numeric order). *)
Inductive Value : Type :=
  | VUndefined
  | VNull
  | VBool (b : bool)
  | VNumber (n : Z)
  | VString (s : string)
  | VArray (items : list Value)
  | VObject (fields : list (string * Value)).

(** [!v] is false exactly on the truthy values. *)
Definition truthy (v : Value) : bool :=
  match v with
  | VUndefined | VNull => false
  | VBool b => b
  | VNumber n => negb (n =? 0)%Z
  | VString s => negb (bool_decide (s = ""))
  | VArray _ | VObject _ => true
  end.

(** [a === b].  Primitives compare by value; arrays and objects compare by
    reference, and no two values of this model share a reference. *)
Definition strictEq (a b : Value) : bool :=
  match a, b with
  | VUndefined, VUndefined => true
  | VNull, VNull => true
  | VBool x, VBool y => bool_decide (x = y)
  | VNumber x, VNumber y => (x =? y)%Z
  | VString x, VString y => bool_decide (x = y)
  | _, _ => false
  end.

(** Thrown exceptions. *)
Inductive JsError : Type :=
  | TypeError
  | ZodError.

Inductive Result (A : Type) : Type :=
  | Ok (a : A)
  | Throw (e : JsError).
Arguments Ok {A} a.
Arguments Throw {A} e.

Global Instance Result_ret : MRet Result := fun A a => Ok a.

Global Instance Result_bind : MBind Result := fun A B k m =>
  match m with
  | Ok a => k a
  | Throw e => Throw e
  end.

Global Instance Result_fmap : FMap Result := fun A B f m =>
  match m with
  | Ok a => Ok (f a)
  | Throw e => Throw e
  end.

(** A [for] loop whose body may throw: the exception ends the loop. *)
Fixpoint foldM {S A : Type} (f : S -> A -> Result S) (l : list A) (s : S)
  : Result S :=
  match l with
  | [] => Ok s
  | x :: rest => s' ← f s x; foldM f rest s'
  end.

(** ** Diff entries (microdiff's [Difference]) *)

(** A path segment is a string key or an array index.  [Missing] is the
    [undefined] obtained by destructuring a path that is too short; the
    combiner copies such a segment into the prefix of its nested call. *)
Inductive PathSeg : Type :=
  | Key (s : string)
  | Index (n : nat)
  | Missing.

Global Instance PathSeg_eq_dec : EqDecision PathSeg.
Proof. solve_decision. Defined.

Inductive DiffType : Type := CREATE | REMOVE | CHANGE.

Global Instance DiffType_eq_dec : EqDecision DiffType.
Proof. solve_decision. Defined.

(** A field the entry does not have reads as [undefined]. *)
Record Difference : Type := mkDiff {
  type : DiffType;
  path : list PathSeg;
  value : Value;
  oldValue : Value;
}.

Definition setPath (d : Difference) (p : list PathSeg) : Difference :=
  {| type := type d; path := p; value := value d; oldValue := oldValue d |}.

(** [const [, a, b] = path]: a segment that is not there is [undefined]. *)
Definition segAt (p : list PathSeg) (i : nat) : PathSeg :=
  default Missing (p !! i).

(** The segment as the value stored in an entry's [value] or [oldValue]. *)
Definition segValue (s : PathSeg) : Value :=
  match s with
  | Key k => VString k
  | Index n => VNumber (Z.of_nat n)
  | Missing => VUndefined
  end.

Definition segTruthy (s : PathSeg) : bool := truthy (segValue s).

(** [typeof s === 'number'] *)
Definition isNumber (s : PathSeg) : bool :=
  match s with
  | Index _ => true
  | _ => false
  end.

(** [typeof path.at(-1) !== 'number'] *)
Definition lastNotNumber (p : list PathSeg) : bool :=
  match last p with
  | Some s => negb (isNumber s)
  | None => true
  end.

(** ** combineRenameDiffs *)

(** What [combined.push] receives: the entry object at an index of the input
    array, pushed by reference, or an object created during the call. *)
Inductive Out : Type :=
  | ORef (i : nat)
  | ONew (d : Difference).

(** The variables of the loop.  [arr] is the input array: its entries are
    objects whose [path] the loop overwrites when a prefix is given. *)
Record LoopState : Type := mkLoop {
  arr : list Difference;
  combined : list Out;
  skipNext : bool;
}.

Definition push (st : LoopState) (o : list Out) (skip : bool) : LoopState :=
  {| arr := arr st; combined := combined st ++ o; skipNext := skip |}.

Definition prefixPath (pathPrefix : list PathSeg) (d : Difference) : Difference :=
  setPath d (pathPrefix ++ path d).

Section Combine.

(** The generic structural diff of the [microdiff] package.  It is declared
    on two objects or arrays, and the combiner calls it on whatever the two
    entries carry: on other values it may throw. *)
Variable microdiff : Value -> Value -> Result (list Difference).

(** The recursive call [combineRenameDiffs(innerDiff, nestedPrefix)]. *)
Variable self : list Difference -> list PathSeg -> Result (list Difference).

(** The rename branch.  The two CHANGE entries are pushed before the bodies
    are diffed; when the diff throws, the call throws and [combined] is
    lost with it. *)
Definition renamePair (pathPrefix : list PathSeg) (current next : Difference)
  : Result (list Out) :=
  let currPath := segAt (path current) 1 in
  let currMethod := segAt (path current) 2 in
  let nextPath := segAt (path next) 1 in
  let nextMethod := segAt (path next) 2 in
  let methodRenamed :=
    segTruthy currMethod && segTruthy nextMethod
    && negb (bool_decide (currMethod = nextMethod)) in
  let nestedPrefix :=
    [Key "paths"; nextPath] ++ (if methodRenamed then [nextMethod] else []) in
  let renames :=
    (if bool_decide (currPath = nextPath) then []
     else [ONew {| type := CHANGE; path := [Key "paths"; Key "path"];
                   value := segValue nextPath;
                   oldValue := segValue currPath |}])
    ++ (if methodRenamed
        then [ONew {| type := CHANGE;
                      path := [Key "paths"; nextPath; Key "method"];
                      value := segValue nextMethod;
                      oldValue := segValue currMethod |}]
        else []) in
  match pathPrefix with
  | [] =>
      innerDiff ← microdiff (oldValue current) (value next);
      match innerDiff with
      | [] => Ok renames
      | _ :: _ =>
          innerCombined ← self innerDiff nestedPrefix;
          Ok (renames ++ (ONew <$> innerCombined))
      end
  | _ :: _ => Ok renames
  end.

(** What the three branches that follow the rename branch push: a CHANGE
    copy of a deep CREATE or REMOVE whose last segment is not an index, or
    the entry itself. *)
Definition simplified (i : nat) (current : Difference) : Out :=
  if bool_decide (type current = CREATE)
     && (3 <? length (path current))%nat && lastNotNumber (path current)
  then ONew {| type := CHANGE; path := path current;
               value := value current; oldValue := VUndefined |}
  else if bool_decide (type current = REMOVE)
          && (3 <? length (path current))%nat
          && lastNotNumber (path current)
  then ONew {| type := CHANGE; path := path current;
               value := VUndefined; oldValue := oldValue current |}
  else ORef i.

Definition simplify (i : nat) (current : Difference) (st : LoopState)
  : LoopState :=
  push st [simplified i current] false.

(** [next?.type === 'CREATE'] *)
Definition nextIsCreate (next : option Difference) : bool :=
  match next with
  | Some n => bool_decide (type n = CREATE)
  | None => false
  end.

(** The part of an iteration that follows the prefixing. *)
Definition classify (pathPrefix : list PathSeg) (i : nat)
    (current : Difference) (next : option Difference) (st : LoopState)
  : Result LoopState :=
  match next with
  | Some n =>
      if bool_decide (type current = REMOVE) && nextIsCreate next
      then pushed ← renamePair pathPrefix current n; Ok (push st pushed true)
      else Ok (simplify i current st)
  | None => Ok (simplify i current st)
  end.

(** One iteration of [for (let i = 0; i < diff.length; i++)]. *)
Definition step (pathPrefix : list PathSeg) (st : LoopState) (i : nat)
  : Result LoopState :=
  if skipNext st then Ok (mkLoop (arr st) (combined st) false)
  else
    match pathPrefix with
    | _ :: _ =>
        let a1 := alter (prefixPath pathPrefix) i (arr st) in
        let a2 := alter (prefixPath pathPrefix) (i + 1) a1 in
        match a2 !! i with
        | Some current =>
            classify pathPrefix i current (a2 !! (i + 1))
                     (mkLoop a2 (combined st) false)
        | None => Ok st
        end
    | [] =>
        match arr st !! i with
        | Some current =>
            if bool_decide (segAt (path current) 0 = Key "paths")
            then classify pathPrefix i current (arr st !! (i + 1)) st
            else Ok (push st [ORef i] false)
        | None => Ok st
        end
    end.

(** The loop, run for the indices [idx] from the state [st]. *)
Definition runLoop (pathPrefix : list PathSeg) (idx : list nat)
    (st : LoopState) : Result LoopState :=
  foldM (step pathPrefix) idx st.

Definition combineLoop (diff : list Difference) (pathPrefix : list PathSeg)
  : Result LoopState :=
  runLoop pathPrefix (seq 0 (length diff)) (mkLoop diff [] false).

End Combine.

(** The entries behind [combined] when the call returns. *)
Definition resolve (a : list Difference) (o : Out) : option Difference :=
  match o with
  | ORef i => a !! i
  | ONew d => Some d
  end.

Definition returned (st : LoopState) : list Difference :=
  omap (resolve (arr st)) (combined st).

(** The function calls itself only from a call with an empty prefix, and then
    with a prefix that starts with ['paths']: the nested call never recurses.
    [combineRenameDiffs_unfold] below shows that the two definitions solve the
    recursive equation of the source. *)
Definition combineNested
    (microdiff : Value -> Value -> Result (list Difference))
    (diff : list Difference) (pathPrefix : list PathSeg)
  : Result (list Difference) :=
  returned <$> combineLoop microdiff (fun _ _ => Ok []) diff pathPrefix.

Definition combineRenameDiffs_state
    (microdiff : Value -> Value -> Result (list Difference))
    (diff : list Difference) (pathPrefix : list PathSeg) : Result LoopState :=
  combineLoop microdiff (combineNested microdiff) diff pathPrefix.

Definition combineRenameDiffs
    (microdiff : Value -> Value -> Result (list Difference))
    (diff : list Difference) (pathPrefix : list PathSeg)
  : Result (list Difference) :=
  returned <$> combineRenameDiffs_state microdiff diff pathPrefix.

(** ** JavaScript operations on values *)

(** [obj[key]] on the property list of an object. *)
Fixpoint assoc {A : Type} (k : string) (fs : list (string * A)) : option A :=
  match fs with
  | [] => None
  | (k', v) :: fs' => if bool_decide (k' = k) then Some v else assoc k fs'
  end.

(** The own enumerable properties of a value, as [Object.entries], a spread
    into an object literal and a rest pattern enumerate them.  ([length] and
    inherited members are not own enumerable properties.) *)
Definition charValues (s : string) : list Value :=
  (fun c => VString (String c EmptyString)) <$> String.list_ascii_of_string s.

Definition ownProps (v : Value) : list (string * Value) :=
  match v with
  | VObject fields => fields
  | VArray items => imap (fun i x => (pretty i, x)) items
  | VString s => imap (fun i x => (pretty i, x)) (charValues s)
  | _ => []
  end.

(** [Object.entries(v)] and [Object.keys(v)] throw on [null] and
    [undefined]. *)
Definition objectEntries (v : Value) : Result (list (string * Value)) :=
  match v with
  | VUndefined | VNull => Throw TypeError
  | _ => Ok (ownProps v)
  end.

(** [v.k] for a key other than [length]. *)
Definition getProp (v : Value) (k : string) : Result Value :=
  match v with
  | VUndefined | VNull => Throw TypeError
  | _ => Ok (default VUndefined (assoc k (ownProps v)))
  end.

(** [v?.length] *)
Definition optLength (v : Value) : Value :=
  match v with
  | VArray items => VNumber (Z.of_nat (length items))
  | VString s => VNumber (Z.of_nat (String.length s))
  | VObject fields => default VUndefined (assoc "length" fields)
  | _ => VUndefined
  end.

(** [a ?? b] *)
Definition nullish (a b : Value) : Value :=
  match a with
  | VUndefined | VNull => b
  | _ => a
  end.

(** [[...v]] *)
Definition spread (v : Value) : Result (list Value) :=
  match v with
  | VArray items => Ok items
  | VString s => Ok (charValues s)
  | _ => Throw TypeError
  end.

(** [obj[k] = v]: an existing key keeps its place, a new one is appended
    (what is proved of the result is what its keys hold, not their
    order). *)
Fixpoint setProp (k : string) (v : Value) (fields : list (string * Value))
  : list (string * Value) :=
  match fields with
  | [] => [(k, v)]
  | (k', v') :: rest =>
      if bool_decide (k' = k) then (k, v) :: rest
      else (k', v') :: setProp k v rest
  end.

(** [delete obj[k]] *)
Definition deleteProp (k : string) (fields : list (string * Value))
  : list (string * Value) :=
  filter (fun kv => kv.1 <> k) fields.

Fixpoint mapM {A B : Type} (f : A -> Result B) (l : list A) : Result (list B) :=
  match l with
  | [] => Ok []
  | x :: rest => y ← f x; ys ← mapM f rest; Ok (y :: ys)
  end.

(** [arr.filter(f)] for a predicate that may throw. *)
Fixpoint filterM {A : Type} (f : A -> Result bool) (l : list A)
  : Result (list A) :=
  match l with
  | [] => Ok []
  | x :: rest =>
      b ← f x; ys ← filterM f rest; Ok (if b : bool then x :: ys else ys)
  end.

(** The index below [n] that the property key [k] is the decimal string
    of. *)
Definition indexOfKey (k : string) (n : nat) : option nat :=
  find (fun i => bool_decide (pretty i = k)) (seq 0 n).

(** [k in v] on the own properties of an object and on the indices and the
    [length] of an array.  The operator throws on a value that is not an
    object, a string included. *)
Definition hasProperty (v : Value) (k : string) : Result bool :=
  match v with
  | VObject fields => Ok (bool_decide (is_Some (assoc k fields)))
  | VArray items =>
      Ok (bool_decide (is_Some (indexOfKey k (length items)))
          || bool_decide (k = "length"))
  | _ => Throw TypeError
  end.

(** [v[k]] on an own property, an index or [length].  A read on [null] or
    [undefined] throws. *)
Definition readProperty (v : Value) (k : string) : Result Value :=
  match v with
  | VUndefined | VNull => Throw TypeError
  | VObject fields => Ok (default VUndefined (assoc k fields))
  | VArray items =>
      match indexOfKey k (length items) with
      | Some i => Ok (default VUndefined (items !! i))
      | None =>
          Ok (if bool_decide (k = "length")
              then VNumber (Z.of_nat (length items)) else VUndefined)
      end
  | VString s =>
      match indexOfKey k (String.length s) with
      | Some i => Ok (default VUndefined (charValues s !! i))
      | None =>
          Ok (if bool_decide (k = "length")
              then VNumber (Z.of_nat (String.length s)) else VUndefined)
      end
  | VBool _ | VNumber _ => Ok VUndefined
  end.

(** [s.split('.')] *)
Fixpoint splitDots (s : string) : list string :=
  match s with
  | EmptyString => [""]
  | String c rest =>
      match splitDots rest with
      | [] => [String c ""]
      | w :: ws =>
          if Ascii.eqb c "."%char then "" :: w :: ws else String c w :: ws
      end
  end.

(** ** A reference structural diff *)

Definition unshift (s : PathSeg) (d : Difference) : Difference :=
  setPath d (s :: path d).

(** Two objects, or two arrays: microdiff descends into them. *)
Definition sameContainer (v w : Value) : bool :=
  match v, w with
  | VObject _, VObject _ => true
  | VArray _, VArray _ => true
  | _, _ => false
  end.

(** The keys a [for (const key in v)] loop visits, each with the path
    segment microdiff records for it (a number for the index of an array)
    and with [v[key]]. *)
Definition forIn (v : Value) : list (PathSeg * string * Value) :=
  match v with
  | VArray items => imap (fun i x => (Index i, pretty i, x)) items
  | _ => (fun kx : string * Value => (Key kx.1, kx.1, kx.2)) <$> ownProps v
  end.

(** One iteration of the first loop of microdiff, on a key of the old value
    and its value [v]; [inner] is the diff of [v] with the new value of the
    key. *)
Definition diffKey (seg : PathSeg) (k : string) (v newObj : Value)
    (inner : Result (list Difference)) : Result (list Difference) :=
  present ← hasProperty newObj k;
  if present : bool
  then
    w ← readProperty newObj k;
    if sameContainer v w
    then ds ← inner; Ok (unshift seg <$> (ds : list Difference))
    else if strictEq v w then Ok []
    else Ok [{| type := CHANGE; path := [seg]; value := w; oldValue := v |}]
  else Ok [{| type := REMOVE; path := [seg]; value := VUndefined;
              oldValue := v |}].

(** One iteration of the second loop, on a key of the new value. *)
Definition createdKey (obj : Value) (e : PathSeg * string * Value)
  : Result (list Difference) :=
  present ← hasProperty obj e.1.2;
  Ok (if present : bool then []
      else [{| type := CREATE; path := [e.1.1]; value := e.2;
               oldValue := VUndefined |}]).

Fixpoint concatMapM {A B : Type} (f : A -> Result (list B)) (l : list A)
  : Result (list B) :=
  match l with
  | [] => Ok []
  | x :: rest => here ← f x; after ← concatMapM f rest; Ok (here ++ after)
  end.

(** Modelled from the spec: the generic structural diff function
    [diff(oldValue, newValue) -> ordered list of Diff Entry] is the external
    [microdiff] package.  This is its algorithm on JSON values whose keys
    are not names of members of [Object.prototype]: a first loop over the
    keys of the old value (the indices of an array or of a string, nothing
    for another primitive) yields the removals, the changes and the nested
    diffs, a second loop over the keys of the new value yields the
    additions; the [in] operator of either loop throws a TypeError when the
    other value is not an object.  Everything proved about the combiner is
    proved for an arbitrary diff function; this one instantiates the
    examples. *)
Fixpoint microdiffRef (obj newObj : Value) {struct obj}
  : Result (list Difference) :=
  first ←
    match obj with
    | VObject fs =>
        (fix old (fs : list (string * Value)) : Result (list Difference) :=
           match fs with
           | [] => Ok []
           | (k, v) :: fs' =>
               here ← diffKey (Key k) k v newObj
                        (w ← readProperty newObj k; microdiffRef v w);
               after ← old fs';
               Ok (here ++ after)
           end) fs
    | VArray vs =>
        (fix old (i : nat) (vs : list Value) : Result (list Difference) :=
           match vs with
           | [] => Ok []
           | v :: vs' =>
               here ← diffKey (Index i) (pretty i) v newObj
                        (w ← readProperty newObj (pretty i); microdiffRef v w);
               after ← old (S i) vs';
               Ok (here ++ after)
           end) 0%nat vs
    | _ =>
        concatMapM (fun e : PathSeg * string * Value =>
                      diffKey e.1.1 e.1.2 e.2 newObj (Ok []))
                   (forIn obj)
    end;
  created ← concatMapM (createdKey obj) (forIn newObj);
  Ok (first ++ created).


(** ** findResource *)

(** [resources[uid]] is [undefined] for a uid that is not a key of the table,
    and [condition] is called on it all the same: the predicate is a function
    of [T | undefined] that may throw.  [None] in the result stands for
    [null] and for [undefined], which no caller distinguishes. *)
Fixpoint findResource {T : Type} (arr : list string) (resources : gmap string T)
    (condition : option T -> Result bool) : Result (option T) :=
  match arr with
  | [] => Ok None
  | uid :: rest =>
      let resource := resources !! uid in
      b ← condition resource;
      if b : bool then Ok resource else findResource rest resources condition
  end.

(** ** Zod schemas *)

(** The members every plain object inherits from [Object.prototype]: for
    these keys [key in shape] holds although the shape has no such field. *)
Definition objectPrototype : list string :=
  ["constructor"; "hasOwnProperty"; "isPrototypeOf"; "propertyIsEnumerable";
   "toLocaleString"; "toString"; "valueOf"; "__proto__";
   "__defineGetter__"; "__defineSetter__"; "__lookupGetter__";
   "__lookupSetter__"].

(** What the variable [currentSchema] can hold: a schema of one of the
    classes the code tests with [instanceof] or a primitive schema, or, after
    the read of an inherited key of a shape, a member of [Object.prototype],
    which is truthy, is an instance of no schema class and has no
    [safeParse].  [shape] lists the own keys of an object schema. *)
Inductive ZodSchema : Type :=
  | ZodAny
  | ZodString
  | ZodNumber
  | ZodBoolean
  | ZodLiteral (v : Value)
  | ZodObject (shape : list (string * ZodSchema))
  | ZodArray (element : ZodSchema)
  | ZodRecord (valueSchema : ZodSchema)
  | ZodUnion (options : list ZodSchema)
  | ZodDiscriminatedUnion (discriminator : string) (options : list ZodSchema)
  | ZodOptional (inner : ZodSchema)
  | ZodDefault (innerType : ZodSchema) (defaultValue : Value)
  | Inherited (member : string).

(** [key in shape] *)
Definition inShape (k : string) (shape : list (string * ZodSchema)) : bool :=
  bool_decide (is_Some (assoc k shape)) || bool_decide (k ∈ objectPrototype).

(** [shape[key]] for a key that is in the shape. *)
Definition shapeAt (k : string) (shape : list (string * ZodSchema))
  : ZodSchema :=
  default (Inherited k) (assoc k shape).

(** [key in shape] and then [shape[key]]. *)
Definition shapeMember (k : string) (shape : list (string * ZodSchema))
  : option ZodSchema :=
  if inShape k shape then Some (shapeAt k shape) else None.

(** Helper function to unwrap optional and default schemas *)
Fixpoint unwrapSchema (schema : ZodSchema) : ZodSchema :=
  match schema with
  | ZodOptional inner => unwrapSchema inner
  | ZodDefault innerType _ => unwrapSchema innerType
  | _ => schema
  end.

(** [schema instanceof z.ZodOptional || schema instanceof z.ZodDefault] *)
Definition isWrapper (schema : ZodSchema) : bool :=
  match schema with
  | ZodOptional _ | ZodDefault _ _ => true
  | _ => false
  end.

(** The if-else chain in the body of the loop of [traverseZodSchema], after
    the [ZodAny] test: the schema one segment further, or [None] where the
    source returns [null].  The three tests are on different classes, so an
    object schema that lacks the key reaches the final [else]. *)
Definition descend (currentSchema : ZodSchema) (key : PathSeg)
  : option ZodSchema :=
  match currentSchema with
  | ZodObject shape =>
      match key with
      | Key k => shapeMember k shape
      | _ => None
      end
  | ZodArray element =>
      match key with
      | Index _ => Some element
      | Key k =>
          match element with
          | ZodObject shape => shapeMember k shape
          | _ => None
          end
      | Missing => None
      end
  | ZodRecord valueSchema => Some valueSchema
  | _ => None
  end.

Fixpoint traverseZodSchema (schema : ZodSchema) (path : list PathSeg)
  : option ZodSchema :=
  match path with
  | [] => Some schema
  | key :: rest =>
      let currentSchema := unwrapSchema schema in
      match currentSchema with
      | ZodAny => Some currentSchema
      | _ =>
          match descend currentSchema key with
          | Some s => traverseZodSchema (unwrapSchema s) rest
          | None => None
          end
      end
  end.

(** The test of one option in the loop of [narrowUnionSchema]. *)
Definition optionMatches (key : string) (v : Value) (opt : ZodSchema)
  : bool :=
  match opt with
  | ZodObject shape =>
      match shapeMember key shape with
      | Some (ZodLiteral l) => strictEq l v
      | _ => false
      end
  | _ => false
  end.

Fixpoint narrowOptions (options : list ZodSchema) (key : string) (v : Value)
  : option ZodSchema :=
  match options with
  | [] => None
  | opt :: rest =>
      if optionMatches key v opt then Some opt
      else narrowOptions rest key v
  end.

(** Narrows down a zod union schema *)
Definition narrowUnionSchema (schema : ZodSchema) (key : string) (v : Value)
  : option ZodSchema :=
  match unwrapSchema schema with
  | ZodUnion options => narrowOptions options key v
  | ZodDiscriminatedUnion _ options => narrowOptions options key v
  | _ => None
  end.

(** ** Entities and mutation payloads *)

Record Collection : Type := mkCollection {
  collection_uid : string;
  collection_requests : list string;
  collection_servers : list string;
  collection_tags : list string;
  collection_securitySchemes : list string;
  collection_security : list Value;
}.

Record Request : Type := mkRequest {
  request_uid : string;
  request_path : string;
  request_method : string;
  request_tags : list Value;
}.

Record Server : Type := mkServer { server_uid : string }.

Record Tag : Type := mkTag { tag_uid : string; tag_name : string }.

Record Flow : Type := mkFlow {
  flow_type : string;
  flow_scopes : list (string * Value);
}.

Record SecurityScheme : Type := mkScheme {
  scheme_uid : string;
  scheme_nameKey : string;
  scheme_type : string;
  scheme_flow : option Flow;
}.

(** [{ method, args }].  [U] is what an [edit] is given as the uid, [E] what
    a [delete] is given: the entity or its uid. *)
Inductive Payload (U E : Type) : Type :=
  | PAdd (entity : Value) (collectionUid : string)
  | PEdit (uid : U) (path : string) (v : Value)
  | PDelete (target : E) (collectionUid : option string).
Arguments PAdd {U E} entity collectionUid.
Arguments PEdit {U E} uid path v.
Arguments PDelete {U E} target collectionUid.

(** What [uids[key]] evaluates to on an array of uids: an element, nothing,
    the length, or a member the array inherits from its prototype chain. *)
Inductive Member : Type :=
  | MUid (uid : string)
  | MUndefined
  | MLength (n : nat)
  | MNative (name : string).

(** [!!m] *)
Definition memberTruthy (m : Member) : bool :=
  match m with
  | MUid uid => negb (bool_decide (uid = ""))
  | MUndefined => false
  | MLength n => negb (bool_decide (n = 0))
  | MNative _ => true
  end.

(** The schema is a Zod schema, not a member of [Object.prototype]. *)
Definition isSchema (schema : ZodSchema) : bool :=
  match schema with
  | Inherited _ => false
  | _ => true
  end.

(** ** What the file imports *)

(** The schemas of [@scalar/oas-utils/entities/spec], Zod's validation, and
    the helpers of the repository that are used here and defined elsewhere. *)
Class Externals : Type := {
  (** Zod's validation of a value against a schema: the parsed data, or
      [None] on failure. *)
  zodValidate : ZodSchema -> Value -> option Value;
  collectionSchema : ZodSchema;
  requestSchema : ZodSchema;
  serverSchema : ZodSchema;
  tagSchema : ZodSchema;
  securitySchemeSchema : ZodSchema;
  oasOauthFlowSchema : ZodSchema;
  (** What is imported under these six names are schemas. *)
  imports_are_schemas :
    Forall (fun schema => isSchema schema = true)
           [collectionSchema; requestSchema; serverSchema; tagSchema;
            securitySchemeSchema; oasOauthFlowSchema];
  (** [isHTTPMethod] of [@/components/HttpMethod/helpers]. *)
  isHTTPMethod : Value -> bool;
  (** [getNestedValue] of [@scalar/object-utils/nested], on a collection and
      on a request: it reads the keys of the dotted path one after the
      other, and throws when it has to read a key of [undefined]. *)
  getNestedValueC : Collection -> string -> Result Value;
  getNestedValueR : Request -> string -> Result Value;
  (** [k in Array.prototype], for a key that is neither an index nor
      [length]: the members an array inherits depend on the library of the
      host. *)
  arrayInherits : string -> bool;
  (** [String(Array.prototype[k])]: the property key an inherited member
      denotes. *)
  nativeKey : string -> string;
}.

(** [String(key)] for a path segment, as [join] and property access see it. *)
Definition segString (s : PathSeg) : string :=
  match s with
  | Key k => k
  | Index n => pretty n
  | Missing => ""
  end.

(** [path.join('.')] *)
Definition joinPath (p : list PathSeg) : string :=
  String.concat "." (segString <$> p).

(** [obj[key]] with a segment as the key. *)
Definition propertyKey (s : PathSeg) : string :=
  match s with
  | Missing => "undefined"
  | _ => segString s
  end.

Record ParsedDiff : Type := mkParsed {
  pd_path : string;
  pd_pathMinusOne : string;
  pd_value : Value;
}.

Section Parse.
Context `{Externals}.

(** [schema.safeParse(data)], the non-throwing validation: the parsed
    data, or [None] on failure.  It is a method of the schemas; a member of
    [Object.prototype] has no such method, and the call throws a
    TypeError. *)
Definition safeParse (schema : ZodSchema) (data : Value)
  : Result (option Value) :=
  match schema with
  | Inherited _ => Throw TypeError
  | _ => Ok (zodValidate schema data)
  end.

(** Modelled from the spec: [schemaModel(data, schema, false)] of
    [@scalar/oas-utils/helpers], the non-throwing "parse value against
    shape" primitive.  It calls [schema.safeParse(data)] and returns the
    parsed value, or a falsy value when the validation fails. *)
Definition schemaModel (data : Value) (schema : ZodSchema) : Result Value :=
  parsed ← safeParse schema data;
  Ok (match parsed with
      | Some v => v
      | None => VNull
      end).

(** [schema.parse(data)], which throws a ZodError on failure. *)
Definition zodParse (schema : ZodSchema) (data : Value) : Result Value :=
  parsed ← safeParse schema data;
  match parsed with
  | Some v => Ok v
  | None => Throw ZodError
  end.

Definition parseDiff (schema : ZodSchema) (diff : Difference)
  : Result (option ParsedDiff) :=
  match traverseZodSchema schema (path diff) with
  | None => Ok None
  | Some parsedSchema =>
      let path' := joinPath (path diff) in
      let pathMinusOne := joinPath (removelast (path diff)) in
      if bool_decide (type diff = REMOVE)
      then Ok (Some (mkParsed path' pathMinusOne VUndefined))
      else
        parsedValue ← schemaModel (value diff) parsedSchema;
        if truthy parsedValue
        then Ok (Some (mkParsed path' pathMinusOne parsedValue))
        else Ok None
  end.

End Parse.
(** ** The payload builders *)

(** [r.path === seg]: a string equals a segment that is that string. *)
Definition stringIs (s : string) (seg : PathSeg) : bool :=
  bool_decide (seg = Key s).

(** [typeof p.at(-1) === 'number'] *)
Definition lastIsNumber (p : list PathSeg) : bool :=
  match last p with
  | Some s => isNumber s
  | None => false
  end.

Definition isCreateOrRemove (t : DiffType) : bool :=
  match t with
  | CREATE | REMOVE => true
  | CHANGE => false
  end.

(** The push or pop on the copy of the old array. *)
Definition pushOrPop (t : DiffType) (oldValue : list Value) (v : Value)
  : list Value :=
  match t with
  | CREATE => oldValue ++ [v]
  | REMOVE => removelast oldValue
  | CHANGE => oldValue
  end.

Section Builders.
Context `{Externals}.

(** [uids[seg]] on an array of uids: the element at an index or at the
    decimal string of one, the length, an inherited member, or
    [undefined]. *)
Definition arrayAt (uids : list string) (seg : PathSeg) : Member :=
  match seg with
  | Index n => from_option MUid MUndefined (uids !! n)
  | Key k =>
      match indexOfKey k (length uids) with
      | Some i => from_option MUid MUndefined (uids !! i)
      | None =>
          if bool_decide (k = "length") then MLength (length uids)
          else if arrayInherits k then MNative k
          else MUndefined
      end
  | Missing => MUndefined
  end.

(** The property key a member denotes in [table[member]]. *)
Definition memberKey (m : Member) : string :=
  match m with
  | MUid uid => uid
  | MUndefined => "undefined"
  | MLength n => pretty n
  | MNative name => nativeKey name
  end.

(** Generates a payload for the collection mutator from the basic
    info/security diffs *)
Definition diffToCollectionPayload (diff : Difference)
    (collection : Collection) : Result (option (string * string * Value)) :=
  if lastIsNumber (path diff) && isCreateOrRemove (type diff)
  then
    parsed ← parseDiff collectionSchema diff;
    match parsed with
    | None => Ok None
    | Some parsed =>
        nested ← getNestedValueC collection (pd_pathMinusOne parsed);
        oldValue ← spread nested;
        Ok (Some (collection_uid collection, pd_pathMinusOne parsed,
                  VArray (pushOrPop (type diff) oldValue (pd_value parsed))))
    end
  else
    parsed ← parseDiff collectionSchema diff;
    match parsed with
    | None => Ok None
    | Some parsed =>
        Ok (Some (collection_uid collection, pd_path parsed, pd_value parsed))
    end.

(** [(r) => r.path === path && r.method === method] *)
Definition samePathAndMethod (path' method : PathSeg) (r : option Request)
  : Result bool :=
  match r with
  | None => Throw TypeError
  | Some r =>
      Ok (stringIs (request_path r) path'
          && stringIs (request_method r) method)
  end.

(** One entry of an operation's [security], reduced to its first key. *)
Definition securityEntry (s : Value) : Result Value :=
  keys ← objectEntries s;
  match keys with
  | (key, v) :: _ => Ok (VObject [(key, v)])
  | [] => Ok s
  end.

(** The [CREATE] branch: a new operation. *)
Definition createRequest (diff : Difference) (collection : Collection)
    (path' method : PathSeg) : Result (list (Payload string Request)) :=
  entries ← objectEntries (value diff);
  match entries with
  | [] => Throw TypeError
  | (_method, _operation) :: _ =>
      let operation := if segTruthy method then value diff else _operation in
      let newMethod :=
        if segTruthy method then segValue method else VString _method in
      operationServersRaw ← getProp operation "servers";
      operationServers ←
        zodParse (ZodArray serverSchema)
                 (nullish operationServersRaw (VArray []));
      let operationSecurity :=
        default VUndefined (assoc "security" (ownProps operation)) in
      let operationWithoutSecurity := deleteProp "security" (ownProps operation) in
      let parameters :=
        nullish (default VUndefined (assoc "parameters" (ownProps operation)))
                (VArray []) in
      serverUids ←
        match operationServers with
        | VArray items => mapM (fun s => getProp s "uid") items
        | _ => Throw TypeError
        end;
      let requestPayload :=
        setProp "servers" (VArray serverUids)
          (setProp "parameters" parameters
            (setProp "path" (segValue path')
              (setProp "method"
                 (if isHTTPMethod newMethod then newMethod else VString "get")
                 operationWithoutSecurity))) in
      requestPayload' ←
        (if truthy (optLength operationSecurity)
         then
           match operationSecurity with
           | VArray items =>
               security ← mapM securityEntry items;
               Ok (setProp "security" (VArray security) requestPayload)
           | _ => Throw TypeError
           end
         else Ok requestPayload);
      request ← schemaModel (VObject requestPayload') requestSchema;
      if truthy request
      then Ok [PAdd request (collection_uid collection)]
      else Ok []
  end.

(** Generates an array of payloads for the request mutator from the request
    diff *)
Definition diffToRequestPayload (diff : Difference) (collection : Collection)
    (requests : gmap string Request)
  : Result (list (Payload string Request)) :=
  let path' := segAt (path diff) 1 in
  let method := segAt (path diff) 2 in
  let keys := drop 3 (path diff) in
  if bool_decide (path' = Key "path") && bool_decide (type diff = CHANGE)
  then
    uids ← filterM (fun uid =>
              match requests !! uid with
              | None => Throw TypeError
              | Some r => Ok (strictEq (VString (request_path r)) (oldValue diff))
              end) (collection_requests collection);
    Ok (map (fun uid => PEdit uid "path" (value diff)) uids)
  else if bool_decide (method = Key "method") && bool_decide (type diff = CHANGE)
  then
    uids ← filterM (fun uid =>
              match requests !! uid with
              | None => Throw TypeError
              | Some r =>
                  Ok (strictEq (VString (request_method r)) (oldValue diff)
                      && stringIs (request_path r) path')
              end) (collection_requests collection);
    Ok (map (fun uid => PEdit uid "method" (value diff)) uids)
  else if negb (bool_decide (type diff = CHANGE)) && lastIsNumber keys
  then
    request ← findResource (collection_requests collection) requests
                (samePathAndMethod path' method);
    parsed ← parseDiff requestSchema (setPath diff (drop 3 (path diff)));
    match request, parsed with
    | Some request, Some parsed =>
        nested ← getNestedValueR request (pd_pathMinusOne parsed);
        oldValue ← spread nested;
        Ok [PEdit (request_uid request) (pd_pathMinusOne parsed)
              (VArray (pushOrPop (type diff) oldValue (pd_value parsed)))]
    | _, _ => Ok []
    end
  else
    match type diff with
    | CREATE => createRequest diff collection path' method
    | REMOVE =>
        request ← findResource (collection_requests collection) requests
                    (samePathAndMethod path' method);
        match request with
        | Some request =>
            Ok [PDelete request (Some (collection_uid collection))]
        | None => Ok []
        end
    | CHANGE =>
        request ← findResource (collection_requests collection) requests
                    (samePathAndMethod path' method);
        parsed ← parseDiff requestSchema (setPath diff keys);
        match request, parsed with
        | Some request, Some parsed =>
            Ok [PEdit (request_uid request) (pd_path parsed) (pd_value parsed)]
        | _, _ => Ok []
        end
    end.

(** Generates a payload for the server mutator from the server diff
    including the mutator method *)
Definition diffToServerPayload (diff : Difference) (collection : Collection)
    (servers : gmap string Server) : Result (option (Payload Member Member)) :=
  let index := segAt (path diff) 1 in
  let keys := drop 2 (path diff) in
  match keys with
  | _ :: _ =>
      let serverUid := arrayAt (collection_servers collection) index in
      let server := servers !! memberKey serverUid in
      parsed ← parseDiff serverSchema (setPath diff keys);
      match server, parsed with
      | Some _, Some parsed =>
          let removeVariables :=
            bool_decide (type diff = REMOVE)
            && bool_decide (last keys = Some (Key "variables")) in
          let value' := if removeVariables then VObject [] else pd_value parsed in
          Ok (Some (PEdit serverUid (pd_path parsed) value'))
      | _, _ => Ok None
      end
  | [] =>
      let serverUid := arrayAt (collection_servers collection) index in
      if bool_decide (type diff = REMOVE) && memberTruthy serverUid
      then Ok (Some (PDelete serverUid (Some (collection_uid collection))))
      else if bool_decide (type diff = CREATE)
      then
        server ← schemaModel (value diff) serverSchema;
        if truthy server
        then Ok (Some (PAdd server (collection_uid collection)))
        else Ok None
      else Ok None
  end.

(** Generates a payload for the tag mutator from the tag diff *)
Definition diffToTagPayload (diff : Difference) (tags : gmap string Tag)
    (collection : Collection) : Result (option (Payload Member Tag)) :=
  let index := segAt (path diff) 1 in
  let keys := drop 2 (path diff) in
  match keys with
  | _ :: _ =>
      let tagUid := arrayAt (collection_tags collection) index in
      let tag := tags !! memberKey tagUid in
      parsed ← parseDiff tagSchema (setPath diff keys);
      match tag, parsed with
      | Some _, Some parsed =>
          Ok (Some (PEdit tagUid (pd_path parsed) (pd_value parsed)))
      | _, _ => Ok None
      end
  | [] =>
      match type diff with
      | REMOVE =>
          let tagUid := arrayAt (collection_tags collection) index in
          match tags !! memberKey tagUid with
          | Some tag => Ok (Some (PDelete tag (Some (collection_uid collection))))
          | None => Ok None
          end
      | CREATE =>
          parsed ← schemaModel (value diff) tagSchema;
          if truthy parsed
          then Ok (Some (PAdd parsed (collection_uid collection)))
          else Ok None
      | CHANGE => Ok None
      end
  end.

(** [(s) => s.nameKey === schemeName] *)
Definition hasNameKey (schemeName : PathSeg) (s : option SecurityScheme)
  : Result bool :=
  match s with
  | None => Throw TypeError
  | Some s => Ok (stringIs (scheme_nameKey s) schemeName)
  end.

(** The branch of [diffToSecuritySchemePayload] that edits a property of a
    scheme that was found. *)
Definition editScheme (diff : Difference) (keys : list PathSeg)
    (scheme : SecurityScheme) : Result (option (Payload string string)) :=
  let isFlows :=
    bool_decide (segAt keys 0 = Key "flows")
    && bool_decide (scheme_type scheme = "oauth2") in
  let schema :=
    if isFlows
    then narrowUnionSchema oasOauthFlowSchema "type"
           (default VUndefined
              ((fun f => VString (flow_type f)) <$> scheme_flow scheme))
    else narrowUnionSchema securitySchemeSchema "type"
           (VString (scheme_type scheme)) in
  let _path := if isFlows then drop 2 keys else keys in
  if bool_decide (segAt _path 0 = Key "scopes")
     && bool_decide (scheme_type scheme = "oauth2")
  then
    match scheme_flow scheme with
    | None => Throw TypeError
    | Some flow =>
        let scopes := flow_scopes flow in
        let scopes' :=
          match type diff with
          | CREATE | CHANGE =>
              setProp (propertyKey (segAt _path 1)) (value diff) scopes
          | REMOVE => deleteProp (propertyKey (segAt _path 1)) scopes
          end in
        Ok (Some (PEdit (scheme_uid scheme) "flow.scopes" (VObject scopes')))
    end
  else
    match schema with
    | None => Ok None
    | Some schema =>
        parsed ← parseDiff schema (setPath diff _path);
        match parsed with
        | None => Ok None
        | Some parsed =>
            let path' :=
              if bool_decide (segAt keys 0 = Key "flows")
              then joinPath (Key "flow" :: _path)
              else pd_path parsed in
            Ok (Some (PEdit (scheme_uid scheme) path' (pd_value parsed)))
        end
    end.

(** The scheme the entry is about:
    [securitySchemes[schemeName] ?? findResource(...)], the scheme stored
    under the name, or else the first scheme of the collection whose
    [nameKey] is the name. *)
Definition findScheme (collection : Collection)
    (securitySchemes : gmap string SecurityScheme) (schemeName : PathSeg)
  : Result (option SecurityScheme) :=
  match securitySchemes !! propertyKey schemeName with
  | Some s => Ok (Some s)
  | None =>
      findResource (collection_securitySchemes collection) securitySchemes
        (hasNameKey schemeName)
  end.

(** Generates a payload for the security scheme mutator from the security
    scheme diff *)
Definition diffToSecuritySchemePayload (diff : Difference)
    (collection : Collection) (securitySchemes : gmap string SecurityScheme)
  : Result (option (Payload string string)) :=
  let schemeName := segAt (path diff) 2 in
  let keys := drop 3 (path diff) in
  scheme ← findScheme collection securitySchemes schemeName;
  match keys with
  | _ :: _ =>
      match scheme with
      | None => Ok None
      | Some scheme => editScheme diff keys scheme
      end
  | [] =>
      match type diff with
      | REMOVE =>
          match scheme with
          | None => Ok None
          | Some scheme => Ok (Some (PDelete (scheme_uid scheme) None))
          end
      | CREATE =>
          parsed ← zodParse securitySchemeSchema (value diff);
          Ok (Some (PAdd parsed (collection_uid collection)))
      | CHANGE => Ok None
      end
  end.

End Builders.

(** ** A reference validation and reference schemas *)

(** Modelled from the spec: the shape description provider "exposes a
    non-throwing parse value against shape primitive returning
    success-with-value or failure".  The provider is Zod; this is its
    behaviour on the schema classes above: an object schema keeps the keys of
    its shape and drops a key whose parsed value is [undefined], a default
    replaces [undefined] before the inner schema is applied, a union takes
    its first option that parses.  The properties of the parser and of the
    builders are proved for an arbitrary validation; this one instantiates
    them. *)
Fixpoint zodSafeParseRef (schema : ZodSchema) (data : Value) {struct schema}
  : option Value :=
  match schema with
  | ZodAny => Some data
  | ZodString => match data with VString _ => Some data | _ => None end
  | ZodNumber => match data with VNumber _ => Some data | _ => None end
  | ZodBoolean => match data with VBool _ => Some data | _ => None end
  | ZodLiteral l => if strictEq l data then Some data else None
  | ZodObject shape =>
      match data with
      | VObject fields =>
          VObject <$>
          (fix parseFields (shape : list (string * ZodSchema))
             : option (list (string * Value)) :=
             match shape with
             | [] => Some []
             | (k, fieldSchema) :: shape' =>
                 match zodSafeParseRef fieldSchema
                         (default VUndefined (assoc k fields)) with
                 | None => None
                 | Some w =>
                     match parseFields shape' with
                     | None => None
                     | Some rest =>
                         Some (match w with
                               | VUndefined => rest
                               | _ => (k, w) :: rest
                               end)
                     end
                 end
             end) shape
      | _ => None
      end
  | ZodArray element =>
      match data with
      | VArray items =>
          VArray <$>
          (fix parseItems (items : list Value) : option (list Value) :=
             match items with
             | [] => Some []
             | x :: items' =>
                 match zodSafeParseRef element x, parseItems items' with
                 | Some w, Some rest => Some (w :: rest)
                 | _, _ => None
                 end
             end) items
      | _ => None
      end
  | ZodRecord valueSchema =>
      match data with
      | VObject fields =>
          VObject <$>
          (fix parseValues (fields : list (string * Value))
             : option (list (string * Value)) :=
             match fields with
             | [] => Some []
             | (k, x) :: fields' =>
                 match zodSafeParseRef valueSchema x, parseValues fields' with
                 | Some w, Some rest => Some ((k, w) :: rest)
                 | _, _ => None
                 end
             end) fields
      | _ => None
      end
  | ZodUnion options | ZodDiscriminatedUnion _ options =>
      (fix firstOption (options : list ZodSchema) : option Value :=
         match options with
         | [] => None
         | opt :: rest =>
             match zodSafeParseRef opt data with
             | Some w => Some w
             | None => firstOption rest
             end
         end) options
  | ZodOptional inner =>
      match data with
      | VUndefined => Some VUndefined
      | _ => zodSafeParseRef inner data
      end
  | ZodDefault innerType defaultValue =>
      match data with
      | VUndefined => zodSafeParseRef innerType defaultValue
      | _ => zodSafeParseRef innerType data
      end
  | Inherited _ => None
  end.

(** A value has the type a schema describes.  The fields of an object are
    those of the shape, in its order, a field being absent only where the
    field schema admits [undefined]. *)
Fixpoint zodSatisfies (schema : ZodSchema) (v : Value) {struct schema} : Prop :=
  match schema with
  | ZodAny => True
  | ZodString => exists s, v = VString s
  | ZodNumber => exists n, v = VNumber n
  | ZodBoolean => exists b, v = VBool b
  | ZodLiteral l => strictEq l v = true
  | ZodObject shape =>
      exists fields,
        v = VObject fields
        /\ (fix fieldsSat (shape : list (string * ZodSchema))
              (fields : list (string * Value)) : Prop :=
              match shape with
              | [] => fields = []
              | (k, fieldSchema) :: shape' =>
                  (zodSatisfies fieldSchema VUndefined
                   /\ fieldsSat shape' fields)
                  \/ (exists w rest,
                         fields = (k, w) :: rest
                         /\ zodSatisfies fieldSchema w
                         /\ fieldsSat shape' rest)
              end) shape fields
  | ZodArray element =>
      exists items, v = VArray items /\ Forall (zodSatisfies element) items
  | ZodRecord valueSchema =>
      exists fields,
        v = VObject fields
        /\ Forall (fun kv : string * Value => zodSatisfies valueSchema kv.2)
                  fields
  | ZodUnion options | ZodDiscriminatedUnion _ options =>
      (fix anySat (options : list ZodSchema) : Prop :=
         match options with
         | [] => False
         | opt :: rest => zodSatisfies opt v \/ anySat rest
         end) options
  | ZodOptional inner => v = VUndefined \/ zodSatisfies inner v
  | ZodDefault innerType _ => zodSatisfies innerType v
  | Inherited _ => False
  end.

(** ** A reference read access *)

(** [getNestedValue(obj, path)] as [@scalar/object-utils/nested] has it:
    the keys of the dotted path are read one after the other,
    [path.split('.').reduce((acc, key) => acc[key], obj)]. *)
Definition getNestedValueRef (obj : Value) (path : string) : Result Value :=
  foldM readProperty (splitDots path) obj.

(** The entities as the objects the read access sees. *)
Definition collectionValue (c : Collection) : Value :=
  VObject [("uid", VString (collection_uid c));
           ("requests", VArray (VString <$> collection_requests c));
           ("servers", VArray (VString <$> collection_servers c));
           ("tags", VArray (VString <$> collection_tags c));
           ("securitySchemes",
            VArray (VString <$> collection_securitySchemes c));
           ("security", VArray (collection_security c))].

Definition requestValue (r : Request) : Value :=
  VObject [("uid", VString (request_uid r));
           ("path", VString (request_path r));
           ("method", VString (request_method r));
           ("tags", VArray (request_tags r))].

Module Ref.

Definition uid : string * ZodSchema :=
  ("uid", ZodDefault ZodString (VString "generated")).

Definition securityRequirements : ZodSchema :=
  ZodArray (ZodRecord (ZodArray ZodString)).

Definition server : ZodSchema :=
  ZodObject
    [uid; ("url", ZodString); ("description", ZodOptional ZodString);
     ("variables",
      ZodOptional
        (ZodRecord
           (ZodObject [("enum", ZodOptional (ZodArray ZodString));
                       ("default", ZodOptional ZodString);
                       ("description", ZodOptional ZodString)])))].

Definition tag : ZodSchema :=
  ZodObject
    [uid; ("name", ZodString); ("description", ZodOptional ZodString)].

Definition request : ZodSchema :=
  ZodObject
    [uid; ("path", ZodString); ("method", ZodString);
     ("summary", ZodOptional ZodString);
     ("description", ZodOptional ZodString);
     ("deprecated", ZodOptional ZodBoolean);
     ("tags", ZodOptional (ZodArray ZodString));
     ("parameters", ZodDefault (ZodArray ZodAny) (VArray []));
     ("servers", ZodDefault (ZodArray ZodString) (VArray []));
     ("security", ZodOptional securityRequirements)].

Definition collection : ZodSchema :=
  ZodObject
    [uid;
     ("info",
      ZodOptional
        (ZodObject [("title", ZodString); ("version", ZodString);
                    ("description", ZodOptional ZodString)]));
     ("security", ZodDefault securityRequirements (VArray []));
     ("documentUrl", ZodOptional ZodString)].

Definition oauthFlow : ZodSchema :=
  ZodDiscriminatedUnion "type"
    [ZodObject [("type", ZodLiteral (VString "implicit"));
                ("authorizationUrl", ZodString);
                ("scopes", ZodRecord ZodString)];
     ZodObject [("type", ZodLiteral (VString "password"));
                ("tokenUrl", ZodString);
                ("scopes", ZodRecord ZodString)]].

Definition securityScheme : ZodSchema :=
  ZodUnion
    [ZodObject [("type", ZodLiteral (VString "apiKey")); uid;
                ("nameKey", ZodDefault ZodString (VString ""));
                ("name", ZodString); ("in", ZodString)];
     ZodObject [("type", ZodLiteral (VString "http")); uid;
                ("nameKey", ZodDefault ZodString (VString ""));
                ("scheme", ZodString)];
     ZodObject [("type", ZodLiteral (VString "oauth2")); uid;
                ("nameKey", ZodDefault ZodString (VString ""));
                ("flow", ZodOptional oauthFlow)]].

Definition httpMethods : list string :=
  ["connect"; "delete"; "get"; "head"; "options"; "patch"; "post"; "put";
   "trace"].

Definition recognisedMethod (v : Value) : bool :=
  match v with
  | VString s => bool_decide (s ∈ httpMethods)
  | _ => false
  end.

(** The string members of [Array.prototype] and of [Object.prototype]. *)
Definition arrayPrototype : list string :=
  ["at"; "concat"; "copyWithin"; "entries"; "every"; "fill"; "filter";
   "find"; "findIndex"; "findLast"; "findLastIndex"; "flat"; "flatMap";
   "forEach"; "includes"; "indexOf"; "join"; "keys"; "lastIndexOf"; "map";
   "pop"; "push"; "reduce"; "reduceRight"; "reverse"; "shift"; "slice";
   "some"; "sort"; "splice"; "toReversed"; "toSorted"; "toSpliced";
   "unshift"; "values"; "with"]
  ++ objectPrototype.

(** The source text of a built-in function; [constructor] is [Array], and
    [__proto__] is the prototype itself, an empty array. *)
Definition nativeSource (name : string) : string :=
  if bool_decide (name = "__proto__") then ""
  else "function "
       ++ (if bool_decide (name = "constructor") then "Array" else name)
       ++ "() { [native code] }".

(** Modelled from the spec: the shape descriptions of the entity kinds, the
    recognised HTTP verbs and the read access to the fields of an entity
    are supplied from outside the file.  This instance has the fields the
    builders and the scenarios of the specification mention. *)
Definition externals : Externals := {|
  zodValidate := zodSafeParseRef;
  collectionSchema := collection;
  requestSchema := request;
  serverSchema := server;
  tagSchema := tag;
  securitySchemeSchema := securityScheme;
  oasOauthFlowSchema := oauthFlow;
  imports_are_schemas := ltac:(repeat constructor);
  isHTTPMethod := recognisedMethod;
  getNestedValueC := fun c p => getNestedValueRef (collectionValue c) p;
  getNestedValueR := fun r p => getNestedValueRef (requestValue r) p;
  arrayInherits := fun k => bool_decide (k ∈ arrayPrototype);
  nativeKey := nativeSource;
|}.

End Ref.

(** ** Vocabulary of the specification *)

(** A variant for [key] and [v]: an object schema whose field [key] is a
    literal equal to [v]. *)
Definition VariantFor (key : string) (v : Value) (opt : ZodSchema) : Prop :=
  exists shape l,
    opt = ZodObject shape /\ assoc key shape = Some (ZodLiteral l)
    /\ strictEq l v = true.

(** The schema under the optional and default wrappers of a schema: what
    is left when every wrapper, from the outermost in, is removed. *)
Inductive Unwrapped : ZodSchema -> ZodSchema -> Prop :=
  | Unwrapped_optional inner core :
      Unwrapped inner core -> Unwrapped (ZodOptional inner) core
  | Unwrapped_default inner d core :
      Unwrapped inner core -> Unwrapped (ZodDefault inner d) core
  | Unwrapped_core core :
      (forall inner, core <> ZodOptional inner) ->
      (forall inner d, core <> ZodDefault inner d) ->
      Unwrapped core core.

(** The options of a plain or discriminated union. *)
Inductive UnionOf : ZodSchema -> list ZodSchema -> Prop :=
  | UnionOf_plain options : UnionOf (ZodUnion options) options
  | UnionOf_discriminated d options :
      UnionOf (ZodDiscriminatedUnion d options) options.


(** The loop of a call without prefix, as a recursion on the list of the
    entries that remain, [i] being the index of the first of them.  It is
    shown below to compute what the loop pushes, and to throw when the loop
    throws. *)
Fixpoint topSpec (microdiff : Value -> Value -> Result (list Difference))
    (self : list Difference -> list PathSeg -> Result (list Difference))
    (i : nat) (l : list Difference) : Result (list Out) :=
  match l with
  | [] => Ok []
  | current :: rest =>
      if bool_decide (segAt (path current) 0 = Key "paths")
      then
        match rest with
        | next :: rest' =>
            if bool_decide (type current = REMOVE)
               && bool_decide (type next = CREATE)
            then
              pushed ← renamePair microdiff self [] current next;
              after ← topSpec microdiff self (S (S i)) rest';
              Ok (pushed ++ after)
            else
              after ← topSpec microdiff self (S i) rest;
              Ok (simplified i current :: after)
        | [] => Ok [simplified i current]
        end
      else
        after ← topSpec microdiff self (S i) rest;
        Ok (ORef i :: after)
  end.

(** The CHANGE entry a key rename is recorded as. *)
Definition keyChange (r c : Difference) : list Difference :=
  if bool_decide (segAt (path r) 1 = segAt (path c) 1) then []
  else [{| type := CHANGE; path := [Key "paths"; Key "path"];
           value := segValue (segAt (path c) 1);
           oldValue := segValue (segAt (path r) 1) |}].

(** The method segments of the pair are both truthy (neither missing, nor
    the empty string, nor the index 0) and differ. *)
Definition methodsDiffer (r c : Difference) : bool :=
  segTruthy (segAt (path r) 2) && segTruthy (segAt (path c) 2)
  && negb (bool_decide (segAt (path r) 2 = segAt (path c) 2)).

(** The CHANGE entry a method rename is recorded as. *)
Definition methodChange (r c : Difference) : list Difference :=
  if methodsDiffer r c
  then [{| type := CHANGE;
           path := [Key "paths"; segAt (path c) 1; Key "method"];
           value := segValue (segAt (path c) 2);
           oldValue := segValue (segAt (path r) 2) |}]
  else [].

(** The entries of the nested call on the bodies of the pair; the diff of
    the bodies may throw. *)
Definition bodyChanges
    (microdiff : Value -> Value -> Result (list Difference))
    (r c : Difference) : Result (list Difference) :=
  innerDiff ← microdiff (oldValue r) (value c);
  match innerDiff with
  | [] => Ok []
  | _ :: _ =>
      combineRenameDiffs microdiff innerDiff
        ([Key "paths"; segAt (path c) 1]
         ++ (if methodsDiffer r c then [segAt (path c) 2] else []))
  end.



(** Two entries that differ at most in their path. *)
Definition sameButPath (d d' : Difference) : Prop :=
  type d = type d' /\ value d = value d' /\ oldValue d = oldValue d'.







(** ** Sample data *)

(** Diff entries, a collection and its entities, used by the examples and as
    the concrete inputs of the theorems. *)
Module Samples.

Definition op (summary : string) : Value :=
  VObject [("summary", VString summary); ("description", VString "d")].

Definition rm (p : list PathSeg) (v : Value) : Difference :=
  {| type := REMOVE; path := p; value := VUndefined; oldValue := v |}.

Definition cr (p : list PathSeg) (v : Value) : Difference :=
  {| type := CREATE; path := p; value := v; oldValue := VUndefined |}.

Definition ch (p : list PathSeg) (old new : Value) : Difference :=
  {| type := CHANGE; path := p; value := new; oldValue := old |}.

Definition coll : Collection :=
  {| collection_uid := "c1"; collection_requests := ["r1"; "r2"];
     collection_servers := ["s0"; "s1"; "s2"]; collection_tags := ["t0"];
     collection_securitySchemes := ["sec1"];
     collection_security := [VObject [("apiKey", VArray [])]] |}.

Definition requests : gmap string Request :=
  <["r1" := mkRequest "r1" "/pets" "get" [VString "pets"]]>
    (<["r2" := mkRequest "r2" "/pets" "post" []]> ∅).

Definition servers : gmap string Server :=
  <["s0" := mkServer "s0"]>
    (<["s1" := mkServer "s1"]> (<["s2" := mkServer "s2"]> ∅)).

Definition schemes : gmap string SecurityScheme :=
  <["sec1" := mkScheme "sec1" "myAuth" "oauth2"
                (Some (mkFlow "implicit" [("read", VString "Read pets")]))]> ∅.

Definition petsGet : Difference :=
  rm [Key "paths"; Key "/pets"; Key "get"] (op "x").

Definition animalsPost : Difference :=
  cr [Key "paths"; Key "/animals"; Key "post"] (op "x").

Definition animalsPostEdited : Difference :=
  cr [Key "paths"; Key "/animals"; Key "post"] (op "y").

Definition titleChange : Difference :=
  ch [Key "info"; Key "title"] (VString "a") (VString "b").

Definition newTag : Difference :=
  cr [Key "tags"; Index 1] (VObject [("name", VString "t")]).




End Samples.

(** ** buildPayload (the earlier version of the sync) *)

Section BuildPayload.

(** [getNestedValue] of [@scalar/object-utils/nested], on the resource as a
    plain object: it throws when it has to read a key of [undefined]. *)
Variable getNestedValue : Value -> string -> Result Value.

(** Build a payload for updating specific properties, only works with
    objects.  [null] is [None]; the rest pattern of the REMOVE branch throws
    on a nested value that is [null] or [undefined], the spread of the other
    branch does not. *)
Definition buildPayload (diff : Difference) (resource : Value)
  : Result (option Value) :=
  let path' := removelast (path diff) in
  match last (path diff) with
  | None => Ok None
  | Some key =>
      if negb (segTruthy key) then Ok None
      else
        value' ←
          (if isNumber (segAt path' 1) then Ok resource
           else getNestedValue resource (joinPath path'));
        if bool_decide (type diff = REMOVE)
        then
          props ← objectEntries value';
          Ok (Some (VObject (deleteProp (propertyKey key) props)))
        else
          Ok (Some (VObject (setProp (propertyKey key) (value diff)
                               (ownProps value'))))
  end.

End BuildPayload.

(** ** Vocabulary for the loop of the combiner *)

(** The entry a reference to [d] or its CHANGE copy resolves to. *)
Definition simplifiedEntry (d : Difference) : Difference :=
  if bool_decide (type d = CREATE)
     && (3 <? length (path d))%nat && lastNotNumber (path d)
  then {| type := CHANGE; path := path d; value := value d;
          oldValue := VUndefined |}
  else if bool_decide (type d = REMOVE)
          && (3 <? length (path d))%nat && lastNotNumber (path d)
  then {| type := CHANGE; path := path d; value := VUndefined;
          oldValue := oldValue d |}
  else d.

(** What a call without prefix returns for an entry that is not part of a
    rename pair. *)
Definition passed (d : Difference) : Difference :=
  if bool_decide (segAt (path d) 0 = Key "paths") then simplifiedEntry d
  else d.

(** No REMOVE of the operations section is immediately followed by a
    CREATE. *)
Fixpoint noRenamePair (l : list Difference) : Prop :=
  match l with
  | [] => True
  | x :: rest =>
      match rest with
      | [] => True
      | y :: _ =>
          ~ (segAt (path x) 0 = Key "paths" /\ type x = REMOVE
             /\ type y = CREATE)
      end
      /\ noRenamePair rest
  end.

(** No REMOVE at all is immediately followed by a CREATE. *)
Fixpoint noAdjacentPair (l : list Difference) : Prop :=
  match l with
  | [] => True
  | x :: rest =>
      match rest with
      | [] => True
      | y :: _ => ~ (type x = REMOVE /\ type y = CREATE)
      end
      /\ noAdjacentPair rest
  end.

(** The loop of a call with a prefix, as a recursion on the entries that
    remain.  [pending] is what the previous iteration did to the first of
    them: nothing, or the prefixing it received as [next]. *)
Fixpoint nestedSpec (pathPrefix : list PathSeg)
    (pending : Difference -> Difference) (l : list Difference)
  : list Difference :=
  match l with
  | [] => []
  | x :: rest =>
      let current := prefixPath pathPrefix (pending x) in
      match rest with
      | y :: rest' =>
          if bool_decide (type current = REMOVE) && bool_decide (type y = CREATE)
          then keyChange current (prefixPath pathPrefix y)
               ++ methodChange current (prefixPath pathPrefix y)
               ++ nestedSpec pathPrefix id rest'
          else simplifiedEntry current
               :: nestedSpec pathPrefix (prefixPath pathPrefix) rest
      | [] => [simplifiedEntry current]
      end
  end.

(** The input array of a call with a prefix when the call returns, as a
    recursion on the entries that remain: an iteration prefixes the current
    entry and the next one, and the iteration after a rename pair is
    skipped. *)
Fixpoint nestedArr (pathPrefix : list PathSeg)
    (pending : Difference -> Difference) (l : list Difference)
  : list Difference :=
  match l with
  | [] => []
  | x :: rest =>
      let current := prefixPath pathPrefix (pending x) in
      match rest with
      | y :: rest' =>
          if bool_decide (type current = REMOVE) && bool_decide (type y = CREATE)
          then current :: prefixPath pathPrefix y
               :: nestedArr pathPrefix id rest'
          else current :: nestedArr pathPrefix (prefixPath pathPrefix) rest
      | [] => [current]
      end
  end.

(** The entry [d'] is the entry [d] with the prefix put once or twice in
    front of its path. *)
Definition prefixedEntry (pathPrefix : list PathSeg) (d d' : Difference)
  : Prop :=
  sameButPath d d'
  /\ (path d' = pathPrefix ++ path d
      \/ path d' = pathPrefix ++ pathPrefix ++ path d).

(** A CREATE or REMOVE that the request builder treats as a whole operation
    or as an array element: at most three segments, or an index at the
    end. *)
Definition shallowOrIndexed (d : Difference) : Prop :=
  type d = CHANGE \/ length (path d) <= 3 \/ lastNotNumber (path d) = false.


(** The values a spread into an array literal throws on. *)
Definition notIterable (v : Value) : Prop :=
  match v with
  | VArray _ | VString _ => False
  | _ => True
  end.

(** ** More sample data *)

Module MoreSamples.

(** A collection that lists a request and a security scheme that the tables
    do not have. *)
Definition dangling : Collection :=
  {| collection_uid := "c2"; collection_requests := ["r1"; "gone"];
     collection_servers := ["s0"]; collection_tags := [];
     collection_securitySchemes := ["gone"; "sec1"];
     collection_security := [] |}.

(** A collection whose document has no top-level security array. *)
Definition bare : Collection :=
  {| collection_uid := "c3"; collection_requests := [];
     collection_servers := []; collection_tags := [];
     collection_securitySchemes := []; collection_security := [] |}.



Definition deepCreate : Difference :=
  Samples.cr [Key "paths"; Key "/pets"; Key "get"; Key "summary"]
    (VString "x").

Definition summaryChange : Difference :=
  Samples.ch [Key "get"; Key "summary"] (VString "x") (VString "y").

Definition descriptionChange : Difference :=
  Samples.ch [Key "get"; Key "description"] (VString "d") (VString "e").

(** An info object as the earlier sync reads it, and a collection that has
    it. *)
Definition info : Value :=
  VObject [("title", VString "Pets"); ("version", VString "1")].

Definition withInfo : Value :=
  VObject [("uid", VString "c1"); ("info", info)].

(** A collection whose only security requirement holds a number where the
    list of scopes should be. *)
Definition oddSecurity : Collection :=
  {| collection_uid := "c4"; collection_requests := [];
     collection_servers := []; collection_tags := [];
     collection_securitySchemes := [];
     collection_security := [VObject [("apiKey", VNumber 1)]] |}.

(** A pair that is no rename: a field removed and another added, with
    strings as their values. *)
Definition summaryRemoved : Difference :=
  Samples.rm [Key "paths"; Key "/a"; Key "get"; Key "summary"] (VString "x").

Definition descriptionAdded : Difference :=
  Samples.cr [Key "paths"; Key "/a"; Key "get"; Key "description"]
    (VString "y").


(** The operation of [Samples.op], its fields in the other order. *)
Definition opReordered (summary : string) : Value :=
  VObject [("description", VString "d"); ("summary", VString summary)].

Definition animalsPostReordered : Difference :=
  Samples.cr [Key "paths"; Key "/animals"; Key "post"] (opReordered "x").

(** A union under two wrappers. *)
Definition wrappedScheme : ZodSchema :=
  ZodOptional (ZodDefault Ref.securityScheme VUndefined).

Definition httpVariant : ZodSchema :=
  ZodObject [("type", ZodLiteral (VString "http")); Ref.uid;
             ("nameKey", ZodDefault ZodString (VString ""));
             ("scheme", ZodString)].

End MoreSamples.

(** ** Proof automation *)

(** Case analysis on the results that the goal binds, first to last. *)
Ltac results :=
  repeat match goal with
         | |- context [mbind _ ?m] =>
             lazymatch m with
             | Ok _ => fail
             | Throw _ => fail
             | mbind _ _ => fail
             | _ => destruct m; cbn [mbind Result_bind]
             end
         end.

(** ** Examples for the combiner *)

Module CombineExamples.
Import Samples.

(** Scenario 1 of the specification: [get] renamed to [post], same body. *)
Example method_rename :
  combineRenameDiffs microdiffRef
    [rm [Key "paths"; Key "/pets"; Key "get"] (op "x");
     cr [Key "paths"; Key "/pets"; Key "post"] (op "x")] []
  = Ok [ch [Key "paths"; Key "/pets"; Key "method"]
           (VString "get") (VString "post")].
Proof. reflexivity. Qed.

(** A renamed path whose operation changed in two fields. *)
Example rename_with_changes :
  combineRenameDiffs microdiffRef
    [rm [Key "paths"; Key "/a"]
        (VObject [("get", VObject [("summary", VString "x");
                                   ("description", VString "d")])]);
     cr [Key "paths"; Key "/b"]
        (VObject [("get", VObject [("summary", VString "y");
                                   ("description", VString "e")])])] []
  = Ok [ch [Key "paths"; Key "path"] (VString "/a") (VString "/b");
        ch [Key "paths"; Key "/b"; Key "get"; Key "summary"]
           (VString "x") (VString "y");
        ch [Key "paths"; Key "/b"; Key "paths"; Key "/b"; Key "get";
            Key "description"]
           (VString "d") (VString "e")].
Proof. reflexivity. Qed.

(** A field removed and another added are taken for a rename pair, and the
    diff function is called on the two strings: it throws. *)
Example deep_pair_throws :
  combineRenameDiffs microdiffRef
    [MoreSamples.summaryRemoved; MoreSamples.descriptionAdded] []
  = Throw TypeError.
Proof. reflexivity. Qed.

End CombineExamples.

(** ** Examples for the builders *)

Module BuilderExamples.
Import Samples.

#[local] Existing Instance Ref.externals.

(** Scenario 1: the CHANGE of the method fans out to the [get] request of
    the path. *)
Example request_method_edit :
  diffToRequestPayload
    (ch [Key "paths"; Key "/pets"; Key "method"]
        (VString "get") (VString "put")) coll requests
  = Ok [PEdit "r1" "method" (VString "put")].
Proof. reflexivity. Qed.

(** Scenario 2: a new operation. *)
Example request_add :
  diffToRequestPayload
    (cr [Key "paths"; Key "/new"; Key "get"]
        (VObject [("summary", VString "x")])) coll requests
  = Ok [PAdd (VObject [("uid", VString "generated"); ("path", VString "/new");
                       ("method", VString "get"); ("summary", VString "x");
                       ("parameters", VArray []); ("servers", VArray [])])
             "c1"].
Proof. reflexivity. Qed.

(** The method comes from the value when the path has no method segment. *)
Example request_add_whole_path :
  diffToRequestPayload
    (cr [Key "paths"; Key "/new"]
        (VObject [("post", VObject [("summary", VString "x")])]))
    coll requests
  = Ok [PAdd (VObject [("uid", VString "generated"); ("path", VString "/new");
                       ("method", VString "post"); ("summary", VString "x");
                       ("parameters", VArray []); ("servers", VArray [])])
             "c1"].
Proof. reflexivity. Qed.

(** Push then pop on the tags of a request. *)
Example request_tags_push :
  diffToRequestPayload
    (cr [Key "paths"; Key "/pets"; Key "get"; Key "tags"; Index 1]
        (VString "new")) coll requests
  = Ok [PEdit "r1" "tags" (VArray [VString "pets"; VString "new"])].
Proof. reflexivity. Qed.

Example request_tags_pop :
  diffToRequestPayload
    (rm [Key "paths"; Key "/pets"; Key "get"; Key "tags"; Index 0]
        (VString "pets")) coll requests
  = Ok [PEdit "r1" "tags" (VArray [])].
Proof. reflexivity. Qed.

(** Scenario 3: a new server, and the removal of the variables of one. *)
Example server_add :
  diffToServerPayload
    (cr [Key "servers"; Index 3] (VObject [("url", VString "https://x")]))
    coll servers
  = Ok (Some (PAdd (VObject [("uid", VString "generated");
                             ("url", VString "https://x")]) "c1")).
Proof. reflexivity. Qed.

Example server_remove_variables :
  diffToServerPayload
    (rm [Key "servers"; Index 2; Key "variables"] (VObject []))
    coll servers
  = Ok (Some (PEdit (MUid "s2") "variables" (VObject []))).
Proof. reflexivity. Qed.

(** Scenario 4: the change of one scope of an OAuth2 scheme. *)
Example scheme_scope_change :
  diffToSecuritySchemePayload
    (ch [Key "components"; Key "securitySchemes"; Key "myAuth"; Key "flows";
         Key "implicit"; Key "scopes"; Key "read"]
        (VString "Read pets") (VString "Read all pets")) coll schemes
  = Ok (Some (PEdit "sec1" "flow.scopes"
                (VObject [("read", VString "Read all pets")]))).
Proof. reflexivity. Qed.

Example collection_security_push :
  diffToCollectionPayload
    (cr [Key "security"; Index 1] (VObject [("oauth", VArray [])])) coll
  = Ok (Some ("c1", "security",
              VArray [VObject [("apiKey", VArray [])];
                      VObject [("oauth", VArray [])]])).
Proof. reflexivity. Qed.

(** A parsed value that is falsy is taken for a failed validation. *)
Example parse_rejects_false :
  zodSafeParseRef (ZodOptional ZodBoolean) (VBool false) = Some (VBool false)
  /\ parseDiff Ref.request
       (ch [Key "deprecated"] (VBool true) (VBool false)) = Ok None.
Proof. split; reflexivity. Qed.

(** A key that the shape object inherits resolves to a member of
    [Object.prototype]: the parse of a REMOVE succeeds, the parse of a
    CHANGE throws, and so does the builder. *)
Example inherited_key :
  traverseZodSchema Ref.request [Key "constructor"]
  = Some (Inherited "constructor")
  /\ parseDiff Ref.request (rm [Key "constructor"] (VString "x"))
     = Ok (Some (mkParsed "constructor" "" VUndefined))
  /\ parseDiff Ref.request
       (ch [Key "constructor"] (VString "x") (VString "y"))
     = Throw TypeError
  /\ diffToRequestPayload
       (ch [Key "paths"; Key "/pets"; Key "get"; Key "constructor"]
           (VString "x") (VString "y")) coll requests
     = Throw TypeError.
Proof. repeat split; reflexivity. Qed.

(** The read access follows the dotted path, and throws on a segment that
    is missing before the last one. *)
Example nested_reads :
  getNestedValueC coll "security.0.apiKey" = Ok (VArray [])
  /\ getNestedValueC coll "security.1" = Ok VUndefined
  /\ getNestedValueC coll "nope.deeper" = Throw TypeError.
Proof. repeat split; reflexivity. Qed.

(** An index segment that is the key [length] reads the length of the
    array of uids, and the REMOVE of the "server" at that key is a delete of
    the number. *)
Example server_length_key :
  diffToServerPayload (rm [Key "servers"; Key "length"] VUndefined)
    coll servers
  = Ok (Some (PDelete (MLength 3) (Some "c1"))).
Proof. reflexivity. Qed.

End BuilderExamples.

(** * Properties *)

(** ** The schema path resolver *)

Lemma unwrapSchema_not_wrapper (schema : ZodSchema) :
  isWrapper (unwrapSchema schema) = false.
Proof. induction schema; simpl; auto. Qed.

Lemma unwrapSchema_idemp (schema : ZodSchema) :
  unwrapSchema (unwrapSchema schema) = unwrapSchema schema.
Proof. induction schema; simpl; auto. Qed.

Lemma traverse_unwrapped (rest : list PathSeg) :
  forall schema s,
    traverseZodSchema (unwrapSchema schema) rest = Some s ->
    isWrapper s = false.
Proof.
  induction rest as [|key rest IH]; intros schema s Hs; simpl in Hs.
  - injection Hs as <-. apply unwrapSchema_not_wrapper.
  - rewrite unwrapSchema_idemp in Hs.
    destruct (unwrapSchema schema) eqn:Hu;
      try (destruct (descend _ key) as [s'|] eqn:Hd; [|discriminate];
           apply (IH s' s Hs)).
    injection Hs as <-. reflexivity.
Qed.

(** The empty path returns the schema as it is given, wrapper or not. *)
Lemma traverseZodSchema_nil (schema : ZodSchema) :
  traverseZodSchema schema [] = Some schema.
Proof. reflexivity. Qed.

(** C5, as stated, fails on the empty path: the loop body never runs and the
    optional wrapper is returned. *)
Lemma traverseZodSchema_empty_path_keeps_wrapper :
  traverseZodSchema (ZodOptional ZodString) [] = Some (ZodOptional ZodString)
  /\ isWrapper (ZodOptional ZodString) = true.
Proof. split; reflexivity. Qed.

(** C5 (amended): on a non-empty path a successful traversal never returns an
    optional or default wrapper; on the empty path it returns the schema
    unchanged. *)
Theorem traverseZodSchema_unwraps (schema : ZodSchema) (path : list PathSeg)
    (s : ZodSchema) :
  path <> [] ->
  traverseZodSchema schema path = Some s ->
  isWrapper s = false /\ traverseZodSchema schema [] = Some schema.
Proof.
  intros Hne Hs. split; [|reflexivity].
  destruct path as [|key rest]; [congruence|]. simpl in Hs.
  destruct (unwrapSchema schema) eqn:Hu;
    try (destruct (descend _ key) as [s'|] eqn:Hd; [|discriminate];
         apply (traverse_unwrapped rest s' s Hs)).
  injection Hs as <-. reflexivity.
Qed.

Lemma traverseZodSchema_unwraps_witness :
  isWrapper (ZodArray ZodString) = false
  /\ traverseZodSchema
       (ZodOptional (ZodObject [("tags", ZodOptional (ZodArray ZodString))])) []
     = Some (ZodOptional (ZodObject [("tags", ZodOptional (ZodArray ZodString))])).
Proof.
  apply (traverseZodSchema_unwraps
           (ZodOptional (ZodObject [("tags", ZodOptional (ZodArray ZodString))]))
           [Key "tags"]).
  - discriminate.
  - reflexivity.
Defined.

(** ** The union narrower *)

Lemma optionMatches_spec key v opt :
  optionMatches key v opt = true <-> VariantFor key v opt.
Proof.
  unfold optionMatches, VariantFor, shapeMember, shapeAt, inShape. split.
  - destruct opt; try discriminate.
    destruct (assoc key shape) as [[]|] eqn:Ha; cbn;
      try discriminate; try (by destruct (bool_decide _)).
    intros Heq. eauto.
  - intros (shape & l & -> & -> & Heq). exact Heq.
Qed.

Lemma narrowOptions_Some options key v o :
  narrowOptions options key v = Some o <->
  exists pre post,
    options = pre ++ o :: post /\ VariantFor key v o
    /\ Forall (fun p => ~ VariantFor key v p) pre.
Proof.
  induction options as [|opt rest IH]; simpl.
  - split; [discriminate|]. intros (pre & post & Heq & _).
    destruct pre; discriminate.
  - destruct (optionMatches key v opt) eqn:Hm.
    + split.
      * intros [= <-]. exists [], rest. split; [reflexivity|].
        split; [by apply optionMatches_spec | constructor].
      * intros (pre & post & Heq & Hv & Hpre).
        destruct pre as [|p pre]; simpl in Heq.
        -- by injection Heq as -> _.
        -- injection Heq as -> _. apply Forall_cons in Hpre as [Hp _].
           exfalso. apply Hp. by apply optionMatches_spec.
    + rewrite IH. split.
      * intros (pre & post & -> & Hv & Hpre). exists (opt :: pre), post.
        split; [reflexivity|]. split; [exact Hv|]. constructor; [|exact Hpre].
        intros Hc. apply optionMatches_spec in Hc. congruence.
      * intros (pre & post & Heq & Hv & Hpre).
        destruct pre as [|p pre]; simpl in Heq.
        -- injection Heq as -> _. apply optionMatches_spec in Hv. congruence.
        -- injection Heq as _ ->. apply Forall_cons in Hpre as [_ Hpre]. eauto.
Qed.

Lemma narrowOptions_None options key v :
  narrowOptions options key v = None <->
  Forall (fun p => ~ VariantFor key v p) options.
Proof.
  induction options as [|opt rest IH]; simpl.
  - split; [constructor | reflexivity].
  - destruct (optionMatches key v opt) eqn:Hm.
    + split; [discriminate|]. intros Hall.
      apply Forall_cons in Hall as [Hp _]. exfalso. apply Hp.
      by apply optionMatches_spec.
    + rewrite IH. split.
      * intros Hall. constructor; [|exact Hall].
        intros Hc. apply optionMatches_spec in Hc. congruence.
      * intros Hall. by apply Forall_cons in Hall as [_ Hall].
Qed.

(** [unwrapSchema] computes the schema under the wrappers. *)
Lemma Unwrapped_unwrapSchema (schema core : ZodSchema) :
  Unwrapped schema core -> unwrapSchema schema = core.
Proof.
  induction 1 as [inner core _ IH | inner d core _ IH | core Ho Hd];
    [exact IH | exact IH |].
  destruct core; try reflexivity; [by destruct (Ho core) | by destruct (Hd core defaultValue)].
Qed.

Lemma unwrapSchema_Unwrapped (schema : ZodSchema) :
  Unwrapped schema (unwrapSchema schema).
Proof.
  induction schema; cbn; try (by constructor); by apply Unwrapped_core.
Qed.

(** C7: whatever optional and default wrappers the schema is under, the
    narrower looks at the schema under them, and returns its first option,
    in declaration order, that is an object whose discriminator field is a
    literal equal to the value; it returns [None] exactly when the schema
    under the wrappers is not a union or no option is such a variant. *)
Theorem narrowUnionSchema_first_variant (schema core : ZodSchema)
    (key : string) (v : Value) :
  Unwrapped schema core ->
  (forall o,
      narrowUnionSchema schema key v = Some o <->
      exists pre post,
        UnionOf core (pre ++ o :: post)
        /\ VariantFor key v o
        /\ Forall (fun p => ~ VariantFor key v p) pre)
  /\ (narrowUnionSchema schema key v = None <->
      forall options,
        UnionOf core options ->
        Forall (fun p => ~ VariantFor key v p) options).
Proof.
  intros Hcore. unfold narrowUnionSchema.
  rewrite (Unwrapped_unwrapSchema schema core Hcore). split.
  - intros o. split.
    + destruct core; try discriminate;
        intros Hn; apply narrowOptions_Some in Hn as (pre & post & -> & Hv & Hp);
        exists pre, post; (split; [constructor | auto]).
    + intros (pre & post & Hu & Hv & Hp).
      inversion Hu; subst; apply narrowOptions_Some; eauto.
  - split.
    + intros Hn options Hu. inversion Hu as [? Heq|? ? Heq]; subst;
        by apply narrowOptions_None.
    + intros Hall.
      destruct core; try reflexivity;
        apply narrowOptions_None, Hall; constructor.
Qed.

(** ** The resource finder *)

(** C6, as stated, fails when a key is missing from the table: the predicate
    is applied to [undefined], and the predicates of this file read a
    property of their argument. *)
Lemma findResource_missing_key_throws :
  findResource ["missing"] (∅ : gmap string Request)
    (fun r => match r with
              | None => Throw TypeError
              | Some r => Ok (bool_decide (request_path r = "/pets"))
              end)
  = Throw TypeError.
Proof. reflexivity. Qed.

(** With every key in the table and a predicate that does not throw on an
    entity, the finder is the head of the filtered list of entities. *)
Lemma findResource_present {T : Type} (arr : list string)
    (resources : gmap string T) (condition : option T -> Result bool)
    (p : T -> bool) :
  (forall t, condition (Some t) = Ok (p t)) ->
  Forall (fun uid => is_Some (resources !! uid)) arr ->
  findResource arr resources condition
  = Ok (head (filter (fun t => p t = true)
                     (omap (fun uid => resources !! uid) arr))).
Proof.
  intros Hcond Hall.
  induction Hall as [|uid rest [t Ht] _ IH]; [reflexivity|].
  simpl. rewrite Ht, Hcond. simpl.
  destruct (p t) eqn:Hp.
  - rewrite filter_cons_True by exact Hp. reflexivity.
  - rewrite filter_cons_False by congruence. exact IH.
Qed.

(** C6 (amended): when every key is in the table and the predicate does not
    throw on an entity, the finder returns the first entity, in key order,
    that satisfies the predicate, and not-found when the list is empty or no
    entity satisfies it; it does not throw. *)
Theorem findResource_first_match {T : Type} (arr : list string)
    (resources : gmap string T) (condition : option T -> Result bool)
    (p : T -> bool) :
  (forall t, condition (Some t) = Ok (p t)) ->
  Forall (fun uid => is_Some (resources !! uid)) arr ->
  findResource arr resources condition
  = Ok (head (filter (fun t => p t = true)
                     (omap (fun uid => resources !! uid) arr)))
  /\ findResource [] resources condition = Ok None.
Proof.
  intros Hcond Hall. split; [|reflexivity].
  by apply findResource_present.
Qed.

Lemma findResource_first_match_witness :
  findResource ["r1"; "r2"; "r3"]
    (<["r1" := mkRequest "r1" "/pets" "get" []]>
       (<["r2" := mkRequest "r2" "/pets" "post" []]>
          (<["r3" := mkRequest "r3" "/pets" "post" [VString "x"]]> ∅)))
    (fun r => match r with
              | None => Throw TypeError
              | Some r => Ok (bool_decide (request_method r = "post"))
              end)
  = Ok (Some (mkRequest "r2" "/pets" "post" [])).
Proof.
  pose proof (findResource_first_match ["r1"; "r2"; "r3"]
    (<["r1" := mkRequest "r1" "/pets" "get" []]>
       (<["r2" := mkRequest "r2" "/pets" "post" []]>
          (<["r3" := mkRequest "r3" "/pets" "post" [VString "x"]]> ∅)))
    (fun r => match r with
              | None => Throw TypeError
              | Some r => Ok (bool_decide (request_method r = "post"))
              end)
    (fun r => bool_decide (request_method r = "post"))) as Hf.
  destruct Hf as [Hf _].
  - reflexivity.
  - repeat constructor; eexists; reflexivity.
  - rewrite Hf. reflexivity.
Defined.

(** ** The diff value parser *)

Section ParseSound.
Context `{Externals}.

(** What it means for a value to satisfy a schema, and the soundness of
    Zod's validation with respect to it. *)
Variable satisfies : ZodSchema -> Value -> Prop.
Hypothesis safeParse_sound :
  forall schema raw v, safeParse schema raw = Ok (Some v) -> satisfies schema v.

Lemma parseDiff_unresolvable (schema : ZodSchema) (diff : Difference) :
  traverseZodSchema schema (path diff) = None ->
  parseDiff schema diff = Ok None.
Proof. unfold parseDiff. by intros ->. Qed.

Lemma safeParse_Ok (schema : ZodSchema) (data : Value)
    (parsed : option Value) :
  safeParse schema data = Ok parsed <->
  isSchema schema = true /\ zodValidate schema data = parsed.
Proof.
  destruct schema; cbn; split;
    try (intros [= <-]; by split); try (by intros [_ ->]);
    try discriminate; by intros [? _].
Qed.

Lemma safeParse_inherited (schema : ZodSchema) (data : Value) :
  isSchema schema = false -> safeParse schema data = Throw TypeError.
Proof. by destruct schema. Qed.

Lemma safeParse_Throw (schema : ZodSchema) (data : Value) (e : JsError) :
  safeParse schema data = Throw e <->
  e = TypeError /\ exists member, schema = Inherited member.
Proof.
  destruct schema; cbn; split; try discriminate;
    try (by intros [_ [member [=]]]).
  - intros [= <-]. eauto.
  - by intros [-> _].
Qed.

Lemma schemaModel_parsed (data : Value) (schema : ZodSchema)
    (parsed : option Value) :
  safeParse schema data = Ok parsed ->
  schemaModel data schema
  = Ok (match parsed with Some v => v | None => VNull end).
Proof. unfold schemaModel. by intros ->. Qed.

Lemma schemaModel_schema (data : Value) (schema : ZodSchema) :
  isSchema schema = true ->
  schemaModel data schema
  = Ok (match zodValidate schema data with Some v => v | None => VNull end).
Proof.
  intros Hs. apply schemaModel_parsed. by apply safeParse_Ok.
Qed.

Lemma schemaModel_inherited (data : Value) (schema : ZodSchema) :
  isSchema schema = false -> schemaModel data schema = Throw TypeError.
Proof. by destruct schema. Qed.

Lemma parseDiff_invalid (schema : ZodSchema) (diff : Difference)
    (s : ZodSchema) :
  traverseZodSchema schema (path diff) = Some s ->
  type diff <> REMOVE ->
  safeParse s (value diff) = Ok None ->
  parseDiff schema diff = Ok None.
Proof.
  unfold parseDiff. intros -> Hty Hv.
  rewrite bool_decide_eq_false_2 by exact Hty.
  by rewrite (schemaModel_parsed _ _ _ Hv).
Qed.

(** C4: a successful parse of an entry that is not a REMOVE returns a value
    that satisfies the schema [traverseZodSchema] resolves at the entry's
    path, and the parse fails whenever the path does not resolve or the
    validation of the value against the schema it resolves to fails. *)
Theorem parseDiff_sound (schema : ZodSchema) (diff : Difference) :
  (forall parsed,
      parseDiff schema diff = Ok (Some parsed) ->
      type diff <> REMOVE ->
      exists s,
        traverseZodSchema schema (path diff) = Some s
        /\ satisfies s (pd_value parsed))
  /\ (traverseZodSchema schema (path diff) = None ->
      parseDiff schema diff = Ok None)
  /\ (forall s,
         traverseZodSchema schema (path diff) = Some s ->
         type diff <> REMOVE ->
         safeParse s (value diff) = Ok None ->
         parseDiff schema diff = Ok None).
Proof.
  split; [|split].
  - intros parsed Hp Hty. unfold parseDiff in Hp.
    destruct (traverseZodSchema schema (path diff)) as [s|]; [|discriminate].
    exists s. split; [reflexivity|].
    rewrite bool_decide_eq_false_2 in Hp by exact Hty.
    unfold schemaModel in Hp.
    destruct (safeParse s (value diff)) as [[v|]|e] eqn:Hv;
      cbn in Hp; try discriminate.
    destruct (truthy v); [|discriminate].
    injection Hp as <-. simpl. by apply (safeParse_sound s (value diff)).
  - apply parseDiff_unresolvable.
  - apply parseDiff_invalid.
Qed.

End ParseSound.

(** ** The server builder *)

Section ServerBuilder.
Context `{Externals}.

(** C8: a REMOVE whose path ends in the [variables] field of a server that
    exists at the index, a field the server schema has, is an edit of the
    field with the empty object. *)
Theorem diffToServerPayload_remove_variables (diff : Difference)
    (collection : Collection) (servers : gmap string Server)
    (i : nat) (keys : list PathSeg) (uid : string) (server : Server)
    (s : ZodSchema) :
  type diff = REMOVE ->
  path diff = Key "servers" :: Index i :: keys ->
  last keys = Some (Key "variables") ->
  collection_servers collection !! i = Some uid ->
  servers !! uid = Some server ->
  traverseZodSchema serverSchema keys = Some s ->
  diffToServerPayload diff collection servers
  = Ok (Some (PEdit (MUid uid) (joinPath keys) (VObject []))).
Proof.
  intros Hty Hpath Hlast Huid Hserver Hs.
  unfold diffToServerPayload. rewrite Hpath. simpl.
  destruct keys as [|k keys']; [discriminate|].
  rewrite Huid. simpl. rewrite Hserver.
  unfold parseDiff. cbn [path setPath type]. rewrite Hs, Hty.
  rewrite bool_decide_eq_true_2 by reflexivity.
  rewrite Hlast. rewrite bool_decide_eq_true_2 by reflexivity.
  reflexivity.
Qed.

End ServerBuilder.

(** ** The request builder *)

(** C10: a CREATE of a whole path whose value is the empty object makes the
    request builder throw: [Object.entries] gives no entry to destructure. *)
Theorem diffToRequestPayload_empty_create_throws `{Externals}
    (p : PathSeg) (collection : Collection) (requests : gmap string Request) :
  diffToRequestPayload
    {| type := CREATE; path := [Key "paths"; p]; value := VObject [];
       oldValue := VUndefined |} collection requests
  = Throw TypeError.
Proof.
  unfold diffToRequestPayload. simpl.
  rewrite andb_false_r. reflexivity.
Qed.
(** ** The rename combiner *)

Lemma omap_app_cons {A B : Type} (f : A -> option B) (x : A) (l : list A) :
  omap f (x :: l) = omap f [x] ++ omap f l.
Proof. apply (omap_app f [x] l). Qed.

Lemma omap_ext_in {A B : Type} (f g : A -> option B) (l : list A) :
  (forall x, x ∈ l -> f x = g x) -> omap f l = omap g l.
Proof.
  intros Hfg. apply list_omap_ext.
  induction l as [|x l IH]; constructor.
  - apply Hfg. by left.
  - apply IH. intros y Hy. apply Hfg. by right.
Qed.

Lemma Result_fmap_compose {A B C : Type} (f : A -> B) (g : B -> C)
    (m : Result A) :
  g <$> (f <$> m) = (fun a => g (f a)) <$> m.
Proof. by destruct m. Qed.

Lemma Result_fmap_Ok {A B : Type} (f : A -> B) (m : Result A) (b : B) :
  f <$> m = Ok b -> exists a, m = Ok a /\ b = f a.
Proof. destruct m as [a|e]; [|discriminate]. intros [= <-]. by exists a. Qed.

Lemma Result_bind_Ok {A B : Type} (m : Result A) (k : A -> Result B) (b : B) :
  m ≫= k = Ok b -> exists a, m = Ok a /\ k a = Ok b.
Proof. destruct m as [a|e]; [|discriminate]. intros Hk. by exists a. Qed.

Section CombineTop.
Variable microdiff : Value -> Value -> Result (list Difference).
Variable self : list Difference -> list PathSeg -> Result (list Difference).

Abbreviation stepT := (step microdiff self []).
Abbreviation spec := (topSpec microdiff self).

(** A call without prefix never writes to its input. *)
Lemma step_top_arr (st st' : LoopState) (i : nat) :
  stepT st i = Ok st' -> arr st' = arr st.
Proof.
  unfold step. destruct (skipNext st); [by intros [= <-]|].
  destruct (arr st !! i) as [current|]; [|by intros [= <-]].
  destruct (bool_decide _); [|by intros [= <-]].
  unfold classify, simplify.
  destruct (arr st !! (i + 1)) as [n|]; [|by intros [= <-]].
  destruct (_ && _); [|by intros [= <-]].
  destruct (renamePair _ _ _ _ _); [|discriminate]. by intros [= <-].
Qed.

(** The states that a call without prefix goes through all hold the input
    array. *)
Lemma runLoop_top_arr (idx : list nat) :
  forall st st',
    runLoop microdiff self [] idx st = Ok st' -> arr st' = arr st.
Proof.
  induction idx as [|i idx IH]; intros st st'; cbn.
  - by intros [= <-].
  - intros Hrun. apply Result_bind_Ok in Hrun as (st1 & Hstep & Hrun).
    rewrite (IH _ _ Hrun). by apply (step_top_arr st st1 i).
Qed.

Lemma topSpec_cons (a : nat) (current : Difference)
    (rest : list Difference) :
  spec a (current :: rest)
  = if bool_decide (segAt (path current) 0 = Key "paths")
    then
      match rest with
      | next :: rest' =>
          if bool_decide (type current = REMOVE)
             && bool_decide (type next = CREATE)
          then
            pushed ← renamePair microdiff self [] current next;
            after ← spec (S (S a)) rest';
            Ok (pushed ++ after)
          else after ← spec (S a) rest; Ok (simplified a current :: after)
      | [] => Ok [simplified a current]
      end
    else after ← spec (S a) rest; Ok (ORef a :: after).
Proof. reflexivity. Qed.

(** The loop from index [a] on pushes what [topSpec] lists for the entries
    from [a] on, or from [a + 1] on when the entry at [a] is skipped, and
    throws when [topSpec] does. *)
Lemma loop_top (diff : list Difference) (n : nat) :
  forall a st,
    arr st = diff ->
    a + n = length diff ->
    (fun fin => (arr fin, combined fin))
      <$> runLoop microdiff self [] (seq a n) st
    = (fun out => (diff, combined st ++ out))
        <$> (if skipNext st then spec (S a) (drop (S a) diff)
             else spec a (drop a diff)).
Proof.
  induction n as [|n IH]; intros a st Harr Hlen.
  - cbn [seq runLoop foldM]. rewrite !drop_ge by lia.
    destruct (skipNext st); cbn; by rewrite Harr, app_nil_r.
  - cbn [seq runLoop foldM].
    change (foldM (step microdiff self []) (seq (S a) n))
      with (runLoop microdiff self [] (seq (S a) n)).
    unfold step at 1. destruct (skipNext st) eqn:Hskip.
    { cbn [mbind Result_bind]. rewrite IH by (try done; lia). reflexivity. }
    rewrite Harr.
    destruct (lookup_lt_is_Some_2 diff a) as [current Hcur]; [lia|].
    rewrite Hcur, (drop_S _ _ _ Hcur), topSpec_cons.
    destruct (bool_decide (segAt (path current) 0 = Key "paths")).
    2:{ cbn [mbind Result_bind]. rewrite IH by (try done; lia).
        cbn [push combined skipNext].
        destruct (spec (S a) (drop (S a) diff)); cbn; [|reflexivity].
        by rewrite <- app_assoc. }
    unfold classify, simplify, nextIsCreate.
    replace (a + 1) with (S a) by lia.
    destruct (diff !! S a) as [next|] eqn:Hnext.
    + rewrite (drop_S _ _ _ Hnext).
      destruct (bool_decide (type current = REMOVE) && _).
      * destruct (renamePair microdiff self [] current next) as [pushed|e];
          cbn [mbind Result_bind]; [|reflexivity].
        rewrite IH by (try done; lia). cbn [push combined skipNext].
        destruct (spec (S (S a)) (drop (S (S a)) diff)); cbn; [|reflexivity].
        by rewrite <- app_assoc.
      * cbn [mbind Result_bind]. rewrite IH by (try done; lia).
        cbn [push combined skipNext]. rewrite (drop_S _ _ _ Hnext).
        destruct (spec (S a) (next :: drop (S (S a)) diff)); cbn;
          [|reflexivity].
        by rewrite <- app_assoc.
    + rewrite (drop_ge diff (S a)) by (by apply lookup_ge_None).
      cbn [mbind Result_bind]. rewrite IH by (try done; lia).
      cbn [push combined skipNext].
      rewrite (drop_ge diff (S a)) by (by apply lookup_ge_None).
      cbn. by rewrite <- app_assoc.
Qed.

Lemma combineLoop_top (diff : list Difference) :
  (fun fin => (arr fin, combined fin)) <$> combineLoop microdiff self diff []
  = (fun out => (diff, out)) <$> spec 0 diff.
Proof.
  unfold combineLoop.
  rewrite (loop_top diff (length diff) 0 (mkLoop diff [] false))
    by (try done; lia).
  reflexivity.
Qed.

(** What a call without prefix returns. *)
Lemma returned_top (diff : list Difference) :
  returned <$> combineLoop microdiff self diff []
  = (omap (resolve diff) : list Out -> list Difference) <$> spec 0 diff.
Proof.
  pose proof (combineLoop_top diff) as Htop.
  apply (f_equal (fmap (fun ac : list Difference * list Out =>
                          omap (resolve ac.1) ac.2))) in Htop.
  rewrite !Result_fmap_compose in Htop. exact Htop.
Qed.

(** Induction on a list two entries at a time. *)
Lemma list_pair_ind {A : Type} (P : list A -> Prop) :
  P [] -> (forall x, P [x]) ->
  (forall x y l, P l -> P (y :: l) -> P (x :: y :: l)) ->
  forall l, P l.
Proof.
  intros Hnil Hone Htwo l.
  assert (P l /\ forall x, P (x :: l)) as [Hl _]; [|exact Hl].
  induction l as [|y l [IH1 IH2]]; [by split|].
  split; [apply IH2|]. intros x. apply Htwo; [exact IH1 | apply IH2].
Qed.

(** The rename branch pushes new objects only. *)
Lemma renamePair_new (pathPrefix : list PathSeg) (r c : Difference)
    (pushed : list Out) (j : nat) :
  renamePair microdiff self pathPrefix r c = Ok pushed -> ORef j ∉ pushed.
Proof.
  unfold renamePair.
  match goal with
  | |- context [match pathPrefix with [] => _ | _ :: _ => Ok ?rn end] =>
      set (renames := rn);
      assert (Hrn : ORef j ∉ renames)
  end.
  { unfold renames. rewrite elem_of_app. intros [Hin|Hin].
    - destruct (bool_decide _); [by apply elem_of_nil in Hin|].
      apply list_elem_of_singleton in Hin. discriminate.
    - destruct (_ && _); [|by apply elem_of_nil in Hin].
      apply list_elem_of_singleton in Hin. discriminate. }
  destruct pathPrefix; [|by intros [= <-]].
  destruct (microdiff _ _) as [[|d ds]|e]; cbn [mbind Result_bind];
    [by intros [= <-] | | discriminate].
  destruct (self _ _) as [inner|e]; cbn [mbind Result_bind]; [|discriminate].
  intros [= <-]. rewrite elem_of_app. intros [Hin|Hin]; [by apply Hrn|].
  apply list_elem_of_fmap in Hin as (e & He & _). discriminate.
Qed.

Lemma simplified_ref (i j : nat) (current : Difference) :
  simplified i current = ORef j -> j = i.
Proof.
  unfold simplified. repeat (destruct (_ && _); [discriminate|]).
  by intros [= ->].
Qed.

(** The references [topSpec] pushes are indices of the entries it is
    given. *)
Lemma topSpec_refs (l : list Difference) :
  forall a out j,
    spec a l = Ok out -> ORef j ∈ out -> a <= j < a + length l.
Proof.
  induction l as [| x | x y l IH1 IH2] using list_pair_ind;
    intros a out j Hout Hin.
  - injection Hout as <-. by apply elem_of_nil in Hin.
  - cbn in Hout. destruct (bool_decide _); injection Hout as <-;
      apply list_elem_of_singleton in Hin.
    + symmetry in Hin. apply simplified_ref in Hin. simpl. lia.
    + injection Hin as ->. simpl. lia.
  - rewrite topSpec_cons in Hout. cbn [length].
    destruct (bool_decide (segAt (path x) 0 = Key "paths")).
    + destruct (_ && _).
      * apply Result_bind_Ok in Hout as (pushed & Hp & Hout).
        apply Result_bind_Ok in Hout as (after & Ha & [= <-]).
        apply elem_of_app in Hin as [Hin|Hin];
          [by apply (renamePair_new _ _ _ _ _ Hp) in Hin|].
        apply (IH1 _ _ _ Ha) in Hin. lia.
      * apply Result_bind_Ok in Hout as (after & Ha & [= <-]).
        apply elem_of_cons in Hin as [Hin|Hin].
        -- symmetry in Hin. apply simplified_ref in Hin. lia.
        -- apply (IH2 _ _ _ Ha) in Hin. cbn [length] in Hin. lia.
    + apply Result_bind_Ok in Hout as (after & Ha & [= <-]).
      apply elem_of_cons in Hin as [Hin|Hin].
      * injection Hin as ->. lia.
      * apply (IH2 _ _ _ Ha) in Hin. cbn [length] in Hin. lia.
Qed.

(** Entries that come before an entry that is not a CREATE are processed
    as if they were alone. *)
Lemma topSpec_app (pre : list Difference) :
  forall a d l,
    type d <> CREATE ->
    spec a (pre ++ d :: l)
    = (before ← spec a pre;
       after ← spec (a + length pre) (d :: l);
       Ok (before ++ after)).
Proof.
  induction pre as [| x | x y pre IH1 IH2] using list_pair_ind;
    intros a d l Hd.
  - cbn [app length]. rewrite Nat.add_0_r.
    generalize (spec a (d :: l)). by intros [out|e].
  - change ([x] ++ d :: l) with (x :: d :: l).
    rewrite (topSpec_cons a x (d :: l)), (topSpec_cons a x []).
    cbn [length]. replace (a + 1) with (S a) by lia.
    rewrite (bool_decide_eq_false_2 (type d = CREATE)) by exact Hd.
    rewrite andb_false_r.
    destruct (bool_decide (segAt (path x) 0 = Key "paths"));
      cbn [mbind Result_bind topSpec];
      by destruct (spec (S a) (d :: l)).
  - change ((x :: y :: pre) ++ d :: l) with (x :: (y :: pre) ++ d :: l).
    rewrite (topSpec_cons a x ((y :: pre) ++ d :: l)),
      (topSpec_cons a x (y :: pre)).
    replace (a + length (x :: y :: pre)) with (S a + length (y :: pre))
      by (simpl; lia).
    destruct (bool_decide (segAt (path x) 0 = Key "paths")).
    + cbn [app]. destruct (_ && _).
      * rewrite IH1 by exact Hd.
        replace (S a + length (y :: pre)) with (S (S a) + length pre)
          by (simpl; lia).
        results; try reflexivity. by rewrite app_assoc.
      * change (y :: pre ++ d :: l) with ((y :: pre) ++ d :: l).
        rewrite IH2 by exact Hd. by results.
    + rewrite IH2 by exact Hd. by results.
Qed.

(** What the entries resolve to does not depend on where the list sits in
    the array. *)
Lemma topSpec_resolve (l : list Difference) :
  forall a a' (d d' : list Difference),
    (forall k, k < length l -> d !! (a + k) = d' !! (a' + k)) ->
    (omap (resolve d) : list Out -> list Difference) <$> spec a l
    = (omap (resolve d') : list Out -> list Difference) <$> spec a' l.
Proof.
  assert (Hsimp : forall a a' (d d' : list Difference) x,
             d !! a = d' !! a' ->
             resolve d (simplified a x) = resolve d' (simplified a' x)).
  { intros a a' d d' x Heq. unfold simplified.
    repeat (destruct (_ && _); [reflexivity|]). exact Heq. }
  assert (Hpair : forall (d d' : list Difference) x y pushed,
             renamePair microdiff self [] x y = Ok pushed ->
             omap (resolve d) pushed = omap (resolve d') pushed).
  { intros d d' x y pushed Hp. apply omap_ext_in.
    intros [j|e] Hin; [|reflexivity].
    by apply (renamePair_new _ _ _ _ _ Hp) in Hin. }
  induction l as [| x | x y l IH1 IH2] using list_pair_ind;
    intros a a' d d' Hk.
  - reflexivity.
  - specialize (Hk 0 ltac:(simpl; lia)). rewrite !Nat.add_0_r in Hk.
    cbn. destruct (bool_decide _); cbn.
    + by rewrite (Hsimp a a' d d' x Hk).
    + by rewrite Hk.
  - pose proof (Hk 0 ltac:(simpl; lia)) as H0. rewrite !Nat.add_0_r in H0.
    assert (Htail : forall k, k < length (y :: l) ->
               d !! (S a + k) = d' !! (S a' + k)).
    { intros k Hlt. specialize (Hk (S k) ltac:(simpl in *; lia)).
      by replace (a + S k) with (S a + k) in Hk by lia;
         replace (a' + S k) with (S a' + k) in Hk by lia. }
    assert (Htail2 : forall k, k < length l ->
               d !! (S (S a) + k) = d' !! (S (S a') + k)).
    { intros k Hlt. specialize (Hk (S (S k)) ltac:(simpl in *; lia)).
      by replace (a + S (S k)) with (S (S a) + k) in Hk by lia;
         replace (a' + S (S k)) with (S (S a') + k) in Hk by lia. }
    rewrite (topSpec_cons a x), (topSpec_cons a' x).
    destruct (bool_decide (segAt (path x) 0 = Key "paths")).
    + destruct (_ && _).
      * destruct (renamePair microdiff self [] x y) as [pushed|e] eqn:Hp;
          cbn [mbind Result_bind]; [|reflexivity].
        specialize (IH1 (S (S a)) (S (S a')) d d' Htail2).
        destruct (spec (S (S a)) l), (spec (S (S a')) l);
          cbn in IH1 |- *; try discriminate; [|congruence].
        injection IH1 as IH1.
        by rewrite !omap_app, (Hpair d d' x y pushed Hp), IH1.
      * specialize (IH2 (S a) (S a') d d' Htail).
        destruct (spec (S a) (y :: l)), (spec (S a') (y :: l));
          cbn in IH2 |- *; try discriminate; [|congruence].
        injection IH2 as IH2.
        by rewrite (Hsimp a a' d d' x H0), IH2.
    + specialize (IH2 (S a) (S a') d d' Htail).
      destruct (spec (S a) (y :: l)), (spec (S a') (y :: l));
        cbn in IH2 |- *; try discriminate; [|congruence].
      injection IH2 as IH2.
      cbn [resolve]. by rewrite H0, IH2.
Qed.

End CombineTop.

Lemma resolve_simplified (a : list Difference) (i : nat) (d : Difference) :
  a !! i = Some d -> resolve a (simplified i d) = Some (simplifiedEntry d).
Proof.
  intros Hd. unfold simplified, simplifiedEntry.
  repeat (destruct (_ && _); [reflexivity|]). exact Hd.
Qed.

Lemma omap_resolve_new (a : list Difference) (l : list Difference) :
  omap (resolve a) (ONew <$> l) = l.
Proof. induction l as [|d l IH]; [reflexivity|]. cbn. by rewrite IH. Qed.

Section CombineProperties.
Variable microdiff : Value -> Value -> Result (list Difference).

(** The loop of a nested call reads neither the diff function nor the
    recursive call. *)
Lemma combineLoop_nested_indep
    (md' : Value -> Value -> Result (list Difference))
    (self self' : list Difference -> list PathSeg -> Result (list Difference))
    (diff : list Difference) (p : PathSeg) (ps : list PathSeg) :
  combineLoop microdiff self diff (p :: ps)
  = combineLoop md' self' diff (p :: ps).
Proof. reflexivity. Qed.

(** A call without prefix makes its recursive calls with a prefix that is
    not empty. *)
Lemma topSpec_self_ext
    (self self' : list Difference -> list PathSeg -> Result (list Difference))
    (l : list Difference) :
  (forall d p ps, self d (p :: ps) = self' d (p :: ps)) ->
  forall a, topSpec microdiff self a l = topSpec microdiff self' a l.
Proof.
  intros Hself.
  assert (Hpair : forall r c, renamePair microdiff self [] r c
                              = renamePair microdiff self' [] r c).
  { intros r c. unfold renamePair. cbn [app].
    destruct (microdiff _ _) as [[|d ds]|e]; cbn [mbind Result_bind];
      try reflexivity.
    by rewrite Hself. }
  induction l as [| x | x y l IH1 IH2] using list_pair_ind; intros a.
  - reflexivity.
  - reflexivity.
  - rewrite !(topSpec_cons _ _ a x).
    by rewrite Hpair, IH1, IH2.
Qed.

Lemma combineRenameDiffs_top (diff : list Difference) :
  combineRenameDiffs microdiff diff []
  = (omap (resolve diff) : list Out -> list Difference)
      <$> topSpec microdiff (combineNested microdiff) 0 diff.
Proof. apply returned_top. Qed.

(** The two definitions solve the recursive equation of the source: a call
    runs the loop with itself as the recursive call. *)
Lemma combineRenameDiffs_unfold (diff : list Difference)
    (pathPrefix : list PathSeg) :
  combineRenameDiffs microdiff diff pathPrefix
  = returned
      <$> combineLoop microdiff (combineRenameDiffs microdiff) diff pathPrefix.
Proof.
  destruct pathPrefix as [|p ps]; [|reflexivity].
  rewrite combineRenameDiffs_top, returned_top.
  f_equal. apply topSpec_self_ext. reflexivity.
Qed.

Lemma renamePair_entries (r c : Difference) :
  renamePair microdiff (combineNested microdiff) [] r c
  = (fun body => ONew <$> (keyChange r c ++ methodChange r c ++ body))
      <$> bodyChanges microdiff r c.
Proof.
  unfold renamePair, bodyChanges.
  assert (Hrn : forall body : list Difference,
             ((if bool_decide (segAt (path r) 1 = segAt (path c) 1) then []
               else [ONew {| type := CHANGE;
                             path := [Key "paths"; Key "path"];
                             value := segValue (segAt (path c) 1);
                             oldValue := segValue (segAt (path r) 1) |}])
              ++ (if segTruthy (segAt (path r) 2)
                     && segTruthy (segAt (path c) 2)
                     && negb (bool_decide (segAt (path r) 2
                                           = segAt (path c) 2))
                  then [ONew {| type := CHANGE;
                                path := [Key "paths"; segAt (path c) 1;
                                         Key "method"];
                                value := segValue (segAt (path c) 2);
                                oldValue := segValue (segAt (path r) 2) |}]
                  else []))
             ++ (ONew <$> body)
             = ONew <$> (keyChange r c ++ methodChange r c ++ body)).
  { intros body. unfold keyChange, methodChange, methodsDiffer.
    rewrite !fmap_app, <- app_assoc. f_equal; [|f_equal].
    - by destruct (bool_decide _).
    - by destruct (_ && _). }
  destruct (microdiff _ _) as [[|d ds]|e]; cbn [mbind Result_bind fmap Result_fmap];
    [|fold (methodsDiffer r c)|reflexivity].
  - by rewrite <- (Hrn []), app_nil_r.
  - match goal with
    | |- context [combineNested microdiff (d :: ds) ?pre] =>
        change (combineNested microdiff (d :: ds) pre)
          with (combineRenameDiffs microdiff (d :: ds) pre);
        destruct (combineRenameDiffs microdiff (d :: ds) pre) as [inner|e]
    end; cbn [mbind Result_bind fmap Result_fmap]; [|reflexivity].
    fold (methodsDiffer r c) in Hrn. by rewrite <- Hrn.
Qed.

(** What the loop pushes for a list with a REMOVE of the operations section
    that a CREATE follows. *)
Lemma topSpec_pair (pre post : list Difference) (r c : Difference) :
  type r = REMOVE ->
  segAt (path r) 0 = Key "paths" ->
  type c = CREATE ->
  topSpec microdiff (combineNested microdiff) 0 (pre ++ r :: c :: post)
  = (before ← topSpec microdiff (combineNested microdiff) 0 pre;
     body ← bodyChanges microdiff r c;
     after ← topSpec microdiff (combineNested microdiff)
               (S (S (length pre))) post;
     Ok (before
         ++ (ONew <$> (keyChange r c ++ methodChange r c ++ body))
         ++ after)).
Proof.
  intros Hr Hp Hc.
  rewrite topSpec_app by (rewrite Hr; discriminate).
  rewrite (topSpec_cons _ _ (0 + length pre) r), Hp, Hr, Hc.
  rewrite !bool_decide_eq_true_2 by reflexivity. cbn [andb].
  rewrite renamePair_entries.
  destruct (topSpec _ _ 0 pre); cbn [mbind Result_bind]; [|reflexivity].
  destruct (bodyChanges microdiff r c);
    cbn [mbind Result_bind fmap Result_fmap]; [|reflexivity].
  by destruct (topSpec _ _ _ post).
Qed.

Lemma returned_pair (pre post : list Difference) (r c : Difference) :
  type r = REMOVE ->
  segAt (path r) 0 = Key "paths" ->
  type c = CREATE ->
  combineRenameDiffs microdiff (pre ++ r :: c :: post) []
  = (before ← combineRenameDiffs microdiff pre [];
     body ← bodyChanges microdiff r c;
     after ← combineRenameDiffs microdiff post [];
     Ok (before ++ keyChange r c ++ methodChange r c ++ body ++ after)).
Proof.
  intros Hr Hp Hc.
  rewrite !combineRenameDiffs_top, (topSpec_pair pre post r c Hr Hp Hc).
  pose proof (topSpec_resolve microdiff (combineNested microdiff) pre
                0 0 (pre ++ r :: c :: post) pre) as Hpre.
  pose proof (topSpec_resolve microdiff (combineNested microdiff) post
                (S (S (length pre))) 0 (pre ++ r :: c :: post) post) as Hpost.
  assert (Hpre' : forall k, k < length pre ->
             (pre ++ r :: c :: post) !! (0 + k) = pre !! (0 + k)).
  { intros k Hk. by rewrite lookup_app_l. }
  assert (Hpost' : forall k, k < length post ->
             (pre ++ r :: c :: post) !! (S (S (length pre)) + k)
             = post !! (0 + k)).
  { intros k Hk. rewrite lookup_app_r by lia.
    by replace (S (S (length pre)) + k - length pre) with (S (S k)) by lia. }
  specialize (Hpre Hpre'). specialize (Hpost Hpost'). clear Hpre' Hpost'.
  destruct (topSpec _ _ 0 pre) as [before|e];
    cbn [mbind Result_bind fmap Result_fmap] in Hpre |- *; [|reflexivity].
  destruct (bodyChanges microdiff r c) as [body|e];
    cbn [mbind Result_bind fmap Result_fmap]; [|reflexivity].
  destruct (topSpec _ _ (S (S (length pre))) post) as [after|e],
    (topSpec _ _ 0 post) as [after'|e'];
    cbn [mbind Result_bind fmap Result_fmap] in Hpost |- *;
    try discriminate; [|exact Hpost].
  injection Hpre as Hpre. injection Hpost as Hpost.
  rewrite !omap_app, omap_resolve_new, Hpre, Hpost.
  by rewrite <- !app_assoc.
Qed.

(** The CREATE object of a pair is not among the objects that the call
    pushes. *)
Lemma create_not_pushed (pre post : list Difference) (r c : Difference)
    (st : LoopState) :
  type r = REMOVE ->
  segAt (path r) 0 = Key "paths" ->
  type c = CREATE ->
  combineRenameDiffs_state microdiff (pre ++ r :: c :: post) [] = Ok st ->
  ORef (S (length pre)) ∉ combined st.
Proof.
  intros Hr Hp Hc Hst.
  pose proof (combineLoop_top microdiff (combineNested microdiff)
                (pre ++ r :: c :: post)) as Htop.
  unfold combineRenameDiffs_state in Hst. rewrite Hst in Htop. cbn in Htop.
  rewrite (topSpec_pair pre post r c Hr Hp Hc) in Htop.
  destruct (topSpec _ _ 0 pre) as [before|e] eqn:Hb; [|discriminate].
  destruct (bodyChanges microdiff r c) as [body|e]; [|discriminate].
  destruct (topSpec _ _ (S (S (length pre))) post) as [after|e] eqn:Ha;
    [|discriminate].
  cbn in Htop. injection Htop as _ ->.
  rewrite !elem_of_app. intros [Hin|[Hin|Hin]].
  - apply (topSpec_refs _ _ _ _ _ _ Hb) in Hin. lia.
  - apply list_elem_of_fmap in Hin as (d & Hd & _). discriminate.
  - apply (topSpec_refs _ _ _ _ _ _ Ha) in Hin. lia.
Qed.

(** C2, as stated, fails in two ways.  The code tests the method keys for
    truthiness, so the first pair below, whose method keys are both there
    and differ, yields no CHANGE entry.  And the code takes any REMOVE that
    a CREATE follows for a rename, whatever the depth of their paths: the
    second pair is a field removed and another added, the diff function is
    called on their two strings, and the call throws. *)
Lemma combineRenameDiffs_empty_method_key :
  ([Key "paths"; Key "/a"; Key ""] !! 2 = Some (Key "")
   /\ [Key "paths"; Key "/a"; Key "get"] !! 2 = Some (Key "get")
   /\ Key "" <> Key "get"
   /\ combineRenameDiffs microdiffRef
        [ {| type := REMOVE; path := [Key "paths"; Key "/a"; Key ""];
             value := VUndefined; oldValue := VObject [] |};
          {| type := CREATE; path := [Key "paths"; Key "/a"; Key "get"];
             value := VObject []; oldValue := VUndefined |} ] []
      = Ok [])
  /\ combineRenameDiffs microdiffRef
       [ {| type := REMOVE;
            path := [Key "paths"; Key "/a"; Key "get"; Key "summary"];
            value := VUndefined; oldValue := VString "x" |};
         {| type := CREATE;
            path := [Key "paths"; Key "/a"; Key "get"; Key "description"];
            value := VString "y"; oldValue := VUndefined |} ] []
     = Throw TypeError.
Proof. repeat split; try reflexivity. discriminate. Qed.

(** C2 (amended): a REMOVE of the operations section that a CREATE follows
    is replaced, in place, by the CHANGE of the path key when the two path
    keys differ, then the CHANGE of the method when both method keys are
    truthy and differ, then the entries of the nested call on the bodies,
    provided that the diff of the two bodies returns; the call throws when
    that diff throws, or when the entries before or after the pair make it
    throw.  The CREATE object itself is never pushed. *)
Theorem combineRenameDiffs_rename_pair (pre post : list Difference)
    (r c : Difference) :
  type r = REMOVE ->
  segAt (path r) 0 = Key "paths" ->
  type c = CREATE ->
  combineRenameDiffs microdiff (pre ++ r :: c :: post) []
  = (before ← combineRenameDiffs microdiff pre [];
     body ← bodyChanges microdiff r c;
     after ← combineRenameDiffs microdiff post [];
     Ok (before ++ keyChange r c ++ methodChange r c ++ body ++ after))
  /\ (forall st,
         combineRenameDiffs_state microdiff (pre ++ r :: c :: post) [] = Ok st ->
         ORef (S (length pre)) ∉ combined st).
Proof.
  intros Hr Hp Hc. split; [by apply returned_pair|].
  intros st. by apply create_not_pushed.
Qed.



Lemma renamePair_nested
    (self : list Difference -> list PathSeg -> Result (list Difference))
    (p : PathSeg) (ps : list PathSeg) (r c : Difference) :
  renamePair microdiff self (p :: ps) r c
  = Ok (ONew <$> (keyChange r c ++ methodChange r c)).
Proof.
  unfold renamePair, keyChange, methodChange, methodsDiffer.
  rewrite fmap_app. f_equal. f_equal.
  - by destruct (bool_decide _).
  - by destruct (_ && _).
Qed.

Lemma nestedSpec_pending (pathPrefix : list PathSeg) (y : Difference)
    (rest : list Difference) :
  nestedSpec pathPrefix id (prefixPath pathPrefix y :: rest)
  = nestedSpec pathPrefix (prefixPath pathPrefix) (y :: rest).
Proof. reflexivity. Qed.

Lemma nestedArr_pending (pathPrefix : list PathSeg) (y : Difference)
    (rest : list Difference) :
  nestedArr pathPrefix id (prefixPath pathPrefix y :: rest)
  = nestedArr pathPrefix (prefixPath pathPrefix) (y :: rest).
Proof. reflexivity. Qed.

(** The loop of a call with a prefix, from index [a] on: it does not throw,
    it returns what [nestedSpec] lists, and it leaves in the array what
    [nestedArr] lists. *)
Lemma loop_nested
    (self : list Difference -> list PathSeg -> Result (list Difference))
    (p : PathSeg) (ps : list PathSeg) (n : nat) :
  forall a st,
    a + n = length (arr st) ->
    (forall j, ORef j ∈ combined st -> j < a) ->
    let from := if skipNext st then S a else a in
    exists fin,
      runLoop microdiff self (p :: ps) (seq a n) st = Ok fin
      /\ returned fin
         = returned st ++ nestedSpec (p :: ps) id (drop from (arr st))
      /\ arr fin
         = take from (arr st) ++ nestedArr (p :: ps) id (drop from (arr st)).
Proof.
  induction n as [|n IH]; intros a st Hlen Hrefs from.
  - cbn [seq runLoop foldM]. exists st. split; [reflexivity|].
    unfold from. destruct (skipNext st);
      rewrite !drop_ge, !take_ge by lia; by rewrite !app_nil_r.
  - cbn [seq runLoop foldM].
    change (foldM (step microdiff self (p :: ps)) (seq (S a) n))
      with (runLoop microdiff self (p :: ps) (seq (S a) n)).
    assert (Hold : forall a2 : list Difference,
               (forall j, j < a -> a2 !! j = arr st !! j) ->
               omap (resolve a2) (combined st) = returned st).
    { intros a2 Ha2. unfold returned. apply omap_ext_in.
      intros [j|e] Hin; [|reflexivity]. cbn. apply Ha2. by apply Hrefs. }
    unfold step at 1. unfold from. destruct (skipNext st) eqn:Hskip.
    { cbn [mbind Result_bind].
      destruct (IH (S a) (mkLoop (arr st) (combined st) false))
        as (fin & Hrun & Hret & Harr); cbn [arr combined skipNext];
        [lia | intros j Hj; apply Hrefs in Hj; lia |].
      exists fin. by repeat split. }
    destruct (lookup_lt_is_Some_2 (arr st) a) as [x Hx]; [lia|].
    set (pp := prefixPath (p :: ps)).
    set (a2 := alter pp (a + 1) (alter pp a (arr st))).
    assert (Hlen2 : length a2 = length (arr st))
      by (unfold a2; by rewrite !length_alter).
    assert (Ha2 : a2 !! a = Some (pp x)).
    { unfold a2. rewrite list_lookup_alter_ne by lia.
      by rewrite list_lookup_alter_eq, Hx. }
    assert (Hnext : a2 !! (a + 1) = pp <$> arr st !! (a + 1)).
    { unfold a2. rewrite list_lookup_alter_eq.
      by rewrite list_lookup_alter_ne by lia. }
    assert (Hbefore : forall j, j < a -> a2 !! j = arr st !! j).
    { intros j Hj. unfold a2. by rewrite !list_lookup_alter_ne by lia. }
    assert (Htake : take a a2 = take a (arr st)).
    { unfold a2. by rewrite !take_alter_ge by lia. }
    assert (Hafter : drop (S (S a)) a2 = drop (S (S a)) (arr st)).
    { unfold a2. by rewrite !drop_alter_lt by lia. }
    rewrite Ha2, Hnext, (drop_S _ _ _ Hx).
    replace (a + 1) with (S a) in * by lia.
    unfold classify, simplify, nextIsCreate.
    destruct (arr st !! S a) as [y|] eqn:Hy; cbn [fmap option_fmap option_map].
    + rewrite (drop_S _ _ _ Hy).
      assert (Hty : type (pp y) = type y) by reflexivity.
      assert (Ha2y : a2 !! S a = Some (pp y)).
      { unfold a2. replace (a + 1) with (S a) by lia.
        rewrite list_lookup_alter_eq.
        by rewrite list_lookup_alter_ne, Hy by lia. }
      assert (Hdrop : drop (S a) a2 = pp y :: drop (S (S a)) (arr st)).
      { rewrite <- Hafter. by apply drop_S. }
      assert (Htake1 : take (S a) a2 = take a (arr st) ++ [pp x]).
      { by rewrite (take_S_r _ _ _ Ha2), Htake. }
      cbn [nestedSpec nestedArr]. fold pp. change (id x) with x. rewrite Hty.
      destruct (bool_decide (type (pp x) = REMOVE)
                && bool_decide (type y = CREATE)).
      * rewrite renamePair_nested. cbn [mbind Result_bind].
        destruct (IH (S a) (push (mkLoop a2 (combined st) false)
                              (ONew <$> (keyChange (pp x) (pp y)
                                         ++ methodChange (pp x) (pp y)))
                              true))
          as (fin & Hrun & Hret & Harr);
          unfold push; cbn [arr combined skipNext]; [lia | |].
        { intros j Hj. apply elem_of_app in Hj as [Hj|Hj].
          - apply Hrefs in Hj. lia.
          - apply list_elem_of_fmap in Hj as (d & Hd & _). discriminate. }
        exists fin. split; [exact Hrun|].
        unfold push in Hret, Harr. cbn [arr combined skipNext] in Hret, Harr.
        split.
        -- rewrite Hret, Hafter. unfold returned at 1. cbn [arr combined].
           rewrite omap_app, (Hold a2 Hbefore), omap_resolve_new.
           by rewrite <- !app_assoc.
        -- rewrite Harr, Hafter, (take_S_r _ _ _ Ha2y), Htake1.
           by rewrite <- !app_assoc.
      * cbn [mbind Result_bind].
        destruct (IH (S a) (push (mkLoop a2 (combined st) false)
                              [simplified a (pp x)] false))
          as (fin & Hrun & Hret & Harr);
          unfold push; cbn [arr combined skipNext]; [lia | |].
        { intros j Hj. apply elem_of_app in Hj as [Hj|Hj].
          - apply Hrefs in Hj. lia.
          - apply list_elem_of_singleton in Hj. symmetry in Hj.
            apply simplified_ref in Hj. lia. }
        exists fin. split; [exact Hrun|].
        unfold push in Hret, Harr. cbn [arr combined skipNext] in Hret, Harr.
        split.
        -- rewrite Hret, Hdrop, nestedSpec_pending. unfold returned at 1.
           cbn [arr combined]. rewrite omap_app, (Hold a2 Hbefore).
           cbn [omap list_omap]. rewrite (resolve_simplified a2 a (pp x) Ha2).
           by rewrite <- app_assoc.
        -- rewrite Harr, Hdrop, nestedArr_pending, Htake1.
           by rewrite <- app_assoc.
    + rewrite (drop_ge (arr st) (S a)) by (by apply lookup_ge_None).
      cbn [nestedSpec nestedArr mbind Result_bind]. fold pp.
      change (id x) with x.
      destruct (IH (S a) (push (mkLoop a2 (combined st) false)
                            [simplified a (pp x)] false))
        as (fin & Hrun & Hret & Harr);
        unfold push; cbn [arr combined skipNext]; [lia | |].
      { intros j Hj. apply elem_of_app in Hj as [Hj|Hj].
        - apply Hrefs in Hj. lia.
        - apply list_elem_of_singleton in Hj. symmetry in Hj.
          apply simplified_ref in Hj. lia. }
      exists fin. split; [exact Hrun|].
      unfold push in Hret, Harr. cbn [arr combined skipNext] in Hret, Harr.
      apply lookup_ge_None in Hy.
      rewrite (drop_ge a2 (S a)) in Hret, Harr by lia.
      cbn [nestedSpec nestedArr] in Hret, Harr.
      rewrite app_nil_r in Hret, Harr. split.
      * rewrite Hret. unfold returned at 1. cbn [arr combined].
        rewrite omap_app, (Hold a2 Hbefore). cbn [omap list_omap].
        by rewrite (resolve_simplified a2 a (pp x) Ha2).
      * by rewrite Harr, (take_S_r _ _ _ Ha2), Htake.
Qed.

(** A call with a prefix does not throw: it returns what [nestedSpec]
    lists and leaves in its input what [nestedArr] lists. *)
Lemma combineLoop_nested
    (self : list Difference -> list PathSeg -> Result (list Difference))
    (diff : list Difference) (p : PathSeg) (ps : list PathSeg) :
  exists fin,
    combineLoop microdiff self diff (p :: ps) = Ok fin
    /\ returned fin = nestedSpec (p :: ps) id diff
    /\ arr fin = nestedArr (p :: ps) id diff.
Proof.
  unfold combineLoop.
  destruct (loop_nested self p ps (length diff) 0 (mkLoop diff [] false))
    as (fin & Hrun & Hret & Harr); cbn [arr combined skipNext];
    [lia | intros j Hj; by apply elem_of_nil in Hj |].
  exists fin. by repeat split.
Qed.

Lemma combineRenameDiffs_nested (diff : list Difference) (p : PathSeg)
    (ps : list PathSeg) :
  combineRenameDiffs microdiff diff (p :: ps)
  = Ok (nestedSpec (p :: ps) id diff).
Proof.
  unfold combineRenameDiffs, combineRenameDiffs_state.
  destruct (combineLoop_nested (combineNested microdiff) diff p ps)
    as (fin & -> & <- & _).
  reflexivity.
Qed.

(** What [nestedArr] lists for an entry is the entry with the prefix put
    once or twice in front of its path. *)
Lemma nestedArr_prefixed (pathPrefix : list PathSeg) (l : list Difference) :
  forall pending : Difference -> Difference,
    (forall x, sameButPath x (pending x)
               /\ (path (pending x) = path x
                   \/ path (pending x) = pathPrefix ++ path x)) ->
    Forall2 (prefixedEntry pathPrefix) l (nestedArr pathPrefix pending l).
Proof.
  assert (Hid : forall x : Difference,
             sameButPath x (id x)
             /\ (path (id x) = path x
                 \/ path (id x) = pathPrefix ++ path x)).
  { intros x. by repeat split; [..|left]. }
  assert (Hpp : forall x : Difference,
             sameButPath x (prefixPath pathPrefix x)
             /\ (path (prefixPath pathPrefix x) = path x
                 \/ path (prefixPath pathPrefix x) = pathPrefix ++ path x)).
  { intros x. by repeat split; [..|right]. }
  assert (Hcur : forall (pending : Difference -> Difference) x,
             (forall x, sameButPath x (pending x)
                        /\ (path (pending x) = path x
                            \/ path (pending x) = pathPrefix ++ path x)) ->
             prefixedEntry pathPrefix x (prefixPath pathPrefix (pending x))).
  { intros pending x Hpend. destruct (Hpend x) as [(Ht & Hv & Ho) Hpath].
    split; [by repeat split|]. cbn [path prefixPath setPath].
    destruct Hpath as [-> | ->]; [by left | by right]. }
  induction l as [| x | x y l IH1 IH2] using list_pair_ind;
    intros pending Hpend.
  - constructor.
  - cbn [nestedArr]. constructor; [by apply Hcur | constructor].
  - cbn [nestedArr]. destruct (_ && _).
    + constructor; [by apply Hcur|].
      constructor; [apply (Hcur id y Hid) | by apply IH1].
    + constructor; [by apply Hcur | by apply IH2].
Qed.

(** C9, as stated, fails for a prefix that is not empty: the loop
    overwrites the [path] of the entries of its input. *)
Lemma combineRenameDiffs_prefix_mutates_input :
  exists st,
    combineRenameDiffs_state microdiffRef
      [ {| type := CREATE; path := [Key "summary"];
           value := VString "x"; oldValue := VUndefined |} ]
      [Key "paths"; Key "/a"]
    = Ok st
    /\ arr st
       <> [ {| type := CREATE; path := [Key "summary"];
               value := VString "x"; oldValue := VUndefined |} ].
Proof. eexists. split; [reflexivity | discriminate]. Qed.

(** C9 (amended): a call without prefix leaves its input array as it was:
    every state its loop reaches, the one it returns in included, holds the
    input.  A call with a prefix does not throw and puts the prefix once or
    twice in front of the path of every entry of its input, whose type,
    value and old value it leaves as they were. *)
Theorem combineRenameDiffs_input (diff : list Difference) :
  (forall k st,
      runLoop microdiff (combineNested microdiff) [] (seq 0 k)
        (mkLoop diff [] false) = Ok st ->
      arr st = diff)
  /\ (forall p ps,
         exists st,
           combineRenameDiffs_state microdiff diff (p :: ps) = Ok st
           /\ arr st = nestedArr (p :: ps) id diff
           /\ Forall2 (prefixedEntry (p :: ps)) diff (arr st)).
Proof.
  split.
  - intros k st Hrun. by apply runLoop_top_arr in Hrun.
  - intros p ps. unfold combineRenameDiffs_state.
    destruct (combineLoop_nested (combineNested microdiff) diff p ps)
      as (fin & Hrun & _ & Harr).
    exists fin. split; [exact Hrun|]. split; [exact Harr|].
    rewrite Harr. apply nestedArr_prefixed. intros x.
    by repeat split; [..|left].
Qed.

End CombineProperties.

(** ** The reference diff on structurally equal values *)








(** ** The reference validation is sound *)

(** Induction on a schema, with the hypothesis for every schema of a shape
    and of a list of options. *)
Lemma ZodSchema_nested_ind (P : ZodSchema -> Prop) :
  P ZodAny -> P ZodString -> P ZodNumber -> P ZodBoolean ->
  (forall v, P (ZodLiteral v)) ->
  (forall shape,
      Forall (fun kf : string * ZodSchema => P kf.2) shape ->
      P (ZodObject shape)) ->
  (forall element, P element -> P (ZodArray element)) ->
  (forall valueSchema, P valueSchema -> P (ZodRecord valueSchema)) ->
  (forall options, Forall P options -> P (ZodUnion options)) ->
  (forall d options, Forall P options -> P (ZodDiscriminatedUnion d options)) ->
  (forall inner, P inner -> P (ZodOptional inner)) ->
  (forall innerType d, P innerType -> P (ZodDefault innerType d)) ->
  (forall member, P (Inherited member)) ->
  forall schema, P schema.
Proof.
  intros HAny HStr HNum HBool HLit HObj HArr HRec HUn HDis HOpt HDef HInh.
  fix IH 1.
  intros [ | | | | v | shape | e | e | options | d options | i | i d | m].
  - exact HAny.
  - exact HStr.
  - exact HNum.
  - exact HBool.
  - apply HLit.
  - apply HObj. induction shape as [|[k f] shape IHs]; constructor.
    + apply IH.
    + exact IHs.
  - apply HArr, IH.
  - apply HRec, IH.
  - apply HUn. induction options as [|o options IHo]; constructor.
    + apply IH.
    + exact IHo.
  - apply HDis. induction options as [|o options IHo]; constructor.
    + apply IH.
    + exact IHo.
  - apply HOpt, IH.
  - apply HDef, IH.
  - apply HInh.
Qed.

Lemma zodSafeParseRef_sound (schema : ZodSchema) :
  forall data v, zodSafeParseRef schema data = Some v -> zodSatisfies schema v.
Proof.
  induction schema
    as [ | | | | l | shape IH | e IH | e IH | options IH | d options IH
       | inner IH | inner d IH | m ] using ZodSchema_nested_ind;
    intros data v Hp; cbn [zodSafeParseRef] in Hp.
  - exact I.
  - destruct data; try discriminate. injection Hp as <-. by eexists.
  - destruct data; try discriminate. injection Hp as <-. by eexists.
  - destruct data; try discriminate. injection Hp as <-. by eexists.
  - cbn. destruct (strictEq l data) eqn:Heq; [|discriminate].
    by injection Hp as <-.
  - destruct data as [ | | | | | |fields]; try discriminate.
    apply fmap_Some in Hp as (out & Hout & ->).
    exists out. split; [reflexivity|].
    revert out Hout. induction IH as [|[k f] shape Hf _ IHs]; intros out Hout.
    + by injection Hout as <-.
    + destruct (zodSafeParseRef f _) as [w|] eqn:Hw; [|discriminate].
      apply Hf in Hw.
      match type of Hout with
      | match ?g with _ => _ end = _ => destruct g as [rest|] eqn:Hrest
      end; [|discriminate].
      specialize (IHs rest eq_refl). injection Hout as <-.
      destruct w; try (right; eexists _, rest; by repeat split).
      left. by split.
  - destruct data as [ | | | | |items| ]; try discriminate.
    apply fmap_Some in Hp as (out & Hout & ->).
    exists out. split; [reflexivity|].
    revert out Hout. induction items as [|x items IHi]; intros out Hout.
    + injection Hout as <-. constructor.
    + destruct (zodSafeParseRef e x) as [w|] eqn:Hw; [|discriminate].
      match type of Hout with
      | match ?g with _ => _ end = _ => destruct g as [rest|] eqn:Hrest
      end; [|discriminate].
      injection Hout as <-. constructor; [by eapply IH | by apply IHi].
  - destruct data as [ | | | | | |fields]; try discriminate.
    apply fmap_Some in Hp as (out & Hout & ->).
    exists out. split; [reflexivity|].
    revert out Hout. induction fields as [|[k x] fields IHf]; intros out Hout.
    + injection Hout as <-. constructor.
    + destruct (zodSafeParseRef e x) as [w|] eqn:Hw; [|discriminate].
      match type of Hout with
      | match ?g with _ => _ end = _ => destruct g as [rest|] eqn:Hrest
      end; [|discriminate].
      injection Hout as <-. constructor; [by eapply IH | by apply IHf].
  - cbn [zodSatisfies].
    induction IH as [|o options Ho _ IHo]; [discriminate|].
    destruct (zodSafeParseRef o data) as [w|] eqn:Hw.
    + injection Hp as <-. left. by eapply Ho.
    + right. by apply IHo.
  - cbn [zodSatisfies].
    induction IH as [|o options Ho _ IHo]; [discriminate|].
    destruct (zodSafeParseRef o data) as [w|] eqn:Hw.
    + injection Hp as <-. left. by eapply Ho.
    + right. by apply IHo.
  - cbn [zodSatisfies]. destruct data; try (right; by eapply IH).
    injection Hp as <-. by left.
  - cbn [zodSatisfies]. destruct data; by eapply IH.
  - discriminate.
Qed.

(** The validation of the reference instance, as the call of [safeParse]. *)
Lemma safeParseRef_sound (schema : ZodSchema) (data v : Value) :
  @safeParse Ref.externals schema data = Ok (Some v) ->
  zodSatisfies schema v.
Proof.
  intros Hp. apply (zodSafeParseRef_sound schema data).
  apply safeParse_Ok in Hp as [_ Hp]. exact Hp.
Qed.
(** ** Invalid values in the payload builders *)


Section PayloadValidation.
Context `{Externals}.





Lemma findRequest_ok (collection : Collection)
    (requests : gmap string Request) (path' method : PathSeg) :
  Forall (fun uid => is_Some (requests !! uid))
         (collection_requests collection) ->
  exists r,
    findResource (collection_requests collection) requests
      (samePathAndMethod path' method) = Ok r.
Proof.
  intros Hall. eexists.
  apply (findResource_present _ _ _
           (fun r => stringIs (request_path r) path'
                     && stringIs (request_method r) method));
    [reflexivity | exact Hall].
Qed.







End PayloadValidation.

(** ** The statements above at concrete inputs *)

Lemma narrowUnionSchema_first_variant_witness :
  Unwrapped MoreSamples.wrappedScheme Ref.securityScheme
  /\ narrowUnionSchema MoreSamples.wrappedScheme "type" (VString "http")
     = Some MoreSamples.httpVariant.
Proof.
  assert (Hcore : Unwrapped MoreSamples.wrappedScheme Ref.securityScheme).
  { do 2 constructor. by apply Unwrapped_core. }
  split; [exact Hcore|].
  destruct (narrowUnionSchema_first_variant MoreSamples.wrappedScheme
              Ref.securityScheme "type" (VString "http") Hcore) as [Hsome _].
  apply Hsome.
  exists [ZodObject [("type", ZodLiteral (VString "apiKey")); Ref.uid;
                     ("nameKey", ZodDefault ZodString (VString ""));
                     ("name", ZodString); ("in", ZodString)]],
    [ZodObject [("type", ZodLiteral (VString "oauth2")); Ref.uid;
                ("nameKey", ZodDefault ZodString (VString ""));
                ("flow", ZodOptional Ref.oauthFlow)]].
  split; [constructor|]. split.
  - by eexists _, _.
  - constructor; [|constructor].
    intros (shape & l & [= <-] & [= <-] & Heq). discriminate.
Defined.

Lemma combineRenameDiffs_rename_pair_witness :
  combineRenameDiffs microdiffRef
    ([Samples.titleChange]
     ++ Samples.petsGet :: Samples.animalsPostEdited :: [Samples.newTag])
    []
  = (before ← combineRenameDiffs microdiffRef [Samples.titleChange] [];
     body ← bodyChanges microdiffRef Samples.petsGet
              Samples.animalsPostEdited;
     after ← combineRenameDiffs microdiffRef [Samples.newTag] [];
     Ok (before
         ++ keyChange Samples.petsGet Samples.animalsPostEdited
         ++ methodChange Samples.petsGet Samples.animalsPostEdited
         ++ body ++ after))
  /\ (forall st,
         combineRenameDiffs_state microdiffRef
           ([Samples.titleChange]
            ++ Samples.petsGet :: Samples.animalsPostEdited
               :: [Samples.newTag]) [] = Ok st ->
         ORef (S (length [Samples.titleChange])) ∉ combined st).
Proof. apply combineRenameDiffs_rename_pair; reflexivity. Defined.

(** The same pair, evaluated: the two renames, then the change of the
    summary under the new path and method. *)
Example rename_pair_evaluated :
  combineRenameDiffs microdiffRef
    [Samples.titleChange; Samples.petsGet; Samples.animalsPostEdited;
     Samples.newTag] []
  = Ok [Samples.titleChange;
        Samples.ch [Key "paths"; Key "path"]
          (VString "/pets") (VString "/animals");
        Samples.ch [Key "paths"; Key "/animals"; Key "method"]
          (VString "get") (VString "post");
        Samples.ch [Key "paths"; Key "/animals"; Key "post"; Key "summary"]
          (VString "x") (VString "y");
        Samples.newTag].
Proof. reflexivity. Qed.


(** The bodies of this pair have their fields in different orders. *)
Example pure_rename_evaluated :
  combineRenameDiffs microdiffRef
    [Samples.titleChange; Samples.petsGet; MoreSamples.animalsPostReordered;
     Samples.newTag] []
  = Ok [Samples.titleChange;
        Samples.ch [Key "paths"; Key "path"]
          (VString "/pets") (VString "/animals");
        Samples.ch [Key "paths"; Key "/animals"; Key "method"]
          (VString "get") (VString "post");
        Samples.newTag].
Proof. reflexivity. Qed.

Lemma combineRenameDiffs_input_witness :
  (forall st,
      combineRenameDiffs_state microdiffRef
        [Samples.petsGet; Samples.animalsPostEdited] [] = Ok st ->
      arr st = [Samples.petsGet; Samples.animalsPostEdited])
  /\ exists st,
       combineRenameDiffs_state microdiffRef
         [MoreSamples.summaryChange; MoreSamples.descriptionChange]
         [Key "paths"; Key "/b"]
       = Ok st
       /\ arr st
          = [Samples.ch [Key "paths"; Key "/b"; Key "get"; Key "summary"]
               (VString "x") (VString "y");
             Samples.ch [Key "paths"; Key "/b"; Key "paths"; Key "/b";
                         Key "get"; Key "description"]
               (VString "d") (VString "e")].
Proof.
  split.
  - destruct (combineRenameDiffs_input microdiffRef
                [Samples.petsGet; Samples.animalsPostEdited]) as [Htop _].
    apply (Htop 2).
  - destruct (combineRenameDiffs_input microdiffRef
                [MoreSamples.summaryChange; MoreSamples.descriptionChange])
      as [_ Hnested].
    destruct (Hnested (Key "paths") [Key "/b"]) as (st & Hst & Harr & _).
    exists st. split; [exact Hst|]. rewrite Harr. reflexivity.
Defined.

Lemma parseDiff_sound_witness :
  exists s,
    traverseZodSchema Ref.request [Key "summary"] = Some s
    /\ zodSatisfies s (VString "x").
Proof.
  destruct (@parseDiff_sound Ref.externals zodSatisfies safeParseRef_sound
              Ref.request
              (Samples.ch [Key "summary"] (VString "old") (VString "x")))
    as [Hs _].
  apply (Hs (mkParsed "summary" "" (VString "x"))).
  - reflexivity.
  - discriminate.
Defined.

Lemma diffToServerPayload_remove_variables_witness :
  @diffToServerPayload Ref.externals
    (Samples.rm [Key "servers"; Index 2; Key "variables"] (VObject []))
    Samples.coll Samples.servers
  = Ok (Some (PEdit (MUid "s2") (joinPath [Key "variables"]) (VObject []))).
Proof.
  apply (@diffToServerPayload_remove_variables Ref.externals _ _ _ 2
           [Key "variables"] "s2" (mkServer "s2")
           (ZodRecord
              (ZodObject [("enum", ZodOptional (ZodArray ZodString));
                          ("default", ZodOptional ZodString);
                          ("description", ZodOptional ZodString)])));
    reflexivity.
Defined.



(** * Further properties *)

(** ** The loop of the combiner, entry by entry *)

Section CombineEntries.
Variable microdiff : Value -> Value -> Result (list Difference).

Lemma topSpec_noRenamePair
    (self : list Difference -> list PathSeg -> Result (list Difference))
    (l : list Difference) :
  forall a (d : list Difference),
    noRenamePair l ->
    (forall k, k < length l -> d !! (a + k) = l !! k) ->
    (omap (resolve d) : list Out -> list Difference)
      <$> topSpec microdiff self a l
    = Ok (passed <$> l).
Proof.
  induction l as [|x rest IH]; intros a d Hno Hk; [reflexivity|].
  destruct Hno as [Hx Hrest].
  pose proof (Hk 0 ltac:(simpl; lia)) as H0. rewrite Nat.add_0_r in H0.
  assert (Htail : forall k, k < length rest -> d !! (S a + k) = rest !! k).
  { intros k Hlt. specialize (Hk (S k) ltac:(simpl; lia)).
    by replace (a + S k) with (S a + k) in Hk by lia. }
  specialize (IH (S a) d Hrest Htail).
  rewrite topSpec_cons, fmap_cons. unfold passed at 1.
  destruct (bool_decide (segAt (path x) 0 = Key "paths")) eqn:Hp.
  - apply bool_decide_eq_true_1 in Hp.
    destruct rest as [|y rest'].
    + cbn. by rewrite (resolve_simplified d a x H0).
    + destruct (bool_decide (type x = REMOVE) && bool_decide (type y = CREATE))
        eqn:Hpair.
      { apply andb_prop in Hpair as [Hr Hc].
        apply bool_decide_eq_true_1 in Hr, Hc. exfalso. by apply Hx. }
      destruct (topSpec microdiff self (S a) (y :: rest')) as [after|e];
        cbn [mbind Result_bind fmap Result_fmap] in IH |- *; [|discriminate].
      injection IH as IH. cbn [omap list_omap].
      by rewrite (resolve_simplified d a x H0), IH.
  - destruct (topSpec microdiff self (S a) rest) as [after|e];
      cbn [mbind Result_bind fmap Result_fmap] in IH |- *; [|discriminate].
    injection IH as IH. cbn [omap list_omap resolve].
    by rewrite H0, IH.
Qed.

(** X1: without a REMOVE of the operations section that a CREATE follows,
    a call without prefix does not throw and returns one entry per input
    entry, in order: the entry itself outside the operations section, and
    inside it the entry or the CHANGE copy of a deep CREATE or REMOVE whose
    last segment is not an index. *)
Theorem combineRenameDiffs_no_pair (diff : list Difference) :
  noRenamePair diff ->
  combineRenameDiffs microdiff diff [] = Ok (passed <$> diff).
Proof.
  intros Hno. rewrite combineRenameDiffs_top.
  apply topSpec_noRenamePair; [exact Hno|]. by intros k _.
Qed.

(** X2: a diff list with no entry in the operations section is returned
    unchanged by a call without prefix. *)
Theorem combineRenameDiffs_outside_paths (diff : list Difference) :
  Forall (fun d => segAt (path d) 0 <> Key "paths") diff ->
  combineRenameDiffs microdiff diff [] = Ok diff.
Proof.
  intros Hall. rewrite combineRenameDiffs_top.
  rewrite (topSpec_noRenamePair _ diff 0 diff).
  - f_equal. induction Hall as [|d l Hd _ IH]; [reflexivity|].
    rewrite fmap_cons, IH. unfold passed.
    by rewrite bool_decide_eq_false_2.
  - induction Hall as [|d l Hd _ IH]; [exact I|].
    split; [|exact IH]. destruct l; [exact I|]. intros [Hp _]. by apply Hd.
  - by intros k _.
Qed.

End CombineEntries.

Section CombineInvariants.
Variable microdiff : Value -> Value -> Result (list Difference).

Lemma nestedSpec_no_pair (pathPrefix : list PathSeg) (l : list Difference) :
  forall pending : Difference -> Difference,
    (forall x, type (pending x) = type x) ->
    noAdjacentPair l ->
    nestedSpec pathPrefix pending l
    = match l with
      | [] => []
      | x :: rest =>
          simplifiedEntry (prefixPath pathPrefix (pending x))
          :: ((fun y => simplifiedEntry
                          (prefixPath pathPrefix (prefixPath pathPrefix y)))
              <$> rest)
      end.
Proof.
  induction l as [|x rest IH]; intros pending Hty Hno; [reflexivity|].
  destruct Hno as [Hx Hrest]. destruct rest as [|y rest']; [reflexivity|].
  cbn [nestedSpec]. cbn [type prefixPath setPath]. rewrite Hty.
  destruct (bool_decide (type x = REMOVE) && bool_decide (type y = CREATE))
    eqn:Hpair.
  { apply andb_prop in Hpair as [Hr Hc].
    apply bool_decide_eq_true_1 in Hr, Hc. exfalso. by apply Hx. }
  f_equal. change (nestedSpec pathPrefix (prefixPath pathPrefix) (y :: rest')
                   = (fun y => simplifiedEntry
                                 (prefixPath pathPrefix
                                    (prefixPath pathPrefix y)))
                     <$> (y :: rest')).
  by rewrite (IH (prefixPath pathPrefix)).
Qed.

(** X3: in a call with a prefix, on a list in which no REMOVE is immediately
    followed by a CREATE, the path of the first entry is prefixed once and
    the path of every later entry twice: an iteration prefixes the current
    entry and the next one, which the following iteration prefixes again. *)
Theorem combineRenameDiffs_prefix_twice (d : Difference)
    (ds : list Difference) (p : PathSeg) (ps : list PathSeg) :
  noAdjacentPair (d :: ds) ->
  combineRenameDiffs microdiff (d :: ds) (p :: ps)
  = Ok (simplifiedEntry (prefixPath (p :: ps) d)
        :: ((fun y => simplifiedEntry
                        (prefixPath (p :: ps) (prefixPath (p :: ps) y)))
            <$> ds)).
Proof.
  intros Hno. rewrite combineRenameDiffs_nested.
  by rewrite (nestedSpec_no_pair (p :: ps) (d :: ds) id).
Qed.

Lemma simplifiedEntry_shallow (d : Difference) :
  shallowOrIndexed (simplifiedEntry d).
Proof.
  unfold simplifiedEntry, shallowOrIndexed.
  destruct (bool_decide (type d = CREATE) && _ && _) eqn:H1; [by left|].
  destruct (bool_decide (type d = REMOVE) && _ && _) eqn:H2; [by left|].
  destruct (3 <? length (path d))%nat eqn:Hlen;
    [|right; left; apply Nat.ltb_ge in Hlen; lia].
  destruct (lastNotNumber (path d)); [|right; by right].
  left. destruct (type d); [discriminate H1 | discriminate H2 | reflexivity].
Qed.

Lemma simplifiedEntry_path (d : Difference) :
  path (simplifiedEntry d) = path d.
Proof. unfold simplifiedEntry. by repeat destruct (_ && _). Qed.

Lemma keyChange_entry (r c e : Difference) :
  e ∈ keyChange r c -> type e = CHANGE /\ segAt (path e) 0 = Key "paths".
Proof.
  unfold keyChange. destruct (bool_decide _); intros Hin.
  - by apply elem_of_nil in Hin.
  - apply list_elem_of_singleton in Hin as ->. by split.
Qed.

Lemma methodChange_entry (r c e : Difference) :
  e ∈ methodChange r c -> type e = CHANGE /\ segAt (path e) 0 = Key "paths".
Proof.
  unfold methodChange. destruct (methodsDiffer r c); intros Hin.
  - apply list_elem_of_singleton in Hin as ->. by split.
  - by apply elem_of_nil in Hin.
Qed.

(** Every entry of a call with a prefix is a CHANGE, or short, or ends in an
    index; and its path starts with ['paths'] when the prefix does. *)
Lemma nestedSpec_entries (pathPrefix : list PathSeg) (l : list Difference) :
  forall (pending : Difference -> Difference) e,
    e ∈ nestedSpec pathPrefix pending l ->
    shallowOrIndexed e
    /\ (segAt pathPrefix 0 = Key "paths" -> pathPrefix <> [] ->
        segAt (path e) 0 = Key "paths").
Proof.
  assert (Hone : forall x e, e = simplifiedEntry (prefixPath pathPrefix x) ->
             shallowOrIndexed e
             /\ (segAt pathPrefix 0 = Key "paths" -> pathPrefix <> [] ->
                 segAt (path e) 0 = Key "paths")).
  { intros x e ->. split; [apply simplifiedEntry_shallow|].
    intros Hp Hne. rewrite simplifiedEntry_path. cbn [path prefixPath setPath].
    destruct pathPrefix as [|q qs]; [congruence|]. exact Hp. }
  induction l as [| x | x y l IH1 IH2] using list_pair_ind; intros pending e Hin.
  - by apply elem_of_nil in Hin.
  - cbn [nestedSpec] in Hin. apply list_elem_of_singleton in Hin.
    by apply (Hone (pending x)).
  - cbn [nestedSpec] in Hin.
    destruct (bool_decide _ && bool_decide _).
    + rewrite !elem_of_app in Hin. destruct Hin as [Hin|[Hin|Hin]].
      * apply keyChange_entry in Hin as [Ht Hp]. split; [by left | auto].
      * apply methodChange_entry in Hin as [Ht Hp]. split; [by left | auto].
      * by apply (IH1 id).
    + apply elem_of_cons in Hin as [Hin|Hin].
      * by apply (Hone (pending x)).
      * by apply (IH2 (prefixPath pathPrefix)).
Qed.

Lemma bodyChanges_entries (r c : Difference) (body : list Difference)
    (e : Difference) :
  bodyChanges microdiff r c = Ok body ->
  e ∈ body ->
  shallowOrIndexed e /\ segAt (path e) 0 = Key "paths".
Proof.
  unfold bodyChanges. destruct (microdiff _ _) as [[|d ds]|err] eqn:Hd;
    cbn [mbind Result_bind]; [| |discriminate].
  { intros [= <-] Hin. by apply elem_of_nil in Hin. }
  cbn [app]. rewrite combineRenameDiffs_nested. intros Heq Hin.
  match type of Heq with
  | Ok ?entries = Ok _ => assert (Hb : entries = body) by congruence
  end.
  rewrite <- Hb in Hin.
  apply nestedSpec_entries in Hin as [Hs Hp]. split; [exact Hs|].
  by apply Hp.
Qed.

Lemma topSpec_entries (l : list Difference) :
  forall a (d : list Difference) out e,
    (forall k, k < length l -> d !! (a + k) = l !! k) ->
    topSpec microdiff (combineNested microdiff) a l = Ok out ->
    e ∈ omap (resolve d) out ->
    shallowOrIndexed e \/ (e ∈ l /\ segAt (path e) 0 <> Key "paths").
Proof.
  induction l as [| x | x y l IH1 IH2] using list_pair_ind;
    intros a d out e Hk Hout Hin.
  - injection Hout as <-. by apply elem_of_nil in Hin.
  - pose proof (Hk 0 ltac:(simpl; lia)) as H0. rewrite Nat.add_0_r in H0.
    cbn [topSpec] in Hout.
    destruct (bool_decide (segAt (path x) 0 = Key "paths")) eqn:Hp;
      injection Hout as <-.
    + cbn in Hin. rewrite (resolve_simplified d a x H0) in Hin.
      apply list_elem_of_singleton in Hin as ->. left.
      apply simplifiedEntry_shallow.
    + cbn in Hin. rewrite H0 in Hin.
      apply list_elem_of_singleton in Hin as ->. right.
      apply bool_decide_eq_false_1 in Hp. split; [by left | exact Hp].
  - pose proof (Hk 0 ltac:(simpl; lia)) as H0. rewrite Nat.add_0_r in H0.
    assert (Htail : forall k, k < length (y :: l) ->
               d !! (S a + k) = (y :: l) !! k).
    { intros k Hlt. specialize (Hk (S k) ltac:(simpl in *; lia)).
      by replace (a + S k) with (S a + k) in Hk by lia. }
    assert (Htail2 : forall k, k < length l -> d !! (S (S a) + k) = l !! k).
    { intros k Hlt. specialize (Hk (S (S k)) ltac:(simpl in *; lia)).
      by replace (a + S (S k)) with (S (S a) + k) in Hk by lia. }
    rewrite topSpec_cons in Hout.
    destruct (bool_decide (segAt (path x) 0 = Key "paths")) eqn:Hp.
    + destruct (_ && _).
      * rewrite renamePair_entries in Hout.
        apply Result_bind_Ok in Hout as (pushed & Hpushed & Hout).
        apply Result_fmap_Ok in Hpushed as (body & Hbody & ->).
        apply Result_bind_Ok in Hout as (after & Hafter & [= <-]).
        rewrite omap_app, omap_resolve_new in Hin.
        rewrite !elem_of_app in Hin. destruct Hin as [[Hin|[Hin|Hin]]|Hin].
        -- apply keyChange_entry in Hin as [Ht _]. left. by left.
        -- apply methodChange_entry in Hin as [Ht _]. left. by left.
        -- apply (bodyChanges_entries _ _ _ _ Hbody) in Hin as [Hs _].
           by left.
        -- destruct (IH1 _ _ _ _ Htail2 Hafter Hin) as [Hs|[Hl Hn]];
             [by left|].
           right. split; [|exact Hn]. by do 2 right.
      * apply Result_bind_Ok in Hout as (after & Hafter & [= <-]).
        rewrite omap_app_cons in Hin. apply elem_of_app in Hin as [Hin|Hin].
        -- cbn in Hin. rewrite (resolve_simplified d a x H0) in Hin.
           apply list_elem_of_singleton in Hin as ->. left.
           apply simplifiedEntry_shallow.
        -- destruct (IH2 _ _ _ _ Htail Hafter Hin) as [Hs|[Hl Hn]];
             [by left|].
           right. split; [|exact Hn]. by right.
    + apply Result_bind_Ok in Hout as (after & Hafter & [= <-]).
      rewrite omap_app_cons in Hin. apply elem_of_app in Hin as [Hin|Hin].
      * cbn in Hin. rewrite H0 in Hin.
        apply list_elem_of_singleton in Hin as ->. right.
        apply bool_decide_eq_false_1 in Hp. split; [by left | exact Hp].
      * destruct (IH2 _ _ _ _ Htail Hafter Hin) as [Hs|[Hl Hn]]; [by left|].
        right. split; [|exact Hn]. by right.
Qed.

(** X4: whatever the input, an entry of the operations section that the
    combiner returns is a CHANGE, or has at most three segments, or ends in
    an array index: no deep CREATE or REMOVE of a plain field reaches the
    request builder.  The same holds for every entry of a call with a
    prefix. *)
Theorem combineRenameDiffs_no_deep_create (diff : list Difference) :
  (forall out e,
      combineRenameDiffs microdiff diff [] = Ok out ->
      e ∈ out ->
      segAt (path e) 0 = Key "paths" ->
      shallowOrIndexed e)
  /\ (forall p ps out e,
         combineRenameDiffs microdiff diff (p :: ps) = Ok out ->
         e ∈ out ->
         shallowOrIndexed e).
Proof.
  split.
  - intros out e Hout Hin Hp. rewrite combineRenameDiffs_top in Hout.
    apply Result_fmap_Ok in Hout as (pushed & Hpushed & ->).
    destruct (topSpec_entries diff 0 diff pushed e) as [Hs|[_ Hn]];
      [by intros k _ | exact Hpushed | exact Hin | exact Hs | congruence].
  - intros p ps out e Hout Hin. rewrite combineRenameDiffs_nested in Hout.
    match type of Hout with
    | Ok ?entries = Ok _ => assert (Hb : entries = out) by congruence
    end.
    rewrite <- Hb in Hin. by apply nestedSpec_entries in Hin as [Hs _].
Qed.

(** X5: every entry that replaces a rename pair, the two rename entries and
    the entries of the nested call on the bodies, lies in the operations
    section. *)
Theorem rename_entries_in_paths (r c : Difference) (body : list Difference)
    (e : Difference) :
  bodyChanges microdiff r c = Ok body ->
  e ∈ keyChange r c ++ methodChange r c ++ body ->
  segAt (path e) 0 = Key "paths".
Proof.
  intros Hbody. rewrite !elem_of_app. intros [Hin|[Hin|Hin]].
  - by apply keyChange_entry in Hin as [_ Hp].
  - by apply methodChange_entry in Hin as [_ Hp].
  - by apply (bodyChanges_entries _ _ _ _ Hbody) in Hin as [_ Hp].
Qed.

End CombineInvariants.

(** ** More on the resolver, the finder and the parser *)

Lemma traverse_app (p q : list PathSeg) :
  forall schema,
    traverseZodSchema schema (p ++ q)
    = traverseZodSchema schema p ≫= fun s => traverseZodSchema s q.
Proof.
  induction p as [|key rest IH]; intros schema; [reflexivity|].
  cbn [app traverseZodSchema].
  destruct (unwrapSchema schema) eqn:Hu;
    try (destruct (descend _ key) as [s'|]; [apply IH | reflexivity]).
  cbn. by destruct q.
Qed.

(** X6: resolving a path in two steps is resolving it at once: the schema
    at [p ++ q] is the schema at [q] of the schema at [p]. *)
Theorem traverseZodSchema_app (schema : ZodSchema) (p q : list PathSeg) :
  traverseZodSchema schema (p ++ q)
  = traverseZodSchema schema p ≫= fun s => traverseZodSchema s q.
Proof. apply traverse_app. Qed.

Lemma findResource_Some_inv {T : Type} (arr : list string)
    (resources : gmap string T) (condition : option T -> Result bool)
    (t : T) :
  findResource arr resources condition = Ok (Some t) ->
  exists pre uid post,
    arr = pre ++ uid :: post
    /\ resources !! uid = Some t
    /\ condition (Some t) = Ok true
    /\ Forall (fun u => condition (resources !! u) = Ok false) pre.
Proof.
  induction arr as [|uid rest IH]; [discriminate|]. cbn [findResource].
  destruct (condition (resources !! uid)) as [[]|e] eqn:Hc; cbn.
  - intros [= Hr]. exists [], uid, rest. rewrite Hr in Hc. by repeat split.
  - intros Hrest. destruct (IH Hrest) as (pre & u & post & -> & Hu & Ht & Hpre).
    exists (uid :: pre), u, post. repeat split; try done. by constructor.
  - discriminate.
Qed.

(** X7: an entity that the finder returns is in the table under one of the
    keys, the predicate holds on it, and the predicate was false on the
    lookup of every earlier key. *)
Theorem findResource_Some {T : Type} (arr : list string)
    (resources : gmap string T) (condition : option T -> Result bool)
    (t : T) :
  findResource arr resources condition = Ok (Some t) ->
  exists pre uid post,
    arr = pre ++ uid :: post
    /\ resources !! uid = Some t
    /\ condition (Some t) = Ok true
    /\ Forall (fun u => condition (resources !! u) = Ok false) pre.
Proof. apply findResource_Some_inv. Qed.

Lemma findResource_Some_witness :
  exists pre uid post,
    ["r1"; "r2"] = pre ++ uid :: post
    /\ Samples.requests !! uid = Some (mkRequest "r2" "/pets" "post" [])
    /\ samePathAndMethod (Key "/pets") (Key "post")
         (Some (mkRequest "r2" "/pets" "post" [])) = Ok true
    /\ Forall (fun u => samePathAndMethod (Key "/pets") (Key "post")
                          (Samples.requests !! u) = Ok false) pre.
Proof.
  apply (findResource_Some ["r1"; "r2"] Samples.requests
           (samePathAndMethod (Key "/pets") (Key "post"))).
  reflexivity.
Defined.

(** X8: the finder throws exactly when the predicate throws on the lookup of
    a key before which it was false on every lookup. *)
Theorem findResource_Throw {T : Type} (arr : list string)
    (resources : gmap string T) (condition : option T -> Result bool)
    (e : JsError) :
  findResource arr resources condition = Throw e <->
  exists pre uid post,
    arr = pre ++ uid :: post
    /\ condition (resources !! uid) = Throw e
    /\ Forall (fun u => condition (resources !! u) = Ok false) pre.
Proof.
  induction arr as [|uid rest IH].
  - split; [discriminate|]. intros (pre & u & post & Heq & _).
    by destruct pre.
  - cbn [findResource].
    destruct (condition (resources !! uid)) as [[]|e'] eqn:Hc; cbn.
    + split; [discriminate|]. intros (pre & u & post & Heq & Hu & Hpre).
      destruct pre as [|u' pre]; injection Heq as -> ->; [congruence|].
      apply Forall_cons in Hpre as [Hf _]. congruence.
    + rewrite IH. split.
      * intros (pre & u & post & -> & Hu & Hpre).
        exists (uid :: pre), u, post. repeat split; try done. by constructor.
      * intros (pre & u & post & Heq & Hu & Hpre).
        destruct pre as [|u' pre]; injection Heq as -> ->; [congruence|].
        apply Forall_cons in Hpre as [_ Hpre]. by exists pre, u, post.
    + split.
      * intros [= ->]. exists [], uid, rest. by repeat split.
      * intros (pre & u & post & Heq & Hu & Hpre).
        destruct pre as [|u' pre]; injection Heq as -> ->; [congruence|].
        apply Forall_cons in Hpre as [Hf _]. congruence.
Qed.

(** X9: with a predicate that is false on [undefined] and does not throw,
    the keys that are missing from the table are skipped: the finder returns
    the first entity, among those the keys have, that satisfies the
    predicate. *)
Theorem findResource_skips_missing {T : Type} (arr : list string)
    (resources : gmap string T) (condition : option T -> Result bool)
    (p : T -> bool) :
  condition None = Ok false ->
  (forall t, condition (Some t) = Ok (p t)) ->
  findResource arr resources condition
  = Ok (head (filter (fun t => p t = true)
                     (omap (fun uid => resources !! uid) arr))).
Proof.
  intros Hnone Hsome.
  induction arr as [|uid rest IH]; [reflexivity|].
  simpl. destruct (resources !! uid) as [t|] eqn:Ht.
  - rewrite Hsome. simpl. destruct (p t) eqn:Hp.
    + by rewrite filter_cons_True.
    + rewrite filter_cons_False by congruence. exact IH.
  - rewrite Hnone. simpl. exact IH.
Qed.

Lemma findResource_skips_missing_witness :
  findResource ["gone"; "r2"] Samples.requests
    (fun r => Ok (from_option
                    (fun r => bool_decide (request_method r = "post"))
                    false r))
  = Ok (head (filter (fun t => bool_decide (request_method t = "post") = true)
                     (omap (fun uid => Samples.requests !! uid)
                           ["gone"; "r2"]))).
Proof. by apply findResource_skips_missing. Defined.

Section ParseEdges.
Context `{Externals}.

(** X10: a value that passes the validation but is falsy ([false], [0], the
    empty string, [null]) is taken for a failure: the parser returns nothing
    for it, and the value of a successful parse of an entry that is not a
    REMOVE is always truthy. *)
Theorem parseDiff_rejects_falsy (schema : ZodSchema) (diff : Difference) :
  type diff <> REMOVE ->
  (forall s v,
      traverseZodSchema schema (path diff) = Some s ->
      safeParse s (value diff) = Ok (Some v) ->
      truthy v = false ->
      parseDiff schema diff = Ok None)
  /\ (forall parsed,
         parseDiff schema diff = Ok (Some parsed) ->
         truthy (pd_value parsed) = true).
Proof.
  intros Hty. unfold parseDiff.
  rewrite bool_decide_eq_false_2 by exact Hty. split.
  - intros s v -> Hv Ht.
    rewrite (schemaModel_parsed _ _ _ Hv).
    cbn. by rewrite Ht.
  - intros parsed.
    destruct (traverseZodSchema schema (path diff)) as [s|]; [|discriminate].
    destruct (schemaModel (value diff) s) as [v|e]; [|discriminate].
    cbn [mbind Result_bind].
    destruct (truthy v) eqn:Hv; [|discriminate]. by intros [= <-].
Qed.

(** The parser throws exactly on an entry that is not a REMOVE and whose
    path resolves to a member that a shape inherits. *)
Lemma parseDiff_Throw (schema : ZodSchema) (diff : Difference) (e : JsError) :
  parseDiff schema diff = Throw e <->
  e = TypeError /\ type diff <> REMOVE
  /\ exists member,
       traverseZodSchema schema (path diff) = Some (Inherited member).
Proof.
  unfold parseDiff.
  destruct (traverseZodSchema schema (path diff)) as [s|].
  2:{ split; [discriminate|]. by intros (_ & _ & m & Hm). }
  destruct (bool_decide (type diff = REMOVE)) eqn:Hty.
  { apply bool_decide_eq_true_1 in Hty. split; [discriminate|].
    by intros (_ & Hn & _). }
  apply bool_decide_eq_false_1 in Hty.
  destruct (isSchema s) eqn:Hs.
  - rewrite (schemaModel_schema _ _ Hs). cbn [mbind Result_bind]. split.
    + by destruct (truthy _).
    + intros (_ & _ & m & [= ->]). discriminate.
  - rewrite (schemaModel_inherited _ _ Hs). cbn [mbind Result_bind].
    destruct s; try discriminate. split.
    + intros [= <-]. repeat split; eauto.
    + by intros (-> & _).
Qed.

End ParseEdges.

Lemma parseDiff_rejects_falsy_witness :
  @parseDiff Ref.externals Ref.request
    (Samples.ch [Key "deprecated"] (VBool true) (VBool false)) = Ok None.
Proof.
  destruct (@parseDiff_rejects_falsy Ref.externals Ref.request
              (Samples.ch [Key "deprecated"] (VBool true) (VBool false)))
    as [Hf _]; [discriminate|].
  by apply (Hf ZodBoolean (VBool false)).
Defined.

(** ** More on the payload builders *)

Lemma assoc_setProp_eq (k : string) (v : Value) (fs : list (string * Value)) :
  assoc k (setProp k v fs) = Some v.
Proof.
  induction fs as [|[k' v'] fs IH]; cbn.
  - by rewrite bool_decide_eq_true_2.
  - destruct (bool_decide (k' = k)) eqn:Hk; cbn.
    + by rewrite bool_decide_eq_true_2.
    + by rewrite Hk.
Qed.

Lemma assoc_setProp_ne (k k' : string) (v : Value)
    (fs : list (string * Value)) :
  k' <> k -> assoc k' (setProp k v fs) = assoc k' fs.
Proof.
  intros Hne. induction fs as [|[k0 v0] fs IH]; cbn.
  - by rewrite bool_decide_eq_false_2 by congruence.
  - destruct (bool_decide (k0 = k)) eqn:Hk; cbn.
    + apply bool_decide_eq_true_1 in Hk as ->.
      by rewrite !bool_decide_eq_false_2 by congruence.
    + by rewrite IH.
Qed.

Lemma assoc_deleteProp_eq (k : string) (fs : list (string * Value)) :
  assoc k (deleteProp k fs) = None.
Proof.
  unfold deleteProp. induction fs as [|[k' v'] fs IH]; [reflexivity|].
  destruct (decide (k' = k)) as [->|Hne].
  - by rewrite filter_cons_False by (cbn; auto).
  - rewrite filter_cons_True by exact Hne. cbn.
    by rewrite bool_decide_eq_false_2.
Qed.

Lemma assoc_deleteProp_ne (k k' : string) (fs : list (string * Value)) :
  k' <> k -> assoc k' (deleteProp k fs) = assoc k' fs.
Proof.
  intros Hne. unfold deleteProp.
  induction fs as [|[k0 v0] fs IH]; [reflexivity|].
  destruct (decide (k0 = k)) as [->|Hk].
  - rewrite filter_cons_False by (cbn; auto). cbn.
    by rewrite bool_decide_eq_false_2 by congruence.
  - rewrite filter_cons_True by exact Hk. cbn. by rewrite IH.
Qed.

Section BuilderProperties.
Context `{Externals}.

(** What it means for a value to satisfy a schema, and the soundness of
    Zod's validation with respect to it. *)
Variable satisfies : ZodSchema -> Value -> Prop.
Hypothesis safeParse_sound :
  forall schema raw v, safeParse schema raw = Ok (Some v) -> satisfies schema v.

Lemma parseDiff_Some_inv (schema : ZodSchema) (diff : Difference)
    (parsed : ParsedDiff) :
  parseDiff schema diff = Ok (Some parsed) ->
  pd_path parsed = joinPath (path diff)
  /\ pd_pathMinusOne parsed = joinPath (removelast (path diff))
  /\ exists s,
       traverseZodSchema schema (path diff) = Some s
       /\ (type diff <> REMOVE ->
           safeParse s (value diff) = Ok (Some (pd_value parsed))
           /\ truthy (pd_value parsed) = true).
Proof.
  unfold parseDiff.
  destruct (traverseZodSchema schema (path diff)) as [s|]; [|discriminate].
  destruct (bool_decide (type diff = REMOVE)) eqn:Hty.
  - apply bool_decide_eq_true_1 in Hty. intros [= <-].
    split; [reflexivity|]. split; [reflexivity|].
    exists s. split; [reflexivity | congruence].
  - unfold schemaModel.
    destruct (safeParse s (value diff)) as [[v|]|e] eqn:Hsp;
      cbn [mbind Result_bind]; try discriminate.
    destruct (truthy v) eqn:Hv; [|discriminate]. intros [= <-].
    split; [reflexivity|]. split; [reflexivity|].
    exists s. split; [reflexivity|]. intros _. by split.
Qed.

Lemma parseDiff_valid (schema s : ZodSchema) (diff : Difference) (v : Value) :
  type diff <> REMOVE ->
  traverseZodSchema schema (path diff) = Some s ->
  safeParse s (value diff) = Ok (Some v) ->
  truthy v = true ->
  parseDiff schema diff
  = Ok (Some (mkParsed (joinPath (path diff))
                (joinPath (removelast (path diff))) v)).
Proof.
  intros Hty Hs Hv Ht. unfold parseDiff.
  rewrite Hs, (schemaModel_parsed _ _ _ Hv).
  cbn. by rewrite Ht, bool_decide_eq_false_2.
Qed.

(** The parse of an entry that is not a REMOVE: nothing, a valid value, or a
    TypeError when the path resolves to an inherited member. *)
Lemma parseDiff_cases (schema : ZodSchema) (diff : Difference) :
  type diff <> REMOVE ->
  (forall member,
      traverseZodSchema schema (path diff) = Some (Inherited member) ->
      parseDiff schema diff = Throw TypeError)
  /\ ((forall member,
          traverseZodSchema schema (path diff) <> Some (Inherited member)) ->
      parseDiff schema diff = Ok None
      \/ exists s v,
           parseDiff schema diff
           = Ok (Some (mkParsed (joinPath (path diff))
                         (joinPath (removelast (path diff))) v))
           /\ traverseZodSchema schema (path diff) = Some s
           /\ satisfies s v).
Proof.
  intros Hty. split.
  - intros member Hm. apply parseDiff_Throw. eauto.
  - intros Hno.
    destruct (parseDiff schema diff) as [[parsed|]|e] eqn:Hp.
    + right. pose proof Hp as Hinv.
      apply parseDiff_Some_inv in Hinv as (Hpath & Hminus & s & Hs & Hv).
      destruct (Hv Hty) as [Hv' _]. exists s, (pd_value parsed).
      split; [|split; [exact Hs | by eapply safeParse_sound]].
      rewrite <- Hpath, <- Hminus. by destruct parsed.
    + by left.
    + apply parseDiff_Throw in Hp as (_ & _ & m & Hm). by destruct (Hno m).
Qed.


(** X12: outside the push and pop of an array, the collection builder
    throws a TypeError when the path of the entry resolves to a member that
    a shape object inherits (such as [constructor]); on every other path it
    returns nothing, or the edit of the collection at the joined path with
    a value that satisfies the schema the path resolves to. *)
Theorem collection_edit_valid (diff : Difference) (collection : Collection) :
  lastIsNumber (path diff) && isCreateOrRemove (type diff) = false ->
  type diff <> REMOVE ->
  (forall member,
      traverseZodSchema collectionSchema (path diff)
      = Some (Inherited member) ->
      diffToCollectionPayload diff collection = Throw TypeError)
  /\ ((forall member,
          traverseZodSchema collectionSchema (path diff)
          <> Some (Inherited member)) ->
      diffToCollectionPayload diff collection = Ok None
      \/ exists s v,
           diffToCollectionPayload diff collection
           = Ok (Some (collection_uid collection, joinPath (path diff), v))
           /\ traverseZodSchema collectionSchema (path diff) = Some s
           /\ satisfies s v).
Proof.
  intros Hb Hty. unfold diffToCollectionPayload. rewrite Hb.
  destruct (parseDiff_cases collectionSchema diff Hty) as [Hthrow Hok].
  split.
  - intros member Hm. by rewrite (Hthrow member Hm).
  - intros Hno. destruct (Hok Hno) as [-> | (s & v & -> & Hs & Hv)];
      [by left|].
    right. by exists s, v.
Qed.

(** X13: a CREATE whose path ends in an index appends the validated value
    to the array the collection has at the path without the index, whatever
    the index is; and a REMOVE at the same path, on a collection that has
    the extended array, gives the original array back. *)
Theorem collection_push_then_pop (create remove : Difference)
    (c c' : Collection) (old : list Value) (s : ZodSchema) (v : Value) :
  type create = CREATE ->
  type remove = REMOVE ->
  path remove = path create ->
  lastIsNumber (path create) = true ->
  traverseZodSchema collectionSchema (path create) = Some s ->
  safeParse s (value create) = Ok (Some v) ->
  truthy v = true ->
  getNestedValueC c (joinPath (removelast (path create))) = Ok (VArray old) ->
  getNestedValueC c' (joinPath (removelast (path create)))
  = Ok (VArray (old ++ [v])) ->
  diffToCollectionPayload create c
  = Ok (Some (collection_uid c, joinPath (removelast (path create)),
              VArray (old ++ [v])))
  /\ diffToCollectionPayload remove c'
     = Ok (Some (collection_uid c', joinPath (removelast (path create)),
                 VArray old)).
Proof.
  intros Hc Hr Hpath Hlast Hs Hv Ht Hold Hnew.
  unfold diffToCollectionPayload. split.
  - rewrite Hlast, Hc. cbn [isCreateOrRemove andb].
    rewrite (parseDiff_valid _ s _ v) by (try done; by rewrite Hc).
    cbn [mbind Result_bind pd_pathMinusOne pd_value]. by rewrite Hold.
  - rewrite Hpath, Hlast, Hr. cbn [isCreateOrRemove andb].
    unfold parseDiff. rewrite Hpath, Hs, Hr.
    rewrite bool_decide_eq_true_2 by reflexivity.
    cbn [mbind Result_bind pd_pathMinusOne pd_value]. rewrite Hnew. cbn.
    by rewrite removelast_last.
Qed.

(** X14: the push or pop of an array element throws a TypeError when the
    entry parses and the collection has no array at the path without the
    index: the read access throws a TypeError there, or what it returns is
    not iterable. *)
Theorem collection_push_without_array (diff : Difference)
    (collection : Collection) (parsed : ParsedDiff) :
  lastIsNumber (path diff) = true ->
  type diff <> CHANGE ->
  parseDiff collectionSchema diff = Ok (Some parsed) ->
  match getNestedValueC collection (joinPath (removelast (path diff))) with
  | Ok nested => notIterable nested
  | Throw e => e = TypeError
  end ->
  diffToCollectionPayload diff collection = Throw TypeError.
Proof.
  intros Hlast Hty Hp Hn. unfold diffToCollectionPayload.
  rewrite Hlast, Hp. cbn [mbind Result_bind].
  apply parseDiff_Some_inv in Hp as (_ & -> & _).
  destruct (type diff); [| |congruence];
    cbn [isCreateOrRemove andb mbind Result_bind];
    (destruct (getNestedValueC _ _) as [nested|e];
     [by destruct nested | by rewrite Hn]).
Qed.

End BuilderProperties.

(** ** More on the request builder *)

Section RequestProperties.
Context `{Externals}.

Variable satisfies : ZodSchema -> Value -> Prop.
Hypothesis safeParse_sound :
  forall schema raw v, safeParse schema raw = Ok (Some v) -> satisfies schema v.

Lemma filterM_present (requests : gmap string Request) (g : Request -> bool)
    (l : list string) :
  Forall (fun uid => is_Some (requests !! uid)) l ->
  filterM (fun uid => match requests !! uid with
                      | None => Throw TypeError
                      | Some r => Ok (g r)
                      end) l
  = Ok (List.filter (fun uid => from_option g false (requests !! uid)) l).
Proof.
  induction 1 as [|uid l [r Hr] _ IH]; [reflexivity|].
  cbn [filterM List.filter]. rewrite Hr, IH. cbn. by destruct (g r).
Qed.

Lemma filterM_missing (requests : gmap string Request) (g : Request -> bool)
    (l : list string) (uid : string) :
  uid ∈ l ->
  requests !! uid = None ->
  filterM (fun uid => match requests !! uid with
                      | None => Throw TypeError
                      | Some r => Ok (g r)
                      end) l
  = Throw TypeError.
Proof.
  intros Hin Hnone. induction l as [|x l IH]; [by apply elem_of_nil in Hin|].
  cbn [filterM]. destruct (requests !! x) as [r|] eqn:Hx; [|reflexivity].
  apply elem_of_cons in Hin as [->|Hin]; [congruence|].
  cbn. by rewrite (IH Hin).
Qed.

(** X15: when every request of the collection is in the table, the CHANGE
    of a path key is one edit of the path for every request, in the order of
    the collection, whose path is the old value; and the CHANGE of a method
    is one edit of the method for every request with the old method under
    that path. *)
Theorem request_rename_fans_out (diff : Difference) (collection : Collection)
    (requests : gmap string Request) :
  type diff = CHANGE ->
  Forall (fun uid => is_Some (requests !! uid))
         (collection_requests collection) ->
  (segAt (path diff) 1 = Key "path" ->
   diffToRequestPayload diff collection requests
   = Ok ((fun uid => PEdit uid "path" (value diff))
         <$> List.filter
               (fun uid =>
                  from_option
                    (fun r => strictEq (VString (request_path r))
                                (oldValue diff))
                    false (requests !! uid))
               (collection_requests collection)))
  /\ (segAt (path diff) 1 <> Key "path" ->
      segAt (path diff) 2 = Key "method" ->
      diffToRequestPayload diff collection requests
      = Ok ((fun uid => PEdit uid "method" (value diff))
            <$> List.filter
                  (fun uid =>
                     from_option
                       (fun r =>
                          strictEq (VString (request_method r)) (oldValue diff)
                          && stringIs (request_path r) (segAt (path diff) 1))
                       false (requests !! uid))
                  (collection_requests collection))).
Proof.
  intros Hty Hall. unfold diffToRequestPayload. rewrite Hty. split.
  - intros ->. rewrite !bool_decide_eq_true_2 by reflexivity. cbn [andb].
    by rewrite (filterM_present requests
                  (fun r => strictEq (VString (request_path r))
                              (oldValue diff))).
  - intros Hp ->. rewrite (bool_decide_eq_false_2 _ Hp).
    rewrite !bool_decide_eq_true_2 by reflexivity. cbn [andb].
    by rewrite (filterM_present requests
                  (fun r => strictEq (VString (request_method r))
                              (oldValue diff)
                            && stringIs (request_path r)
                                 (segAt (path diff) 1))).
Qed.

(** X16: the fan-out of a rename reads every request of the collection:
    one uid of the collection that is missing from the table makes the
    builder throw a TypeError, and no edit is returned. *)
Theorem request_rename_dangling_uid (diff : Difference)
    (collection : Collection) (requests : gmap string Request)
    (uid : string) :
  type diff = CHANGE ->
  segAt (path diff) 1 = Key "path" \/ segAt (path diff) 2 = Key "method" ->
  uid ∈ collection_requests collection ->
  requests !! uid = None ->
  diffToRequestPayload diff collection requests = Throw TypeError.
Proof.
  intros Hty Hseg Hin Hnone. unfold diffToRequestPayload. rewrite Hty.
  rewrite (bool_decide_eq_true_2 (CHANGE = CHANGE)) by reflexivity.
  destruct (bool_decide (segAt (path diff) 1 = Key "path")) eqn:Hp;
    cbn [andb].
  - by rewrite (filterM_missing requests
                  (fun r => strictEq (VString (request_path r))
                              (oldValue diff)) _ uid Hin Hnone).
  - destruct Hseg as [Hs|Hs];
      [apply bool_decide_eq_false_1 in Hp; congruence|].
    rewrite (bool_decide_eq_true_2 _ Hs). cbn [andb].
    by rewrite (filterM_missing requests
                  (fun r => strictEq (VString (request_method r))
                              (oldValue diff)
                            && stringIs (request_path r)
                                 (segAt (path diff) 1)) _ uid Hin Hnone).
Qed.

Lemma findRequest_inv (collection : Collection)
    (requests : gmap string Request) (path' method : PathSeg) (r : Request) :
  findResource (collection_requests collection) requests
    (samePathAndMethod path' method) = Ok (Some r) ->
  (exists uid, uid ∈ collection_requests collection
               /\ requests !! uid = Some r)
  /\ path' = Key (request_path r) /\ method = Key (request_method r).
Proof.
  intros Hf. apply findResource_Some_inv in Hf
    as (pre & uid & post & Heq & Hu & Hc & _).
  split.
  - exists uid. split; [|exact Hu]. rewrite Heq.
    apply elem_of_app. right. by left.
  - cbn in Hc. injection Hc as Hc. apply andb_prop in Hc as [Hp Hm].
    unfold stringIs in *. by apply bool_decide_eq_true_1 in Hp, Hm.
Qed.

(** X17: a REMOVE whose trailing path does not end in an index deletes the
    whole request: when every request of the collection is in the table the
    builder returns nothing, or the delete of a request of the collection
    that has the path and the method of the entry; this also holds for a
    REMOVE of a field deep inside the operation. *)
Theorem request_remove_deletes (diff : Difference) (collection : Collection)
    (requests : gmap string Request) :
  type diff = REMOVE ->
  lastIsNumber (drop 3 (path diff)) = false ->
  Forall (fun uid => is_Some (requests !! uid))
         (collection_requests collection) ->
  diffToRequestPayload diff collection requests = Ok []
  \/ exists r,
       diffToRequestPayload diff collection requests
       = Ok [PDelete r (Some (collection_uid collection))]
       /\ (exists uid, uid ∈ collection_requests collection
                       /\ requests !! uid = Some r)
       /\ segAt (path diff) 1 = Key (request_path r)
       /\ segAt (path diff) 2 = Key (request_method r).
Proof.
  intros Hty Hlast Hall.
  destruct (findRequest_ok collection requests
              (segAt (path diff) 1) (segAt (path diff) 2) Hall) as [r Hr].
  unfold diffToRequestPayload. rewrite Hty, Hlast, Hr.
  rewrite !(bool_decide_eq_false_2 (REMOVE = CHANGE)) by discriminate.
  rewrite !andb_false_r. cbn.
  destruct r as [r|]; [right|by left].
  exists r. split; [reflexivity|]. by apply findRequest_inv in Hr.
Qed.

(** X18: a CHANGE that is not a rename, when every request of the
    collection is in the table, throws a TypeError when the trailing path
    resolves to a member that a shape object inherits; on every other path
    it yields nothing, or one edit of a request of the collection that has
    the path and the method of the entry, at the joined trailing path, with
    a value that satisfies the schema the trailing path resolves to in the
    request schema. *)
Theorem request_change_edits_valid (diff : Difference)
    (collection : Collection) (requests : gmap string Request) :
  type diff = CHANGE ->
  segAt (path diff) 1 <> Key "path" ->
  segAt (path diff) 2 <> Key "method" ->
  Forall (fun uid => is_Some (requests !! uid))
         (collection_requests collection) ->
  (forall member,
      traverseZodSchema requestSchema (drop 3 (path diff))
      = Some (Inherited member) ->
      diffToRequestPayload diff collection requests = Throw TypeError)
  /\ ((forall member,
          traverseZodSchema requestSchema (drop 3 (path diff))
          <> Some (Inherited member)) ->
      diffToRequestPayload diff collection requests = Ok []
      \/ exists r s v,
           diffToRequestPayload diff collection requests
           = Ok [PEdit (request_uid r) (joinPath (drop 3 (path diff))) v]
           /\ (exists uid, uid ∈ collection_requests collection
                           /\ requests !! uid = Some r)
           /\ segAt (path diff) 1 = Key (request_path r)
           /\ segAt (path diff) 2 = Key (request_method r)
           /\ traverseZodSchema requestSchema (drop 3 (path diff)) = Some s
           /\ satisfies s v).
Proof.
  intros Hty Hp Hm Hall.
  destruct (findRequest_ok collection requests
              (segAt (path diff) 1) (segAt (path diff) 2) Hall) as [r Hr].
  unfold diffToRequestPayload. rewrite Hty, Hr.
  rewrite (bool_decide_eq_false_2 _ Hp), (bool_decide_eq_false_2 _ Hm).
  rewrite (bool_decide_eq_true_2 (CHANGE = CHANGE)) by reflexivity.
  cbn [andb negb mbind Result_bind].
  destruct (parseDiff_cases satisfies safeParse_sound requestSchema
              (setPath diff (drop 3 (path diff)))) as [Hthrow Hok];
    [cbn; by rewrite Hty|].
  cbn [path setPath] in Hthrow, Hok. split.
  - intros member Hmem. by rewrite (Hthrow member Hmem).
  - intros Hno. destruct (Hok Hno) as [-> | (s & v & -> & Hs & Hv)];
      cbn [mbind Result_bind]; [left; by destruct r|].
    destruct r as [r|]; [right|by left].
    exists r, s, v. apply findRequest_inv in Hr as (Hin & Hrp & Hrm).
    by repeat split.
Qed.

(** X19: the servers of a new operation are validated with the throwing
    parse: a CREATE of an operation whose [servers] value fails the
    validation makes the builder throw a ZodError. *)
Theorem request_create_invalid_servers (diff : Difference)
    (collection : Collection) (requests : gmap string Request)
    (fields : list (string * Value)) (sv : Value) :
  type diff = CREATE ->
  lastIsNumber (drop 3 (path diff)) = false ->
  segTruthy (segAt (path diff) 2) = true ->
  value diff = VObject fields ->
  assoc "servers" fields = Some sv ->
  safeParse (ZodArray serverSchema) (nullish sv (VArray [])) = Ok None ->
  diffToRequestPayload diff collection requests = Throw ZodError.
Proof.
  intros Hty Hlast Hm Hv Hs Hparse.
  unfold diffToRequestPayload. rewrite Hty, Hlast.
  rewrite !(bool_decide_eq_false_2 (CREATE = CHANGE)) by discriminate.
  rewrite !andb_false_r. unfold createRequest. rewrite Hv, Hm.
  destruct fields as [|[k w] rest] eqn:Hf; [discriminate|].
  cbn [mbind Result_bind objectEntries ownProps getProp].
  rewrite Hs. cbn [from_option mbind Result_bind].
  change (id sv) with sv. unfold zodParse. by rewrite Hparse.
Qed.

(** X20: a CREATE whose trailing path ends in an index appends the
    validated value, which satisfies the schema the trailing path resolves
    to, to the array that the request with the path and the method of the
    entry has at the trailing path without the index. *)
Theorem request_array_push (diff : Difference) (collection : Collection)
    (requests : gmap string Request) (r : Request) (old : list Value)
    (s : ZodSchema) (v : Value) :
  type diff = CREATE ->
  lastIsNumber (drop 3 (path diff)) = true ->
  findResource (collection_requests collection) requests
    (samePathAndMethod (segAt (path diff) 1) (segAt (path diff) 2))
  = Ok (Some r) ->
  traverseZodSchema requestSchema (drop 3 (path diff)) = Some s ->
  safeParse s (value diff) = Ok (Some v) ->
  truthy v = true ->
  getNestedValueR r (joinPath (removelast (drop 3 (path diff))))
  = Ok (VArray old) ->
  diffToRequestPayload diff collection requests
  = Ok [PEdit (request_uid r) (joinPath (removelast (drop 3 (path diff))))
          (VArray (old ++ [v]))]
  /\ satisfies s v.
Proof.
  intros Hty Hlast Hr Hs Hv Ht Hold. split; [|by eapply safeParse_sound].
  unfold diffToRequestPayload. rewrite Hty, Hlast, Hr.
  rewrite !(bool_decide_eq_false_2 (CREATE = CHANGE)) by discriminate.
  rewrite !andb_false_r. cbn [negb andb mbind Result_bind].
  rewrite (parseDiff_valid _ s _ v); try done; [|by cbn; rewrite Hty].
  cbn [mbind Result_bind pd_pathMinusOne pd_value path setPath].
  by rewrite Hold.
Qed.

End RequestProperties.

Section RequestAdd.
Context `{Externals}.

Variable satisfies : ZodSchema -> Value -> Prop.
Hypothesis safeParse_sound :
  forall schema raw v, safeParse schema raw = Ok (Some v) -> satisfies schema v.



End RequestAdd.


(** ** More on the server, tag and security scheme builders *)

Section EntityProperties.
Context `{Externals}.

Variable satisfies : ZodSchema -> Value -> Prop.
Hypothesis safeParse_sound :
  forall schema raw v, safeParse schema raw = Ok (Some v) -> satisfies schema v.

Lemma serverSchema_isSchema : isSchema serverSchema = true.
Proof.
  pose proof imports_are_schemas as Hall.
  by apply Forall_cons in Hall as [_ [_ [Hs _]%Forall_cons]%Forall_cons].
Qed.

Lemma tagSchema_isSchema : isSchema tagSchema = true.
Proof.
  pose proof imports_are_schemas as Hall.
  by apply Forall_cons in Hall
    as [_ [_ [_ [Hs _]%Forall_cons]%Forall_cons]%Forall_cons].
Qed.

(** X22: when the list of the collection has nothing at the index of the
    entry (and no entity is stored under the key ['undefined']), the server
    and tag builders return nothing for every entry but the CREATE of a
    whole object, with one exception: the parse of an edit runs before the
    test of the entity, so an edit that is not a REMOVE and whose trailing
    path resolves to a member that a shape object inherits throws a
    TypeError. *)
Theorem server_and_tag_index_out_of_range (diff : Difference)
    (collection : Collection) :
  (forall servers,
      arrayAt (collection_servers collection) (segAt (path diff) 1)
      = MUndefined ->
      servers !! "undefined" = None ->
      (drop 2 (path diff) = [] -> type diff <> CREATE ->
       diffToServerPayload diff collection servers = Ok None)
      /\ (drop 2 (path diff) <> [] ->
          (forall member,
              traverseZodSchema serverSchema (drop 2 (path diff))
              = Some (Inherited member) ->
              type diff <> REMOVE ->
              diffToServerPayload diff collection servers = Throw TypeError)
          /\ (type diff = REMOVE
              \/ (forall member,
                     traverseZodSchema serverSchema (drop 2 (path diff))
                     <> Some (Inherited member)) ->
              diffToServerPayload diff collection servers = Ok None)))
  /\ (forall tags,
         arrayAt (collection_tags collection) (segAt (path diff) 1)
         = MUndefined ->
         tags !! "undefined" = None ->
         (drop 2 (path diff) = [] -> type diff <> CREATE ->
          diffToTagPayload diff tags collection = Ok None)
         /\ (drop 2 (path diff) <> [] ->
             (forall member,
                 traverseZodSchema tagSchema (drop 2 (path diff))
                 = Some (Inherited member) ->
                 type diff <> REMOVE ->
                 diffToTagPayload diff tags collection = Throw TypeError)
             /\ (type diff = REMOVE
                 \/ (forall member,
                        traverseZodSchema tagSchema (drop 2 (path diff))
                        <> Some (Inherited member)) ->
                 diffToTagPayload diff tags collection = Ok None))).
Proof.
  split.
  - intros servers Hat Hund. unfold diffToServerPayload. rewrite Hat.
    cbn [memberKey memberTruthy]. rewrite Hund, andb_false_r. split.
    + intros -> Hty. by rewrite bool_decide_eq_false_2.
    + intros Hk. destruct (drop 2 (path diff)) as [|k keys] eqn:Hd; [done|].
      destruct (parseDiff serverSchema (setPath diff (k :: keys)))
        as [parsed|e] eqn:Hp; cbn [mbind Result_bind].
      * split; [|by destruct parsed].
        intros member Hm Hty.
        assert (Hthrow : parseDiff serverSchema (setPath diff (k :: keys))
                         = Throw TypeError)
          by (apply parseDiff_Throw; eauto).
        congruence.
      * apply parseDiff_Throw in Hp as (-> & Hty & m & Hm).
        cbn [path setPath type] in Hty, Hm. split; [done|].
        intros [Hrm|Hno]; [done | by destruct (Hno m)].
  - intros tags Hat Hund. unfold diffToTagPayload. rewrite Hat.
    cbn [memberKey]. rewrite Hund. split.
    + intros -> Hty. by destruct (type diff).
    + intros Hk. destruct (drop 2 (path diff)) as [|k keys] eqn:Hd; [done|].
      destruct (parseDiff tagSchema (setPath diff (k :: keys)))
        as [parsed|e] eqn:Hp; cbn [mbind Result_bind].
      * split; [|by destruct parsed].
        intros member Hm Hty.
        assert (Hthrow : parseDiff tagSchema (setPath diff (k :: keys))
                         = Throw TypeError)
          by (apply parseDiff_Throw; eauto).
        congruence.
      * apply parseDiff_Throw in Hp as (-> & Hty & m & Hm).
        cbn [path setPath type] in Hty, Hm. split; [done|].
        intros [Hrm|Hno]; [done | by destruct (Hno m)].
Qed.

(** X23: the CREATE of a whole server or tag does not read the index nor
    the tables: it returns nothing, or the add to the collection of the
    validated value, which satisfies the schema of the entity. *)
Theorem server_and_tag_adds_valid (diff : Difference)
    (collection : Collection) :
  type diff = CREATE ->
  drop 2 (path diff) = [] ->
  (forall servers,
      diffToServerPayload diff collection servers = Ok None
      \/ exists v,
           diffToServerPayload diff collection servers
           = Ok (Some (PAdd v (collection_uid collection)))
           /\ safeParse serverSchema (value diff) = Ok (Some v)
           /\ satisfies serverSchema v)
  /\ (forall tags,
         diffToTagPayload diff tags collection = Ok None
         \/ exists v,
              diffToTagPayload diff tags collection
              = Ok (Some (PAdd v (collection_uid collection)))
              /\ safeParse tagSchema (value diff) = Ok (Some v)
              /\ satisfies tagSchema v).
Proof.
  intros Hty Hk. split.
  - intros servers. unfold diffToServerPayload.
    rewrite Hk, Hty, (schemaModel_schema _ _ serverSchema_isSchema).
    rewrite (bool_decide_eq_false_2 (CREATE = REMOVE)) by discriminate.
    rewrite (bool_decide_eq_true_2 (CREATE = CREATE)) by reflexivity.
    cbn [andb mbind Result_bind].
    pose proof (proj2 (safeParse_Ok serverSchema (value diff) _)
                  (conj serverSchema_isSchema eq_refl)) as Hparse.
    destruct (zodValidate serverSchema (value diff)) as [v|]; [|by left].
    destruct (truthy v); [right|by left].
    exists v. repeat split; [exact Hparse | by eapply safeParse_sound].
  - intros tags. unfold diffToTagPayload.
    rewrite Hk, Hty, (schemaModel_schema _ _ tagSchema_isSchema).
    cbn [mbind Result_bind].
    pose proof (proj2 (safeParse_Ok tagSchema (value diff) _)
                  (conj tagSchema_isSchema eq_refl)) as Hparse.
    destruct (zodValidate tagSchema (value diff)) as [v|]; [|by left].
    destruct (truthy v); [right|by left].
    exists v. repeat split; [exact Hparse | by eapply safeParse_sound].
Qed.



Lemma findScheme_ok (collection : Collection)
    (securitySchemes : gmap string SecurityScheme) (schemeName : PathSeg) :
  Forall (fun uid => is_Some (securitySchemes !! uid))
         (collection_securitySchemes collection) ->
  findResource (collection_securitySchemes collection) securitySchemes
    (hasNameKey schemeName)
  = Ok (head (filter (fun s => stringIs (scheme_nameKey s) schemeName = true)
                     (omap (fun uid => securitySchemes !! uid)
                           (collection_securitySchemes collection)))).
Proof.
  intros Hall.
  by apply (findResource_present _ _ _
              (fun s => stringIs (scheme_nameKey s) schemeName)).
Qed.

(** X26: the CREATE of a whole security scheme, when every scheme of the
    collection is in the table, adds the validated value, which satisfies
    the scheme schema, and throws a ZodError when the validation fails: it
    never returns nothing. *)
Theorem scheme_add_validates_or_throws (diff : Difference)
    (collection : Collection)
    (securitySchemes : gmap string SecurityScheme) :
  type diff = CREATE ->
  drop 3 (path diff) = [] ->
  Forall (fun uid => is_Some (securitySchemes !! uid))
         (collection_securitySchemes collection) ->
  (forall v,
      safeParse securitySchemeSchema (value diff) = Ok (Some v) ->
      diffToSecuritySchemePayload diff collection securitySchemes
      = Ok (Some (PAdd v (collection_uid collection)))
      /\ satisfies securitySchemeSchema v)
  /\ (safeParse securitySchemeSchema (value diff) = Ok None ->
      diffToSecuritySchemePayload diff collection securitySchemes
      = Throw ZodError).
Proof.
  intros Hty Hk Hall. unfold diffToSecuritySchemePayload, findScheme, zodParse.
  rewrite Hk, Hty, (findScheme_ok _ _ _ Hall).
  split.
  - intros v Hv. rewrite Hv. split; [|by eapply safeParse_sound].
    by destruct (securitySchemes !! _).
  - intros ->. by destruct (securitySchemes !! _).
Qed.



End EntityProperties.

(** ** buildPayload *)

Section BuildPayloadProperties.
Variable getNestedValue : Value -> string -> Result Value.

(** X29: the payload is [null] for an empty path and for a path whose last
    segment is falsy: the index 0 or the empty key.  A change of the first
    element of an array is therefore not built. *)
Theorem buildPayload_falsy_key (diff : Difference) (resource : Value) :
  (path diff = [] -> buildPayload getNestedValue diff resource = Ok None)
  /\ (forall p,
         path diff = p ++ [Index 0] \/ path diff = p ++ [Key ""] ->
         buildPayload getNestedValue diff resource = Ok None).
Proof.
  unfold buildPayload. split.
  - by intros ->.
  - intros p [-> | ->]; by rewrite last_snoc.
Qed.

(** X30: for a truthy last key, the builder throws what the read access
    throws when a segment of the path is missing; otherwise the payload of
    an entry that is not a REMOVE is the nested object with the key set to
    the value of the entry, and the payload of a REMOVE is the nested object
    without the key; every other property is as the nested object has it.
    A REMOVE throws a TypeError when the nested value is [undefined] or
    [null]. *)
Theorem buildPayload_frame (diff : Difference) (resource : Value)
    (key : PathSeg) :
  last (path diff) = Some key ->
  segTruthy key = true ->
  match (if isNumber (segAt (removelast (path diff)) 1) then Ok resource
         else getNestedValue resource (joinPath (removelast (path diff))))
  with
  | Throw e => buildPayload getNestedValue diff resource = Throw e
  | Ok nested =>
      (type diff <> REMOVE ->
       exists fields,
         buildPayload getNestedValue diff resource = Ok (Some (VObject fields))
         /\ assoc (propertyKey key) fields = Some (value diff)
         /\ forall k, k <> propertyKey key ->
                      assoc k fields = assoc k (ownProps nested))
      /\ (type diff = REMOVE ->
          match nested with
          | VUndefined | VNull =>
              buildPayload getNestedValue diff resource = Throw TypeError
          | _ =>
              exists fields,
                buildPayload getNestedValue diff resource
                = Ok (Some (VObject fields))
                /\ assoc (propertyKey key) fields = None
                /\ forall k, k <> propertyKey key ->
                             assoc k fields = assoc k (ownProps nested)
          end)
  end.
Proof.
  intros Hlast Hkey. unfold buildPayload. rewrite Hlast, Hkey.
  cbn [negb].
  destruct (if isNumber _ then Ok resource else _) as [nested|e];
    cbn [mbind Result_bind]; [|reflexivity].
  split.
  - intros Hty. rewrite bool_decide_eq_false_2 by exact Hty.
    eexists. split; [reflexivity|].
    split; [apply assoc_setProp_eq | intros k Hk; by apply assoc_setProp_ne].
  - intros Hty. rewrite bool_decide_eq_true_2 by exact Hty.
    destruct nested; try reflexivity;
      (eexists; split; [reflexivity|];
       split; [apply assoc_deleteProp_eq
              | intros k Hk; by apply assoc_deleteProp_ne]).
Qed.

End BuildPayloadProperties.

(** ** The further properties at concrete inputs *)

Lemma combineRenameDiffs_no_pair_witness :
  combineRenameDiffs microdiffRef
    [Samples.titleChange; MoreSamples.deepCreate; Samples.newTag] []
  = Ok (passed
        <$> [Samples.titleChange; MoreSamples.deepCreate; Samples.newTag]).
Proof.
  apply combineRenameDiffs_no_pair.
  cbn. repeat split; intros (_ & Hr & _); discriminate.
Defined.

Example no_pair_evaluated :
  combineRenameDiffs microdiffRef
    [Samples.titleChange; MoreSamples.deepCreate; Samples.newTag] []
  = Ok [Samples.titleChange;
        Samples.ch [Key "paths"; Key "/pets"; Key "get"; Key "summary"]
          VUndefined (VString "x");
        Samples.newTag].
Proof. reflexivity. Qed.

Lemma combineRenameDiffs_outside_paths_witness :
  combineRenameDiffs microdiffRef [Samples.titleChange; Samples.newTag] []
  = Ok [Samples.titleChange; Samples.newTag].
Proof.
  apply combineRenameDiffs_outside_paths.
  repeat constructor; discriminate.
Defined.

Lemma combineRenameDiffs_prefix_twice_witness :
  combineRenameDiffs microdiffRef
    (MoreSamples.summaryChange :: [MoreSamples.descriptionChange])
    (Key "paths" :: [Key "/b"])
  = Ok (simplifiedEntry
          (prefixPath (Key "paths" :: [Key "/b"]) MoreSamples.summaryChange)
        :: ((fun y => simplifiedEntry
                        (prefixPath (Key "paths" :: [Key "/b"])
                           (prefixPath (Key "paths" :: [Key "/b"]) y)))
            <$> [MoreSamples.descriptionChange])).
Proof.
  apply combineRenameDiffs_prefix_twice.
  cbn. repeat split. intros [Hr _]. discriminate.
Defined.

Lemma combineRenameDiffs_no_deep_create_witness :
  shallowOrIndexed
    (Samples.ch [Key "paths"; Key "/pets"; Key "get"; Key "summary"]
       VUndefined (VString "x")).
Proof.
  destruct (combineRenameDiffs_no_deep_create microdiffRef
              [Samples.titleChange; MoreSamples.deepCreate; Samples.newTag])
    as [Htop _].
  apply (Htop [Samples.titleChange;
               Samples.ch [Key "paths"; Key "/pets"; Key "get"; Key "summary"]
                 VUndefined (VString "x");
               Samples.newTag]).
  - reflexivity.
  - apply elem_of_cons. right. by left.
  - reflexivity.
Defined.

Lemma rename_entries_in_paths_witness :
  segAt [Key "paths"; Key "/animals"; Key "post"; Key "summary"] 0
  = Key "paths".
Proof.
  apply (rename_entries_in_paths microdiffRef Samples.petsGet
           Samples.animalsPostEdited
           [Samples.ch [Key "paths"; Key "/animals"; Key "post"; Key "summary"]
              (VString "x") (VString "y")]
           (Samples.ch [Key "paths"; Key "/animals"; Key "post"; Key "summary"]
              (VString "x") (VString "y"))).
  - reflexivity.
  - vm_compute. do 2 right. left.
Defined.


Lemma collection_edit_valid_witness :
  @diffToCollectionPayload Ref.externals
    (Samples.ch [Key "info"; Key "constructor"] (VString "a") (VString "b"))
    Samples.coll
  = Throw TypeError
  /\ (@diffToCollectionPayload Ref.externals Samples.titleChange Samples.coll
      = Ok None
      \/ exists s v,
           @diffToCollectionPayload Ref.externals Samples.titleChange
             Samples.coll
           = Ok (Some (collection_uid Samples.coll,
                       joinPath (path Samples.titleChange), v))
           /\ traverseZodSchema Ref.collection (path Samples.titleChange)
              = Some s
           /\ zodSatisfies s v).
Proof.
  split.
  - destruct (@collection_edit_valid Ref.externals zodSatisfies
                safeParseRef_sound
                (Samples.ch [Key "info"; Key "constructor"] (VString "a")
                   (VString "b"))
                Samples.coll) as [Hthrow _];
      [reflexivity | discriminate |].
    by apply (Hthrow "constructor").
  - destruct (@collection_edit_valid Ref.externals zodSatisfies
                safeParseRef_sound Samples.titleChange Samples.coll)
      as [_ Hvalid]; [reflexivity | discriminate |].
    apply Hvalid. intros member. discriminate.
Defined.

Lemma collection_push_then_pop_witness :
  @diffToCollectionPayload Ref.externals
    (Samples.cr [Key "security"; Index 7] (VObject [("oauth", VArray [])]))
    Samples.coll
  = Ok (Some ("c1", "security",
              VArray ([VObject [("apiKey", VArray [])]]
                      ++ [VObject [("oauth", VArray [])]])))
  /\ @diffToCollectionPayload Ref.externals
       (Samples.rm [Key "security"; Index 7] (VObject [("oauth", VArray [])]))
       (mkCollection "c1" [] [] [] []
          ([VObject [("apiKey", VArray [])]]
           ++ [VObject [("oauth", VArray [])]]))
     = Ok (Some ("c1", "security", VArray [VObject [("apiKey", VArray [])]])).
Proof.
  apply (@collection_push_then_pop Ref.externals
           (Samples.cr [Key "security"; Index 7]
              (VObject [("oauth", VArray [])]))
           (Samples.rm [Key "security"; Index 7]
              (VObject [("oauth", VArray [])]))
           Samples.coll
           (mkCollection "c1" [] [] [] []
              ([VObject [("apiKey", VArray [])]]
               ++ [VObject [("oauth", VArray [])]]))
           [VObject [("apiKey", VArray [])]]
           (ZodRecord (ZodArray ZodString))
           (VObject [("oauth", VArray [])])); reflexivity.
Defined.

Lemma collection_push_without_array_witness :
  @diffToCollectionPayload Ref.externals
    (Samples.cr [Key "security"; Index 0; Key "apiKey"; Index 0]
       (VString "read"))
    MoreSamples.oddSecurity
  = Throw TypeError.
Proof.
  apply (@collection_push_without_array Ref.externals _ _
           (mkParsed "security.0.apiKey.0" "security.0.apiKey"
              (VString "read")));
    [reflexivity | discriminate | reflexivity | exact I].
Defined.

Lemma request_rename_fans_out_witness :
  @diffToRequestPayload Ref.externals
    (Samples.ch [Key "paths"; Key "path"] (VString "/pets")
       (VString "/animals"))
    Samples.coll Samples.requests
  = Ok [PEdit "r1" "path" (VString "/animals");
        PEdit "r2" "path" (VString "/animals")].
Proof.
  destruct (@request_rename_fans_out Ref.externals
              (Samples.ch [Key "paths"; Key "path"] (VString "/pets")
                 (VString "/animals"))
              Samples.coll Samples.requests) as [Hp _].
  - reflexivity.
  - repeat constructor; eexists; reflexivity.
  - rewrite Hp by reflexivity. reflexivity.
Defined.

Lemma request_rename_dangling_uid_witness :
  @diffToRequestPayload Ref.externals
    (Samples.ch [Key "paths"; Key "path"] (VString "/pets")
       (VString "/animals"))
    MoreSamples.dangling Samples.requests
  = Throw TypeError.
Proof.
  apply (@request_rename_dangling_uid Ref.externals _ _ _ "gone").
  - reflexivity.
  - by left.
  - cbn. apply elem_of_cons. right. by left.
  - reflexivity.
Defined.

Lemma request_remove_deletes_witness :
  @diffToRequestPayload Ref.externals
    (Samples.rm [Key "paths"; Key "/pets"; Key "post"] (VObject []))
    Samples.coll Samples.requests
  = Ok []
  \/ exists r,
       @diffToRequestPayload Ref.externals
         (Samples.rm [Key "paths"; Key "/pets"; Key "post"] (VObject []))
         Samples.coll Samples.requests
       = Ok [PDelete r (Some (collection_uid Samples.coll))]
       /\ (exists uid, uid ∈ collection_requests Samples.coll
                       /\ Samples.requests !! uid = Some r)
       /\ segAt [Key "paths"; Key "/pets"; Key "post"] 1
          = Key (request_path r)
       /\ segAt [Key "paths"; Key "/pets"; Key "post"] 2
          = Key (request_method r).
Proof.
  apply (@request_remove_deletes Ref.externals).
  - reflexivity.
  - reflexivity.
  - repeat constructor; eexists; reflexivity.
Defined.

Example request_remove_evaluated :
  @diffToRequestPayload Ref.externals
    (Samples.rm [Key "paths"; Key "/pets"; Key "post"] (VObject []))
    Samples.coll Samples.requests
  = Ok [PDelete (mkRequest "r2" "/pets" "post" []) (Some "c1")].
Proof. reflexivity. Qed.

Lemma request_change_edits_valid_witness :
  @diffToRequestPayload Ref.externals
    (Samples.ch [Key "paths"; Key "/pets"; Key "get"; Key "constructor"]
       (VString "x") (VString "y"))
    Samples.coll Samples.requests
  = Throw TypeError
  /\ (@diffToRequestPayload Ref.externals
        (Samples.ch [Key "paths"; Key "/pets"; Key "get"; Key "summary"]
           (VString "x") (VString "y"))
        Samples.coll Samples.requests
      = Ok []
      \/ exists r s v,
           @diffToRequestPayload Ref.externals
             (Samples.ch [Key "paths"; Key "/pets"; Key "get"; Key "summary"]
                (VString "x") (VString "y"))
             Samples.coll Samples.requests
           = Ok [PEdit (request_uid r)
                   (joinPath (drop 3 [Key "paths"; Key "/pets"; Key "get";
                                      Key "summary"])) v]
           /\ (exists uid, uid ∈ collection_requests Samples.coll
                           /\ Samples.requests !! uid = Some r)
           /\ segAt [Key "paths"; Key "/pets"; Key "get"; Key "summary"] 1
              = Key (request_path r)
           /\ segAt [Key "paths"; Key "/pets"; Key "get"; Key "summary"] 2
              = Key (request_method r)
           /\ traverseZodSchema Ref.request
                (drop 3 [Key "paths"; Key "/pets"; Key "get"; Key "summary"])
              = Some s
           /\ zodSatisfies s v).
Proof.
  split.
  - destruct (@request_change_edits_valid Ref.externals zodSatisfies
                safeParseRef_sound
                (Samples.ch [Key "paths"; Key "/pets"; Key "get";
                             Key "constructor"] (VString "x") (VString "y"))
                Samples.coll Samples.requests) as [Hthrow _].
    + reflexivity.
    + discriminate.
    + discriminate.
    + repeat constructor; eexists; reflexivity.
    + by apply (Hthrow "constructor").
  - destruct (@request_change_edits_valid Ref.externals zodSatisfies
                safeParseRef_sound
                (Samples.ch [Key "paths"; Key "/pets"; Key "get";
                             Key "summary"] (VString "x") (VString "y"))
                Samples.coll Samples.requests) as [_ Hvalid].
    + reflexivity.
    + discriminate.
    + discriminate.
    + repeat constructor; eexists; reflexivity.
    + apply Hvalid. intros member. discriminate.
Defined.

Lemma request_create_invalid_servers_witness :
  @diffToRequestPayload Ref.externals
    (Samples.cr [Key "paths"; Key "/new"; Key "get"]
       (VObject [("summary", VString "x"); ("servers", VNumber 3)]))
    Samples.coll Samples.requests
  = Throw ZodError.
Proof.
  apply (@request_create_invalid_servers Ref.externals _ _ _
           [("summary", VString "x"); ("servers", VNumber 3)] (VNumber 3));
    reflexivity.
Defined.

Lemma server_and_tag_index_out_of_range_witness :
  @diffToServerPayload Ref.externals
    (Samples.ch [Key "servers"; Index 9; Key "url"]
       (VString "https://x") (VString "https://y"))
    Samples.coll Samples.servers
  = Ok None
  /\ @diffToServerPayload Ref.externals
       (Samples.ch [Key "servers"; Index 9; Key "constructor"]
          (VString "https://x") (VString "https://y"))
       Samples.coll Samples.servers
     = Throw TypeError.
Proof.
  split.
  - destruct (@server_and_tag_index_out_of_range Ref.externals
                (Samples.ch [Key "servers"; Index 9; Key "url"]
                   (VString "https://x") (VString "https://y"))
                Samples.coll) as [Hs _].
    destruct (Hs Samples.servers) as [_ Hkeys]; [reflexivity | reflexivity |].
    destruct Hkeys as [_ Hnone]; [discriminate |].
    apply Hnone. right. intros member. discriminate.
  - destruct (@server_and_tag_index_out_of_range Ref.externals
                (Samples.ch [Key "servers"; Index 9; Key "constructor"]
                   (VString "https://x") (VString "https://y"))
                Samples.coll) as [Hs _].
    destruct (Hs Samples.servers) as [_ Hkeys]; [reflexivity | reflexivity |].
    destruct Hkeys as [Hthrow _]; [discriminate |].
    by apply (Hthrow "constructor").
Defined.

Lemma server_and_tag_adds_valid_witness :
  @diffToTagPayload Ref.externals Samples.newTag ∅ Samples.coll = Ok None
  \/ exists v,
       @diffToTagPayload Ref.externals Samples.newTag ∅ Samples.coll
       = Ok (Some (PAdd v (collection_uid Samples.coll)))
       /\ @safeParse Ref.externals Ref.tag (value Samples.newTag)
          = Ok (Some v)
       /\ zodSatisfies Ref.tag v.
Proof.
  destruct (@server_and_tag_adds_valid Ref.externals zodSatisfies
              safeParseRef_sound Samples.newTag Samples.coll)
    as [_ Ht]; [reflexivity | reflexivity |].
  apply Ht.
Defined.



Lemma scheme_add_validates_or_throws_witness :
  @diffToSecuritySchemePayload Ref.externals
    (Samples.cr [Key "components"; Key "securitySchemes"; Key "basic"]
       (VObject [("type", VString "http"); ("scheme", VString "basic")]))
    Samples.coll Samples.schemes
  = Ok (Some (PAdd (VObject [("type", VString "http");
                             ("uid", VString "generated");
                             ("nameKey", VString "");
                             ("scheme", VString "basic")])
                   (collection_uid Samples.coll)))
  /\ zodSatisfies Ref.securityScheme
       (VObject [("type", VString "http"); ("uid", VString "generated");
                 ("nameKey", VString ""); ("scheme", VString "basic")]).
Proof.
  destruct (@scheme_add_validates_or_throws Ref.externals zodSatisfies
              safeParseRef_sound
              (Samples.cr [Key "components"; Key "securitySchemes"; Key "basic"]
                 (VObject [("type", VString "http");
                           ("scheme", VString "basic")]))
              Samples.coll Samples.schemes) as [Hv _].
  - reflexivity.
  - reflexivity.
  - repeat constructor; eexists; reflexivity.
  - apply Hv. reflexivity.
Defined.



Lemma buildPayload_falsy_key_witness :
  buildPayload getNestedValueRef
    (Samples.ch [Key "servers"; Index 0] (VString "a") (VString "b"))
    MoreSamples.withInfo
  = Ok None.
Proof.
  destruct (buildPayload_falsy_key getNestedValueRef
              (Samples.ch [Key "servers"; Index 0] (VString "a") (VString "b"))
              MoreSamples.withInfo) as [_ Hfalsy].
  apply (Hfalsy [Key "servers"]). by left.
Defined.

Lemma buildPayload_frame_witness :
  (exists fields,
      buildPayload getNestedValueRef
        (Samples.ch [Key "info"; Key "title"] (VString "Pets")
           (VString "Cats"))
        MoreSamples.withInfo
      = Ok (Some (VObject fields))
      /\ assoc "title" fields = Some (VString "Cats")
      /\ forall k, k <> "title" ->
                   assoc k fields = assoc k (ownProps MoreSamples.info))
  /\ buildPayload getNestedValueRef
       (Samples.ch [Key "nope"; Key "deeper"; Key "title"] (VString "Pets")
          (VString "Cats"))
       MoreSamples.withInfo
     = Throw TypeError
  /\ buildPayload getNestedValueRef
       (Samples.rm [Key "nope"; Key "title"] (VString "Pets"))
       MoreSamples.withInfo
     = Throw TypeError.
Proof.
  split; [|split].
  - destruct (buildPayload_frame getNestedValueRef
                (Samples.ch [Key "info"; Key "title"] (VString "Pets")
                   (VString "Cats"))
                MoreSamples.withInfo (Key "title")) as [Hset _];
      [reflexivity | reflexivity |].
    apply Hset. discriminate.
  - by apply (buildPayload_frame getNestedValueRef
                (Samples.ch [Key "nope"; Key "deeper"; Key "title"]
                   (VString "Pets") (VString "Cats"))
                MoreSamples.withInfo (Key "title")).
  - destruct (buildPayload_frame getNestedValueRef
                (Samples.rm [Key "nope"; Key "title"] (VString "Pets"))
                MoreSamples.withInfo (Key "title")) as [_ Hrm];
      [reflexivity | reflexivity |].
    by apply Hrm.
Defined.

Lemma request_array_push_witness :
  @diffToRequestPayload Ref.externals
    (Samples.cr [Key "paths"; Key "/pets"; Key "get"; Key "tags"; Index 1]
       (VString "new"))
    Samples.coll Samples.requests
  = Ok [PEdit (request_uid (mkRequest "r1" "/pets" "get" [VString "pets"]))
          (joinPath
             (removelast
                (drop 3 (path (Samples.cr
                                 [Key "paths"; Key "/pets"; Key "get";
                                  Key "tags"; Index 1] (VString "new"))))))
          (VArray ([VString "pets"] ++ [VString "new"]))]
  /\ zodSatisfies ZodString (VString "new").
Proof.
  apply (@request_array_push Ref.externals zodSatisfies safeParseRef_sound
           _ _ _ (mkRequest "r1" "/pets" "get" [VString "pets"])
           [VString "pets"] ZodString (VString "new")); reflexivity.
Defined.
